(** * Binarized linear layers and model surgery (quantization/binarize.py)

    A shallow embedding of [BinaryLinearFunction], [BinarizedLinear],
    [IRLinearFunction], [IRLinear] and [binarizer].

    - Scalars are an interface ([Scalar], [Runtime]): the array runtime's
      arithmetic, comparison, tanh, sqrt and random generator are operations
      of a class, so every theorem holds for whatever arithmetic is supplied.
      Two instances are given, the rationals (executable) and the reals.
    - A tensor is a shape and its elements in row-major order.  Broadcasting,
      [matmul], [transpose], [sum], [squeeze] follow the runtime's rules for
      every rank.
    - Python objects live in a heap: tensors and layer objects are addressed,
      operations allocate their result, in-place operations ([+=],
      [masked_fill_], [normal_], [zero_]) overwrite a cell.  A view
      ([t()], [transpose], [squeeze]) is a new object with the same
      elements: nothing is written through a view in this code.  Exceptions
      are the [Raise] outcome of a state-and-error monad, named as Python
      names them.
    - The weight is a matrix and the bias a vector, as the spec has them.
      The theorems on forward take an input of any rank, read as the rows of
      its flattened batch.  The theorems on backward take the gradient of
      the output to have the shape of the output; those on the weight
      gradient take an input of any rank from 2 on, read as a stack of
      matrices, the others say which ranks they cover. *)

From Stdlib Require Import String Ascii.
From Stdlib Require Import List Arith Lia Bool QArith Reals Lra.
From Stdlib Require Import DecimalString DecimalNat.
Import ListNotations.
Local Close Scope R_scope.
Local Close Scope Q_scope.
Local Open Scope nat_scope.

Set Implicit Arguments.

(** ** Scalars *)

Class Scalar (T : Type) := {
  s0 : T;
  s1 : T;
  sadd : T -> T -> T;
  ssub : T -> T -> T;
  smul : T -> T -> T;
  sdiv : T -> T -> T;
  sneg : T -> T;
  sltb : T -> T -> bool;
  of_nat : nat -> T
}.

(** The only law a theorem below relies on: [<] is asymmetric. *)
Class ScalarOrder (T : Type) `{Scalar T} := {
  sltb_asym : forall x y : T, sltb x y = true -> sltb y x = false
}.

(** What the numeric runtime supplies besides arithmetic: [torch.tanh],
    square root, and the stream of standard normal draws of its generator. *)
Class Runtime (T : Type) `{Scalar T} := {
  stanh : T -> T;
  ssqrt : T -> T;
  randn : nat -> T
}.

(** ** Two scalar instances *)

Definition Qltb (x y : Q) : bool := negb (Qle_bool y x).

#[export] Instance Scalar_Q : Scalar Q := {|
  s0 := 0%Q;
  s1 := 1%Q;
  sadd := Qplus;
  ssub := Qminus;
  smul := Qmult;
  sdiv := Qdiv;
  sneg := Qopp;
  sltb := Qltb;
  of_nat := fun n => inject_Z (Z.of_nat n)
|}.

Definition Rltb (x y : R) : bool := if Rlt_dec x y then true else false.

#[export] Instance Scalar_R : Scalar R := {|
  s0 := 0%R;
  s1 := 1%R;
  sadd := Rplus;
  ssub := Rminus;
  smul := Rmult;
  sdiv := Rdiv;
  sneg := Ropp;
  sltb := Rltb;
  of_nat := INR
|}.

(** The reals with the hyperbolic tangent and the square root; the generator
    is the stream that draws 0 every time. *)
#[export] Instance Runtime_R : @Runtime R Scalar_R := {|
  stanh := tanh;
  ssqrt := sqrt;
  randn := fun _ => 0%R
|}.

(** ** Outcomes *)

Inductive exn :=
| Exception
| TypeError
| ValueError
| IndexError
| RuntimeError
| ZeroDivisionError
| UnboundLocalError.

Inductive result (A : Type) :=
| Ok (a : A)
| Raise (e : exn).
Arguments Ok {A} a.
Arguments Raise {A} e.

(** ** Tensors *)

Record tensor (A : Type) := mkT { shape : list nat; data : list A }.

Definition numel (s : list nat) : nat := fold_right Nat.mul 1 s.

(** [tab n f] is the list [f 0; ...; f (n-1)]. *)
Definition tab {A} (n : nat) (f : nat -> A) : list A := map f (seq 0 n).

(** Row-major multi-index of the flat position [p] in a tensor of shape [s]. *)
Fixpoint unravel (s : list nat) (p : nat) : list nat :=
  match s with
  | [] => []
  | d :: r => (p / numel r) mod d :: unravel r p
  end.

(** Flat position of a multi-index in a tensor of shape [s]; an index into a
    dimension of size 1 is 0, which is how a broadcast dimension is read. *)
Fixpoint ravel (s idx : list nat) : nat :=
  match s, idx with
  | d :: r, i :: ix => (i mod d) * numel r + ravel r ix
  | _, _ => 0
  end.

(** Broadcasting of two shapes, aligned at the last dimension. *)
Fixpoint bshape_rev (a b : list nat) : option (list nat) :=
  match a, b with
  | [], _ => Some b
  | _, [] => Some a
  | x :: a', y :: b' =>
      match bshape_rev a' b' with
      | None => None
      | Some r =>
          if x =? y then Some (x :: r)
          else if x =? 1 then Some (y :: r)
          else if y =? 1 then Some (x :: r)
          else None
      end
  end.

Definition broadcast_shapes (a b : list nat) : option (list nat) :=
  option_map (@rev nat) (bshape_rev (rev a) (rev b)).

(** Position read in a tensor of shape [ss] for position [p] of the
    broadcast result of shape [so]. *)
Definition bindex (so ss : list nat) (p : nat) : nat :=
  ravel ss (skipn (length so - length ss) (unravel so p)).

Definition tmap {A B} (f : A -> B) (a : tensor A) : tensor B :=
  mkT (shape a) (map f (data a)).

Definition broadcast2 {A B C} (f : A -> B -> C) (da : A) (db : B)
    (a : tensor A) (b : tensor B) : result (tensor C) :=
  match broadcast_shapes (shape a) (shape b) with
  | None => Raise RuntimeError
  | Some s =>
      Ok (mkT s (tab (numel s) (fun p =>
            f (nth (bindex s (shape a) p) (data a) da)
              (nth (bindex s (shape b) p) (data b) db))))
  end.

(** In-place binary operation [a op= b]: [b] must broadcast to the shape of
    [a], which does not change. *)
Definition broadcast2_ {A B} (f : A -> B -> A) (da : A) (db : B)
    (a : tensor A) (b : tensor B) : result (tensor A) :=
  match broadcast_shapes (shape a) (shape b) with
  | None => Raise RuntimeError
  | Some s =>
      if list_eq_dec Nat.eq_dec s (shape a) then
        Ok (mkT s (tab (numel s) (fun p =>
              f (nth p (data a) da) (nth (bindex s (shape b) p) (data b) db))))
      else Raise RuntimeError
  end.

(** The representation invariant of a tensor: as many elements as its shape
    says. *)
Definition wf {A} (a : tensor A) : Prop := length (data a) = numel (shape a).

(** Splits a shape into batch dimensions and the last two. *)
Fixpoint split_last2 (s : list nat) : option (list nat * nat * nat) :=
  match s with
  | [] => None
  | d :: rest =>
      match rest with
      | [] => None
      | [c] => Some ([], d, c)
      | _ =>
          match split_last2 rest with
          | Some (bs, r, c) => Some (d :: bs, r, c)
          | None => None
          end
      end
  end.

(** ** Objects *)

Definition addr := nat.

(** The attributes the three linear layer types share. *)
Record LinearParams := {
  in_features : nat;
  out_features : nat;
  weight : addr;
  bias : option addr
}.

(** A module object is told apart by its exact type. [OtherModule] is any
    other module type, for instance a wrapper whose child is a dense layer. *)
Inductive module :=
| Linear (p : LinearParams)
| BinarizedLinear (p : LinearParams)
| IRLinear (p : LinearParams) (t : option addr)
| OtherModule (children : list addr).

(** The context object of a custom autograd function. *)
Record Ctx := {
  saved_variables : list (option addr);
  needs_input_grad : list bool
}.

Definition save_for_backward (ctx : Ctx) (l : list (option addr)) : Ctx :=
  {| saved_variables := l; needs_input_grad := needs_input_grad ctx |}.

(** Modelled from the spec: the model class is not part of the source.  Per
    the spec, the model is an ordered sequence of transformer blocks, each
    exposing the sub-module groups "mlp" and "attn"; a group is an ordered
    dictionary from names to sub-layer objects that supports item
    assignment. *)
Record block := {
  mlp : list (string * addr);
  attn : list (string * addr)
}.

Fixpoint update {A} (n : nat) (x : A) (l : list A) : list A :=
  match l, n with
  | [], _ => []
  | _ :: r, 0 => x :: r
  | y :: r, S n' => y :: update n' x r
  end.

(** [d[key] = v] on an ordered dictionary: an existing key keeps its
    position, a new key is appended. *)
Fixpoint dict_set (key : string) (v : addr) (d : list (string * addr))
    : list (string * addr) :=
  match d with
  | [] => [(key, v)]
  | (k, x) :: r =>
      if String.eqb k key then (k, v) :: r else (k, x) :: dict_set key v r
  end.

(** ** __repr__ *)

(** [str(n)] for a non-negative integer: its decimal digits. *)
Definition str (n : nat) : string := NilEmpty.string_of_uint (Nat.to_uint n).

(** [self.__class__.__name__ + " (" + str(self.in_features) + " -> "
    + str(self.out_features) + ")"], for the class named [class_name]. *)
Definition repr (class_name : string) (self : LinearParams) : string :=
  ((((class_name ++ " (") ++ str (in_features self)) ++ " -> ")
     ++ str (out_features self)) ++ ")".

Definition BinarizedLinear_repr (self : LinearParams) : string :=
  repr "BinarizedLinear" self.

Definition IRLinear_repr (self : LinearParams) : string :=
  repr "IRLinear" self.

Section Binarize.

Context {T : Type} {SC : Scalar T} {RT : @Runtime T SC}.

(** ** Tensor operations of the array runtime *)

Definition ssum (l : list T) : T := fold_left sadd l s0.

Definition smax (x y : T) : T := if sltb x y then y else x.

(** [torch.sign]: 1 for positive, -1 for negative, 0 otherwise. *)
Definition sign (x : T) : T :=
  if sltb s0 x then s1 else if sltb x s0 then sneg s1 else s0.

Definition torch_sign (a : tensor T) : tensor T := tmap sign a.

(** [a > c] and [a < c] against a Python number. *)
Definition gt (a : tensor T) (c : T) : tensor bool := tmap (fun x => sltb c x) a.
Definition lt (a : tensor T) (c : T) : tensor bool := tmap (fun x => sltb x c) a.

(** [m1 | m2] on boolean tensors. *)
Definition mask_or (m1 m2 : tensor bool) : result (tensor bool) :=
  broadcast2 orb false false m1 m2.

(** [a.t()]: tensors of rank below 2 are returned as they are, a matrix is
    transposed, higher ranks are refused. *)
Definition tensor_t (a : tensor T) : result (tensor T) :=
  match shape a with
  | [] | [_] => Ok a
  | [r; c] =>
      Ok (mkT [c; r] (tab (c * r) (fun p => nth ((p mod r) * c + p / r) (data a) s0)))
  | _ => Raise RuntimeError
  end.

(** [a.transpose(-1, -2)]: swaps the last two dimensions in every batch. *)
Definition transpose_last2 (a : tensor T) : result (tensor T) :=
  match split_last2 (shape a) with
  | None => Raise IndexError
  | Some (bs, r, c) =>
      Ok (mkT (bs ++ [c; r])
            (tab (numel bs * (c * r)) (fun p =>
               nth ((p / (c * r) * r + p mod r) * c + (p / r) mod c) (data a) s0)))
  end.

(** [a.matmul(b)]: a vector operand is promoted to a matrix and the added
    dimension dropped from the result; batch dimensions broadcast. *)
Definition matmul (a b : tensor T) : result (tensor T) :=
  let sa := shape a in
  let sb := shape b in
  if (length sa =? 0) || (length sb =? 0) then Raise RuntimeError
  else
    let va := length sa =? 1 in
    let vb := length sb =? 1 in
    match split_last2 (if va then 1 :: sa else sa),
          split_last2 (if vb then sb ++ [1] else sb) with
    | Some (bsa, n, k), Some (bsb, k', p) =>
        if k =? k' then
          match broadcast_shapes bsa bsb with
          | Some bs =>
              Ok (mkT (bs ++ (if va then [] else [n]) ++ (if vb then [] else [p]))
                    (tab (numel bs * (n * p)) (fun x =>
                       ssum (tab k (fun l =>
                         smul (nth ((bindex bs bsa (x / (n * p)) * n + (x / p) mod n) * k + l)
                                   (data a) s0)
                              (nth ((bindex bs bsb (x / (n * p)) * k + l) * p + x mod p)
                                   (data b) s0))))))
          | None => Raise RuntimeError
          end
        else Raise RuntimeError
    | _, _ => Raise RuntimeError
    end.

(** [a.sum(0)]: the first dimension is summed away; a 0-d tensor is its own
    sum. *)
Definition sum0 (a : tensor T) : tensor T :=
  match shape a with
  | [] => a
  | d :: r =>
      mkT r (tab (numel r) (fun j =>
        ssum (tab d (fun b => nth (b * numel r + j) (data a) s0))))
  end.

(** [a.squeeze(0)]: the first dimension is removed when its size is 1. *)
Definition squeeze0 (a : tensor T) : tensor T :=
  match shape a with
  | 1 :: r => mkT r (data a)
  | _ => a
  end.

Definition add_ (a b : tensor T) : result (tensor T) := broadcast2_ sadd s0 s0 a b.

Definition masked_fill_ (a : tensor T) (m : tensor bool) (v : T) : result (tensor T) :=
  broadcast2_ (fun x (c : bool) => if c then v else x) s0 false a m.

Definition mul (a b : tensor T) : result (tensor T) := broadcast2 smul s0 s0 a b.
Definition sub (a b : tensor T) : result (tensor T) := broadcast2 ssub s0 s0 a b.
Definition div (a b : tensor T) : result (tensor T) := broadcast2 sdiv s0 s0 a b.

(** [c - a] and [c / a] with a Python number on the left. *)
Definition rsub (c : T) (a : tensor T) : tensor T := tmap (fun x => ssub c x) a.
Definition rdiv (c : T) (a : tensor T) : tensor T := tmap (fun x => sdiv c x) a.

Definition torch_square (a : tensor T) : tensor T := tmap (fun x => smul x x) a.

(** [torch.mean(a)]: a 0-d tensor. *)
Definition torch_mean (a : tensor T) : tensor T :=
  mkT [] [sdiv (ssum (data a)) (of_nat (numel (shape a)))].

(** [torch.std(a)]: the sample standard deviation with Bessel's correction
    (the default, [unbiased=True]), a 0-d tensor. *)
Definition torch_std (a : tensor T) : tensor T :=
  let m := sdiv (ssum (data a)) (of_nat (numel (shape a))) in
  mkT [] [ssqrt (sdiv (ssum (map (fun x => smul (ssub x m) (ssub x m)) (data a)))
                      (of_nat (numel (shape a) - 1)))].

Definition torch_tanh (a : tensor T) : tensor T := tmap stanh a.

(** [torch.max(a)] over all elements: a 0-d tensor; refused when empty. *)
Definition torch_max (a : tensor T) : result (tensor T) :=
  match data a with
  | [] => Raise RuntimeError
  | x :: r => Ok (mkT [] [fold_left smax r x])
  end.


(** ** The heap and the monad of effects *)

Inductive value :=
| VTensor (a : tensor T) (requires_grad : bool)
| VMask (m : tensor bool)
| VModule (m : module).

(** The process state: the heap of objects, the position of the random
    generator, and the blocks [model.transformer.h] of the model handed to
    [binarizer]. *)
Record state := {
  heap : list value;
  gen : nat;
  transformer_h : list block
}.

Definition set_heap (s : state) (h : list value) : state :=
  {| heap := h; gen := gen s; transformer_h := transformer_h s |}.

Definition set_gen (s : state) (g : nat) : state :=
  {| heap := heap s; gen := g; transformer_h := transformer_h s |}.

Definition set_transformer_h (s : state) (h : list block) : state :=
  {| heap := heap s; gen := gen s; transformer_h := h |}.

(** A computation returns a value or raises, and leaves a state either way. *)
Definition M (A : Type) : Type := state -> result A * state.

Definition ret {A} (a : A) : M A := fun s => (Ok a, s).

Definition raise {A} (e : exn) : M A := fun s => (Raise e, s).

Definition bind {A B} (m : M A) (k : A -> M B) : M B :=
  fun s =>
    match m s with
    | (Ok a, s') => k a s'
    | (Raise e, s') => (Raise e, s')
    end.

Notation "x <- m ;; k" := (bind m (fun x => k))
  (at level 61, m at next level, right associativity).
Notation "m ;;; k" := (bind m (fun _ => k))
  (at level 61, right associativity).

Definition lift {A} (r : result A) : M A := fun s => (r, s).

Definition lookup (s : state) (a : addr) : option value := nth_error (heap s) a.

(** The state with a new object at the next free address, and the state with
    the object at an address overwritten. *)
Definition push (s : state) (v : value) : state := set_heap s (heap s ++ [v]).

Definition poke (s : state) (a : addr) (v : value) : state :=
  set_heap s (update a v (heap s)).

Definition alloc (v : value) : M addr :=
  fun s => (Ok (length (heap s)), push s v).

Definition load (a : addr) : M value :=
  fun s =>
    match lookup s a with
    | Some v => (Ok v, s)
    | None => (Raise RuntimeError, s)
    end.

Definition store (a : addr) (v : value) : M unit :=
  fun s => (Ok tt, poke s a v).

Definition load_tensor (a : addr) : M (tensor T) :=
  v <- load a ;;
  match v with
  | VTensor x _ => ret x
  | _ => raise TypeError
  end.

Definition load_mask (a : addr) : M (tensor bool) :=
  v <- load a ;;
  match v with
  | VMask x => ret x
  | _ => raise TypeError
  end.

(** An in-place operation keeps the object and its [requires_grad]. *)
Definition store_tensor (a : addr) (x : tensor T) : M unit :=
  v <- load a ;;
  match v with
  | VTensor _ g => store a (VTensor x g)
  | _ => raise TypeError
  end.

Definition new_tensor (x : tensor T) : M addr := alloc (VTensor x false).

Definition new_mask (x : tensor bool) : M addr := alloc (VMask x).

(** Operations on tensor objects: the operands are read, the result is a new
    object. *)
Definition op1 (f : tensor T -> result (tensor T)) (a : addr) : M addr :=
  x <- load_tensor a ;;
  r <- lift (f x) ;;
  new_tensor r.

Definition op2 (f : tensor T -> tensor T -> result (tensor T)) (a b : addr) : M addr :=
  x <- load_tensor a ;;
  y <- load_tensor b ;;
  r <- lift (f x y) ;;
  new_tensor r.

Definition cmp (f : tensor T -> tensor bool) (a : addr) : M addr :=
  x <- load_tensor a ;;
  new_mask (f x).

Definition or_ (a b : addr) : M addr :=
  x <- load_mask a ;;
  y <- load_mask b ;;
  r <- lift (mask_or x y) ;;
  new_mask r.

(** [a += b] *)
Definition iadd (a b : addr) : M unit :=
  x <- load_tensor a ;;
  y <- load_tensor b ;;
  r <- lift (add_ x y) ;;
  store_tensor a r.

(** [a.masked_fill_(m, v)] *)
Definition imasked_fill (a m : addr) (v : T) : M unit :=
  x <- load_tensor a ;;
  y <- load_mask m ;;
  r <- lift (masked_fill_ x y v) ;;
  store_tensor a r.

Definition pure1 (f : tensor T -> tensor T) : tensor T -> result (tensor T) :=
  fun x => Ok (f x).

(** ** BinaryLinearFunction *)

Definition BinaryLinearFunction_forward (ctx : Ctx) (input weight : addr)
    (bias : option addr) : M (Ctx * addr) :=
  (* binarize weights by sign function *)
  m1 <- cmp (fun w => gt w s1) weight ;;
  m2 <- cmp (fun w => lt w (sneg s1)) weight ;;
  weight_mask <- or_ m1 m2 ;;
  weight <- op1 (pure1 torch_sign) weight ;;
  (* save for grad computing *)
  let ctx := save_for_backward ctx [Some input; Some weight; Some weight_mask; bias] in
  (* linear layer *)
  wt <- op1 tensor_t weight ;;
  output <- op2 matmul input wt ;;
  match bias with
  | Some b => iadd output b
  | None => ret tt
  end ;;;
  ret (ctx, output).

Definition BinaryLinearFunction_backward (ctx : Ctx) (grad_output : addr)
    : M (option addr * option addr * option addr) :=
  (* retrieve saved variables *)
  match saved_variables ctx with
  | [Some input; Some weight; Some weight_mask; bias] =>
      (* computing grads *)
      grad_input <-
        (if nth 0 (needs_input_grad ctx) false then
           g <- op2 matmul grad_output weight ;; ret (Some g)
         else ret None) ;;
      grad_weight <-
        (if nth 1 (needs_input_grad ctx) false then
           (* if weights' absolute value larger than 1, no grads *)
           gt_ <- op1 transpose_last2 grad_output ;;
           g <- op2 matmul gt_ input ;;
           imasked_fill g weight_mask s0 ;;;
           ret (Some g)
         else ret None) ;;
      grad_bias <-
        (match bias with
         | Some _ =>
             if nth 2 (needs_input_grad ctx) false then
               sm <- op1 (pure1 sum0) grad_output ;;
               g <- op1 (pure1 squeeze0) sm ;;
               ret (Some g)
             else ret None
         | None => ret None
         end) ;;
      ret (grad_input, grad_weight, grad_bias)
  | _ => raise ValueError
  end.

(** ** Function.apply *)

Definition requires_grad_of (a : option addr) : M bool :=
  match a with
  | None => ret false
  | Some x =>
      v <- load x ;;
      match v with
      | VTensor _ g => ret g
      | _ => ret false
      end
  end.

Fixpoint mapM {A B} (f : A -> M B) (l : list A) : M (list B) :=
  match l with
  | [] => ret []
  | x :: r => y <- f x ;; ys <- mapM f r ;; ret (y :: ys)
  end.

(** The context autograd creates for a call: one [needs_input_grad] flag per
    argument, nothing saved yet. *)
Definition new_ctx (inputs : list (option addr)) : M Ctx :=
  needs <- mapM requires_grad_of inputs ;;
  ret {| saved_variables := []; needs_input_grad := needs |}.

(** [apply] returns the output; the context stays attached to it for the
    backward call, so it is returned with it. *)
Definition BinaryLinearFunction_apply (input weight : addr) (bias : option addr)
    : M (Ctx * addr) :=
  ctx <- new_ctx [Some input; Some weight; bias] ;;
  BinaryLinearFunction_forward ctx input weight bias.

(** ** BinarizedLinear *)

(** [nn.Parameter(torch.Tensor(...))] of shape [sh]: memory that the constructor fills
    before any use; it is modelled as zeros. *)
Definition nn_Parameter (sh : list nat) : M addr :=
  alloc (VTensor (mkT sh (repeat s0 (numel sh))) true).

(** [math.sqrt(1.0 / n)] *)
Definition math_sqrt_inv (n : nat) : M T :=
  if n =? 0 then raise ZeroDivisionError else ret (ssqrt (sdiv s1 (of_nat n))).

(** [a.data.normal_(mean, std)] *)
Definition normal_ (a : addr) (mean std : T) : M unit :=
  x <- load_tensor a ;;
  fun s =>
    let g := gen s in
    let n := numel (shape x) in
    store_tensor a
      (mkT (shape x) (tab n (fun i => sadd mean (smul std (randn (g + i))))))
      (set_gen s (g + n)).

(** [a.data.zero_()] *)
Definition zero_ (a : addr) : M unit :=
  x <- load_tensor a ;;
  store_tensor a (mkT (shape x) (repeat s0 (numel (shape x)))).

Definition BinarizedLinear_reset_parameters (self : LinearParams) : M unit :=
  sd <- math_sqrt_inv (in_features self) ;;
  normal_ (weight self) s0 (smul s1 sd) ;;;
  match bias self with
  | Some b => zero_ b
  | None => ret tt
  end.

(** [BinarizedLinear(in_features, out_features, bias)]: the address of the
    new layer object. *)
Definition BinarizedLinear_init (in_features out_features : nat) (bias : bool)
    : M addr :=
  w <- nn_Parameter [out_features; in_features] ;;
  b <- (if bias then (b <- nn_Parameter [out_features] ;; ret (Some b)) else ret None) ;;
  let self := {| in_features := in_features; out_features := out_features;
                 weight := w; bias := b |} in
  BinarizedLinear_reset_parameters self ;;;
  alloc (VModule (BinarizedLinear self)).

Definition BinarizedLinear_forward (self : LinearParams) (input : addr)
    : M (Ctx * addr) :=
  match bias self with
  | Some b => BinaryLinearFunction_apply input (weight self) (Some b)
  | None => raise Exception
  end.

(** ** IRLinearFunction *)

(** A [None] used as an operand of arithmetic is a type error. *)
Definition operand (t : option addr) : M addr :=
  match t with
  | Some a => ret a
  | None => raise TypeError
  end.

(** The number held by a one-element tensor. *)
Definition item (a : addr) : M T :=
  x <- load_tensor a ;;
  match data x with
  | [v] => ret v
  | _ => raise ValueError
  end.

(** [torch.Tensor([...])] from a list of numbers and one-element tensors. *)
Definition torch_Tensor (items : list (addr + T)) : M addr :=
  vs <- mapM (fun it => match it with inl a => item a | inr v => ret v end) items ;;
  new_tensor (mkT [length vs] vs).

Definition IRLinearFunction_forward (ctx : Ctx) (input weight : addr)
    (bias t : option addr) : M (Ctx * addr) :=
  (* normalize weights *)
  weight_mean <- op1 (pure1 torch_mean) weight ;;
  weight_std <- op1 (pure1 torch_std) weight ;;
  centred <- op2 sub weight weight_mean ;;
  weight_norm <- op2 div centred weight_std ;;
  (* compute control variable k *)
  inv_t <- (ta <- operand t ;; op1 (pure1 (rdiv s1)) ta) ;;
  pair <- torch_Tensor [inl inv_t; inr s1] ;;
  k <- op1 torch_max pair ;;
  (* binarize by EDE function *)
  scaled <- (ta <- operand t ;; op2 mul ta weight_norm) ;;
  th <- op1 (pure1 torch_tanh) scaled ;;
  weight_b <- op2 mul k th ;;
  (* save for grad computing *)
  let ctx := save_for_backward ctx
    [Some input; Some weight_b; Some weight_norm; bias; Some weight_std; t; Some k] in
  (* linear layer *)
  wt <- op1 tensor_t weight_b ;;
  output <- op2 matmul input wt ;;
  match bias with
  | Some b => iadd output b
  | None => ret tt
  end ;;;
  ret (ctx, output).

Definition IRLinearFunction_backward (ctx : Ctx) (grad_output : addr)
    : M (option addr * option addr * option addr * option addr) :=
  (* retrieve saved variables *)
  match saved_variables ctx with
  | [Some input; Some weight_b; Some weight_norm; bias; Some weight_std; t; Some k] =>
      (* computing grads *)
      grad_input <-
        (if nth 0 (needs_input_grad ctx) false then
           g <- op2 matmul grad_output weight_b ;; ret (Some g)
         else ret None) ;;
      grad_weight <-
        (if nth 1 (needs_input_grad ctx) false then
           gt_ <- op1 transpose_last2 grad_output ;;
           grad_weight_b <- op2 matmul gt_ input ;;
           kt <- (ta <- operand t ;; op2 mul k ta) ;;
           scaled <- (ta <- operand t ;; op2 mul ta weight_norm) ;;
           th <- op1 (pure1 torch_tanh) scaled ;;
           sq <- op1 (pure1 torch_square) th ;;
           om <- op1 (pure1 (rsub s1)) sq ;;
           grad_binary <- op2 mul kt om ;;
           g <- op2 mul grad_weight_b grad_binary ;;
           ret (Some g)
         else ret None) ;;
      grad_bias <-
        (match bias with
         | Some _ =>
             if nth 2 (needs_input_grad ctx) false then
               g <- op1 (pure1 sum0) grad_output ;; ret (Some g)
             else ret None
         | None => ret None
         end) ;;
      ret (grad_input, grad_weight, grad_bias, None)
  | _ => raise ValueError
  end.

Definition IRLinearFunction_apply (input weight : addr) (bias t : option addr)
    : M (Ctx * addr) :=
  ctx <- new_ctx [Some input; Some weight; bias; t] ;;
  IRLinearFunction_forward ctx input weight bias t.

(** ** IRLinear *)

(** [self.t = None] has no effect on the parameters; the attribute is a
    field of the layer object the constructor allocates. *)
Definition IRLinear_reset_parameters (self : LinearParams) : M unit :=
  sd <- math_sqrt_inv (in_features self) ;;
  normal_ (weight self) s0 (smul s1 sd) ;;;
  match bias self with
  | Some b => zero_ b
  | None => ret tt
  end.

Definition IRLinear_init (in_features out_features : nat) (bias : bool) : M addr :=
  w <- nn_Parameter [out_features; in_features] ;;
  b <- (if bias then (b <- nn_Parameter [out_features] ;; ret (Some b)) else ret None) ;;
  let self := {| in_features := in_features; out_features := out_features;
                 weight := w; bias := b |} in
  IRLinear_reset_parameters self ;;;
  alloc (VModule (IRLinear self None)).

Definition IRLinear_forward (self : LinearParams) (t : option addr) (input : addr)
    : M (Ctx * addr) :=
  match bias self with
  | Some b => IRLinearFunction_apply input (weight self) (Some b) t
  | None => raise Exception
  end.

(** ** binarizer *)

Inductive group := Mlp | Attn.

Definition get_group (g : group) (b : block) : list (string * addr) :=
  match g with
  | Mlp => mlp b
  | Attn => attn b
  end.

Definition set_group (g : group) (b : block) (d : list (string * addr)) : block :=
  match g with
  | Mlp => {| mlp := d; attn := attn b |}
  | Attn => {| mlp := mlp b; attn := d |}
  end.

(** [model.transformer.h[i]] *)
Definition get_block (i : nat) : M block :=
  fun s =>
    match nth_error (transformer_h s) i with
    | Some b => (Ok b, s)
    | None => (Raise IndexError, s)
    end.

(** [model.__dict__["_modules"]["transformer"]["h"][i].<group>[sub_name] = b] *)
Definition group_setitem (i : nat) (g : group) (sub_name : string) (b : addr)
    : M unit :=
  blk <- get_block i ;;
  fun s =>
    (Ok tt,
     set_transformer_h s
       (update i (set_group g blk (dict_set sub_name b (get_group g blk)))
          (transformer_h s))).

(** The attributes of the object at [a] when its exact type is the dense
    linear layer. *)
Definition linear_at (s : state) (a : addr) : option LinearParams :=
  match lookup s a with
  | Some (VModule (Linear p)) => Some p
  | _ => None
  end.

(** [type(sub_layer) == nn.Linear], with the attributes of the layer when it
    holds. *)
Definition exact_Linear (sub_layer : addr) : M (option LinearParams) :=
  fun s => (Ok (linear_at s sub_layer), s).

Definition skipped (qk_only qv_only kv_only : bool) (sub_name : string) : bool :=
  (kv_only && String.eqb sub_name "c_attn_q")
  || (qv_only && String.eqb sub_name "c_attn_k")
  || (qk_only && String.eqb sub_name "c_attn_v").

(** The loop over [named_children()] of one group of block [i].
    [named_children] yields each distinct child object once ([memo] holds
    the objects already yielded).  The local variable [b] is unbound
    ([None]) until its first assignment and survives from one iteration to
    the next.  The children are those of the dictionary when the loop
    starts: an assignment to an existing key neither moves nor adds an
    entry. *)
Fixpoint replace_children (binarize_layer : string) (qk_only qv_only kv_only : bool)
    (i : nat) (g : group) (children : list (string * addr)) (memo : list addr)
    (b : option addr) : M (option addr) :=
  match children with
  | [] => ret b
  | (sub_name, sub_layer) :: rest =>
      if existsb (Nat.eqb sub_layer) memo then
        replace_children binarize_layer qk_only qv_only kv_only i g rest memo b
      else
        ty <- exact_Linear sub_layer ;;
        b' <-
          match ty with
          | Some p =>
              (* Binarization *)
              if kv_only && String.eqb sub_name "c_attn_q" then ret b
              else if qv_only && String.eqb sub_name "c_attn_k" then ret b
              else if qk_only && String.eqb sub_name "c_attn_v" then ret b
              else
                b1 <-
                  (if String.eqb binarize_layer "basic" then
                     x <- BinarizedLinear_init (in_features p) (out_features p) true ;;
                     ret (Some x)
                   else if String.eqb binarize_layer "ir" then
                     x <- IRLinear_init (in_features p) (out_features p) true ;;
                     ret (Some x)
                   else ret b) ;;
                match b1 with
                | Some x => group_setitem i g sub_name x
                | None => raise UnboundLocalError
                end ;;;
                ret b1
          | None => ret b
          end ;;
        replace_children binarize_layer qk_only qv_only kv_only i g rest
          (sub_layer :: memo) b'
  end.

(** The loop over [enumerate(model.transformer.h)], [n] blocks from index
    [i] on. *)
Fixpoint binarize_blocks (binarize_layer : string) (qk_only qv_only kv_only : bool)
    (n i : nat) (b : option addr) : M (option addr) :=
  match n with
  | 0 => ret b
  | S n' =>
      block <- get_block i ;;
      b1 <- replace_children binarize_layer qk_only qv_only kv_only i Mlp
              (mlp block) [] b ;;
      block <- get_block i ;;
      b2 <- replace_children binarize_layer qk_only qv_only kv_only i Attn
              (attn block) [] b1 ;;
      binarize_blocks binarize_layer qk_only qv_only kv_only n' (S i) b2
  end.

Definition binarizer (binarize_layer : string) (qk_only qv_only kv_only : bool)
    : M unit :=
  fun s =>
    (binarize_blocks binarize_layer qk_only qv_only kv_only
       (length (transformer_h s)) 0 None ;;;
     ret tt) s.

(** ** Vocabulary of the statements *)

(** Entry [(i, j)] of a matrix with [cols] columns, and element [j] of a
    vector. *)
Definition entry2 (a : tensor T) (cols i j : nat) : T := nth (i * cols + j) (data a) s0.

Definition entry1 (a : tensor T) (j : nat) : T := nth j (data a) s0.

(** The sum of [f l * g l] for [l] below [k]. *)
Definition dot (k : nat) (f g : nat -> T) : T := ssum (tab k (fun l => smul (f l) (g l))).

(** The spec's mask: [(weight > 1) OR (weight < -1)], elementwise. *)
Definition spec_mask (w : T) : bool := sltb s1 w || sltb w (sneg s1).

Definition saved_mask (w : tensor T) : tensor bool :=
  mkT (shape w) (tab (numel (shape w)) (fun p => spec_mask (nth p (data w) s0))).

(** The Scaled-Tanh formulas in the spec's words: the mean, the unbiased
    sample standard deviation (divisor [n - 1]), the normalized weight, the
    control scalar [k = max(1/t, 1)], the quantized weight
    [k * tanh(t * weight_norm)] and the surrogate derivative
    [k * t * (1 - tanh(t * weight_norm)^2)]. *)
Definition spec_mean (l : list T) : T := sdiv (ssum l) (of_nat (length l)).

Definition spec_std (l : list T) : T :=
  ssqrt (sdiv (ssum (map (fun x => smul (ssub x (spec_mean l)) (ssub x (spec_mean l))) l))
              (of_nat (length l - 1))).

Definition spec_norm (l : list T) (x : T) : T :=
  sdiv (ssub x (spec_mean l)) (spec_std l).

Definition spec_k (t : T) : T := smax (sdiv s1 t) s1.

Definition spec_quant (t : T) (l : list T) (x : T) : T :=
  smul (spec_k t) (stanh (smul t (spec_norm l x))).

Definition spec_surrogate (t : T) (l : list T) (x : T) : T :=
  smul (smul (spec_k t) t)
       (ssub s1 (smul (stanh (smul t (spec_norm l x))) (stanh (smul t (spec_norm l x))))).

(** The gradient of a linear layer with respect to its input,
    [grad_output . weight], by entries. *)
Definition linear_grad_input (g q : tensor T) (n m k : nat) (y : tensor T) : Prop :=
  shape y = [n; k] /\
  forall b i, b < n -> i < k ->
    entry2 y k b i = dot m (fun o => entry2 g m b o) (fun o => entry2 q k o i).

(** Entry [(o, i)] of the plain weight gradient of a linear layer,
    [(grad_output)^t . input]. *)
Definition linear_grad_weight (g x : tensor T) (n m k o i : nat) : T :=
  dot n (fun b => entry2 g m b o) (fun b => entry2 x k b i).

(** The plain weight gradient with the entries under a mask set to 0. *)
Definition masked_grad_weight (g x : tensor T) (mask : tensor bool) (n m k : nat)
    (y : tensor T) : Prop :=
  shape y = [m; k] /\
  forall o i, o < m -> i < k ->
    entry2 y k o i =
    if nth (o * k + i) (data mask) false then s0
    else linear_grad_weight g x n m k o i.

(** What a constructor leaves: a new layer object with the requested
    dimensions, with a bias exactly when asked for, in a heap whose earlier
    objects are untouched, and the same model. *)
Definition constructed (wrap : LinearParams -> module) (inf outf : nat) (b : bool)
    (s : state) (a : addr) (s' : state) : Prop :=
  (forall x v, lookup s x = Some v -> lookup s' x = Some v) /\
  length (heap s) <= a /\ a < length (heap s') /\
  transformer_h s' = transformer_h s /\
  exists p, lookup s' a = Some (VModule (wrap p)) /\
    in_features p = inf /\ out_features p = outf /\
    (if b then exists ba, bias p = Some ba else bias p = None).

(** The plain weight gradient multiplied elementwise by the surrogate
    derivative computed from the saved [k], [t] and [weight_norm]. *)
Definition surrogate_grad_weight (g x : tensor T) (kv tv : T) (nt : tensor T)
    (n m k : nat) (y : tensor T) : Prop :=
  shape y = [m; k] /\
  forall o i, o < m -> i < k ->
    entry2 y k o i =
    smul (linear_grad_weight g x n m k o i)
         (smul (smul kv tv)
               (ssub s1 (smul (stanh (smul tv (entry2 nt k o i)))
                              (stanh (smul tv (entry2 nt k o i)))))).

(** The layer type that [binarize_layer] asks for. *)
Definition requested (binarize_layer : string) : LinearParams -> module :=
  if String.eqb binarize_layer "basic" then BinarizedLinear
  else fun p => IRLinear p None.

(** [a'] is a layer created during the surgery from [s] to [s'], of the
    requested type, with the feature dimensions of [p] and a bias. *)
Definition replaced_by (wrap : LinearParams -> module) (s s' : state)
    (p : LinearParams) (a' : addr) : Prop :=
  length (heap s) <= a' /\
  exists p', lookup s' a' = Some (VModule (wrap p')) /\
    in_features p' = in_features p /\ out_features p' = out_features p /\
    exists ba, bias p' = Some ba.

(** What the surgery does to the child [a] registered under [name]: a dense
    layer that is not skipped is replaced, any other child stays the same
    object. *)
Definition child_ok (wrap : LinearParams -> module) (qk_only qv_only kv_only : bool)
    (s s' : state) (name : string) (a a' : addr) : Prop :=
  match linear_at s a with
  | Some p =>
      if skipped qk_only qv_only kv_only name then a' = a
      else replaced_by wrap s s' p a'
  | None => a' = a
  end.

(** The children [es] of a group before the surgery and [es'] after it;
    [memo] holds the objects that [named_children] has already yielded. *)
Fixpoint children_ok (wrap : LinearParams -> module) (qk_only qv_only kv_only : bool)
    (s s' : state) (memo : list addr) (es es' : list (string * addr)) : Prop :=
  match es, es' with
  | [], [] => True
  | (n, a) :: r, (n', a') :: r' =>
      n' = n /\
      if existsb (Nat.eqb a) memo then
        a' = a /\ children_ok wrap qk_only qv_only kv_only s s' memo r r'
      else
        child_ok wrap qk_only qv_only kv_only s s' n a a' /\
        children_ok wrap qk_only qv_only kv_only s s' (a :: memo) r r'
  | _, _ => False
  end.

Definition block_ok (wrap : LinearParams -> module) (qk_only qv_only kv_only : bool)
    (s s' : state) (b b' : block) : Prop :=
  children_ok wrap qk_only qv_only kv_only s s' [] (mlp b) (mlp b') /\
  children_ok wrap qk_only qv_only kv_only s s' [] (attn b) (attn b').

(** The same, child by child, for a group that registers each object
    once: number, order and names are kept, and the child at each position
    is treated as [child_ok] says. *)
Definition surgery_at (wrap : LinearParams -> module) (qk_only qv_only kv_only : bool)
    (s s' : state) (es es' : list (string * addr)) : Prop :=
  length es' = length es /\
  forall j n a, nth_error es j = Some (n, a) ->
    exists a', nth_error es' j = Some (n, a') /\
      child_ok wrap qk_only qv_only kv_only s s' n a a'.

(** No child of the group is a dense layer that the filter lets through. *)
Definition nothing_to_replace (qk_only qv_only kv_only : bool) (s : state)
    (es : list (string * addr)) : Prop :=
  forall n a, In (n, a) es ->
    linear_at s a = None \/ skipped qk_only qv_only kv_only n = true.

(** The model is well formed in [s]: every group is a dictionary (its names
    are distinct) whose children are distinct objects of the heap.
    [named_children] yields an object registered under two names once
    only, under the first; a group of a module tree registers each child
    once. *)
Definition group_wf (s : state) (es : list (string * addr)) : Prop :=
  NoDup (map fst es) /\
  NoDup (map snd es) /\
  forall n a, In (n, a) es -> a < length (heap s).

Definition model_wf (s : state) : Prop :=
  forall b, In b (transformer_h s) -> group_wf s (mlp b) /\ group_wf s (attn b).

(** No dense layer of the model has zero input features. *)
Definition widths_positive (s : state) : Prop :=
  forall b n a p, In b (transformer_h s) -> In (n, a) (mlp b ++ attn b) ->
    linear_at s a = Some p -> in_features p <> 0.

(** [wp m Q s]: run from [s], [m] returns a value and [Q] holds of it and of
    the final state. *)
Definition wp {A} (m : M A) (Q : A -> state -> Prop) (s : state) : Prop :=
  match m s with
  | (Ok a, s') => Q a s'
  | (Raise _, _) => False
  end.

(** Every object of [s] is the same object in [s']. *)
Definition extends (s s' : state) : Prop :=
  forall a v, lookup s a = Some v -> lookup s' a = Some v.

(** A gradient slot: a tensor satisfying [P] when the gradient is needed,
    the no-gradient signal [None] otherwise. *)
Definition is_tensor (s : state) (r : option addr) (P : tensor T -> Prop) : Prop :=
  exists a y, r = Some a /\ lookup s a = Some (VTensor y false) /\ P y.

Definition grad_slot (f : bool) (s : state) (r : option addr) (P : tensor T -> Prop)
    : Prop :=
  if f then is_tensor s r P else r = None.

(** What a forward call returns: the quantized weight it saved and its
    output are objects that did not exist before the call. *)
Definition fresh_results (n : nat) (r : Ctx * addr) : Prop :=
  (exists wq, nth 1 (saved_variables (fst r)) None = Some wq /\ n <= wq) /\
  n <= snd r.

(** [frames n m Q]: whatever [m] does, the objects below address [n] are
    left as they are, and a returned value satisfies [Q]. *)
Definition frames {A} (n : nat) (m : M A) (Q : A -> Prop) : Prop :=
  forall s, n <= length (heap s) ->
    n <= length (heap (snd (m s))) /\
    (forall a, a < n -> lookup (snd (m s)) a = lookup s a) /\
    match fst (m s) with
    | Ok r => Q r
    | Raise _ => True
    end.

(** A gradient slot computed under the flag [f] by a call that started with
    [n] objects in the heap: the no-gradient signal exactly when [f] is off,
    and otherwise an object created by the call. *)
Definition slot_of (f : bool) (n : nat) (r : option addr) : Prop :=
  (r = None <-> f = false) /\ forall a, r = Some a -> n <= a.

(** The sum over the batch of column [o] of an [n] by [m] matrix. *)
Definition batch_sum (g : tensor T) (n m o : nat) : T :=
  ssum (tab n (fun b => entry2 g m b o)).

(** What [normal_(mean, std)] leaves in a tensor of shape [sh] when the
    generator stands at [g0], and what [zero_()] leaves. *)
Definition drawn (sh : list nat) (mean std : T) (g0 : nat) : tensor T :=
  mkT sh (tab (numel sh) (fun i => sadd mean (smul std (randn (g0 + i))))).

Definition zeros (sh : list nat) : tensor T := mkT sh (repeat s0 (numel sh)).

(** The standard deviation of the initial weights,
    [1 * math.sqrt(1.0 / in_features)]. *)
Definition init_std (inf : nat) : T := smul s1 (ssqrt (sdiv s1 (of_nat inf))).

(** The objects that a constructor call adds to a heap of [n] objects when
    the generator stands at [g0]: the weight, the bias when asked for, and
    the layer that holds them. *)
Definition new_layer (wrap : LinearParams -> module) (inf outf : nat) (b : bool)
    (n g0 : nat) : list value :=
  [VTensor (drawn [outf; inf] s0 (init_std inf) g0) true]
  ++ (if b then [VTensor (zeros [outf]) true] else [])
  ++ [VModule (wrap {| in_features := inf; out_features := outf; weight := n;
                       bias := if b then Some (S n) else None |})].

(** What a constructor call leaves, in full: nothing that existed has
    changed; the layer, its weight and its bias are objects that did not
    exist; the weight has the shape [[outf; inf]], is marked as a parameter
    and holds draws of mean 0 and standard deviation [init_std inf]; the
    bias, when asked for, is a vector of [outf] zeros marked as a parameter;
    the generator has advanced by the number of weights; the model is the
    same. *)
Definition initialized (wrap : LinearParams -> module) (inf outf : nat) (b : bool)
    (s : state) (a : addr) (s' : state) : Prop :=
  extends s s' /\
  gen s' = gen s + outf * inf /\
  transformer_h s' = transformer_h s /\
  exists p,
    lookup s a = None /\ lookup s' a = Some (VModule (wrap p)) /\
    in_features p = inf /\ out_features p = outf /\
    lookup s (weight p) = None /\
    lookup s' (weight p)
      = Some (VTensor (drawn [outf; inf] s0 (init_std inf) (gen s)) true) /\
    if b then
      exists ba, bias p = Some ba /\ lookup s ba = None /\
        lookup s' ba = Some (VTensor (zeros [outf]) true)
    else bias p = None.

(** Some child of the group is a dense layer that the filter lets through:
    the surgery has something to replace. *)
Definition candidate (qk_only qv_only kv_only : bool) (s : state)
    (es : list (string * addr)) : Prop :=
  exists n a p,
    In (n, a) es /\ linear_at s a = Some p /\
    skipped qk_only qv_only kv_only n = false.

(** Every layer object of [st] that did not exist in [s] is of the type
    [wrap] and holds parameters of its own, which did not exist in [s]
    either: a weight as [reset_parameters] draws it and a bias of zeros.
    The objects of [s] are the same in [st]. *)
Definition own_parameters (wrap : LinearParams -> module) (s st : state) : Prop :=
  extends s st /\
  forall a m, lookup s a = None -> lookup st a = Some (VModule m) ->
    exists p g0 ba,
      m = wrap p /\
      lookup s (weight p) = None /\
      lookup st (weight p)
        = Some (VTensor (drawn [out_features p; in_features p] s0
                           (init_std (in_features p)) g0) true) /\
      bias p = Some ba /\ lookup s ba = None /\
      lookup st ba = Some (VTensor (zeros [out_features p]) true).

(** [keeps I m]: when [m] returns from a state where [I] holds, [I] holds
    in the state it leaves. *)
Definition keeps {A} (I : state -> Prop) (m : M A) : Prop :=
  forall s r s', I s -> m s = (Ok r, s') -> I s'.

(** Some child of the group is a dense layer that the filter lets through
    and that has no input feature; and its contrary, every such child has
    input features. *)
Definition zero_width (qk_only qv_only kv_only : bool) (s : state)
    (es : list (string * addr)) : Prop :=
  exists n a p,
    In (n, a) es /\ linear_at s a = Some p /\
    skipped qk_only qv_only kv_only n = false /\ in_features p = 0.

Definition replaceable (qk_only qv_only kv_only : bool) (s : state)
    (es : list (string * addr)) : Prop :=
  forall n a p,
    In (n, a) es -> linear_at s a = Some p ->
    skipped qk_only qv_only kv_only n = false -> in_features p <> 0.

(** Two blocks with the same names, in the same order, in both groups. *)
Definition same_names (b b' : block) : Prop :=
  map fst (mlp b') = map fst (mlp b) /\ map fst (attn b') = map fst (attn b).

(** A name that the flags of the surgery do not look for, and a model whose
    children all bear such names. *)
Definition plain_name (n : string) : Prop :=
  n <> "c_attn_q"%string /\ n <> "c_attn_k"%string /\ n <> "c_attn_v"%string.

Definition plain_names (s : state) : Prop :=
  forall blk n a,
    In blk (transformer_h s) -> In (n, a) (mlp blk ++ attn blk) -> plain_name n.

(** ** Stacks of matrices *)

(** Entry [(i, j)] of matrix [t] of a stack of [rows] by [cols] matrices: a
    tensor of shape [bs ++ [rows; cols]] is read as the stack of its
    [numel bs] matrices, in the row-major order of its batch dimensions.
    For a matrix, [bs = []], the only [t] is 0 and this is [entry2]. *)
Definition entry3 (a : tensor T) (rows cols t i j : nat) : T :=
  nth ((t * rows + i) * cols + j) (data a) s0.

(** Entry [(o, i)] of the product [(grad_output)^t . input] of matrix [t]
    of the batch. *)
Definition batch_grad_weight (g x : tensor T) (n m k t o i : nat) : T :=
  dot n (fun b => entry3 g n m t b o) (fun b => entry3 x n k t b i).

(** [grad_output . weight] for a stack of gradients: every matrix of the
    batch is multiplied by the weight. *)
Definition batch_grad_input (g q : tensor T) (bs : list nat) (n m k : nat)
    (y : tensor T) : Prop :=
  shape y = bs ++ [n; k] /\
  forall t b i, t < numel bs -> b < n -> i < k ->
    entry3 y n k t b i = dot m (fun o => entry3 g n m t b o) (fun o => entry2 q k o i).

(** One product [(grad_output)^t . input] per matrix of the batch, each with
    the entries under the mask set to 0. *)
Definition batch_masked_grad_weight (g x : tensor T) (mask : tensor bool)
    (bs : list nat) (n m k : nat) (y : tensor T) : Prop :=
  shape y = bs ++ [m; k] /\
  forall t o i, t < numel bs -> o < m -> i < k ->
    entry3 y m k t o i =
    if nth (o * k + i) (data mask) false then s0
    else batch_grad_weight g x n m k t o i.

(** One product per matrix of the batch, each multiplied elementwise by the
    surrogate derivative computed from the saved [k], [t] and
    [weight_norm]. *)
Definition batch_surrogate_grad_weight (g x : tensor T) (kv tv : T) (nt : tensor T)
    (bs : list nat) (n m k : nat) (y : tensor T) : Prop :=
  shape y = bs ++ [m; k] /\
  forall t o i, t < numel bs -> o < m -> i < k ->
    entry3 y m k t o i =
    smul (batch_grad_weight g x n m k t o i)
         (smul (smul kv tv)
               (ssub s1 (smul (stanh (smul tv (entry2 nt k o i)))
                              (stanh (smul tv (entry2 nt k o i)))))).

(** [wpx m Q E s]: run from [s], [m] either returns a value of which, with
    the final state, [Q] holds, or raises an exception of which, with the
    final state, [E] holds. *)
Definition wpx {A} (m : M A) (Q : A -> state -> Prop) (E : exn -> state -> Prop)
    (s : state) : Prop :=
  match m s with
  | (Ok a, s') => Q a s'
  | (Raise e, s') => E e s'
  end.

End Binarize.

Notation "x <- m ;; k" := (bind m (fun x => k))
  (at level 61, m at next level, right associativity).
Notation "m ;;; k" := (bind m (fun _ => k))
  (at level 61, right associativity).

(** ** Concrete states *)

Definition ex_ctx : Ctx :=
  {| saved_variables := []; needs_input_grad := [true; true; true; false] |}.

(** Over the rationals: a batch of two rows of three features, a layer of
    two output features, and a gradient of the output. *)
Definition ex_state : @state Q :=
  {| heap :=
       [ VTensor (mkT [2; 3] [1; 2; 3; 4; 5; 6]%Q) false;
         VTensor (mkT [2; 3] [1 # 2; -(2); 0; 3; -(1 # 3); 0]%Q) true;
         VTensor (mkT [2] [10; 20]%Q) true;
         VTensor (mkT [2; 2] [1; 2; 3; 4]%Q) false ];
     gen := 0;
     transformer_h := [] |}.

(** The same with a single output feature. *)
Definition ex_state_one : @state Q :=
  {| heap :=
       [ VTensor (mkT [2; 3] [1; 2; 3; 4; 5; 6]%Q) false;
         VTensor (mkT [1; 3] [1 # 2; -(2); 0]%Q) true;
         VTensor (mkT [1] [10]%Q) true;
         VTensor (mkT [2; 1] [1; 2]%Q) false ];
     gen := 0;
     transformer_h := [] |}.

(** Over the reals: one row of two features, one output feature, the
    temperature [-1] at address 3 and a gradient of the output. *)
Definition ex_state_R : @state R :=
  {| heap :=
       [ VTensor (mkT [1; 2] [1; 2]%R) false;
         VTensor (mkT [1; 2] [1; 3]%R) true;
         VTensor (mkT [1] [0]%R) true;
         VTensor (mkT [] [(-1)]%R) false;
         VTensor (mkT [1; 1] [1]%R) false ];
     gen := 0;
     transformer_h := [] |}.

Definition ex_linear (inf outf : nat) : @value R :=
  VModule (Linear {| in_features := inf; out_features := outf;
                     weight := 0; bias := Some 1 |}).

(** A model of two blocks.  Addresses 0 and 1 hold a weight and a bias,
    2 to 9 dense layers, 10 a module of another type that wraps the dense
    layer 2. *)
Definition ex_model : @state R :=
  {| heap :=
       [ VTensor (mkT [3; 2] [1; 2; 3; 4; 5; 6]%R) true;
         VTensor (mkT [3] [0; 0; 0]%R) true;
         ex_linear 2 3; ex_linear 2 3; ex_linear 2 3; ex_linear 2 3;
         ex_linear 2 3; ex_linear 2 3; ex_linear 2 3; ex_linear 2 3;
         VModule (OtherModule [2]) ];
     gen := 0;
     transformer_h :=
       [ {| mlp := [("c_fc", 2); ("act", 10)]%string;
            attn := [("c_attn_q", 3); ("c_attn_k", 4); ("c_attn_v", 5)]%string |};
         {| mlp := [("c_fc", 6); ("act", 10)]%string;
            attn := [("c_attn_q", 7); ("c_attn_k", 8); ("c_attn_v", 9)]%string |} ] |}.

(** A model whose only dense layer has no input feature. *)
Definition ex_zero_width : @state R :=
  {| heap :=
       [ VTensor (mkT [4; 0] []) true;
         VTensor (mkT [4] [0; 0; 0; 0]%R) true;
         ex_linear 0 4 ];
     gen := 0;
     transformer_h := [ {| mlp := [("c_fc", 2)]%string; attn := [] |} ] |}.

(** A group that registers one dense layer under two names. *)
Definition ex_shared_child : @state R :=
  {| heap :=
       [ VTensor (mkT [3; 2] [1; 2; 3; 4; 5; 6]%R) true;
         VTensor (mkT [3] [0; 0; 0]%R) true;
         ex_linear 2 3 ];
     gen := 0;
     transformer_h := [ {| mlp := [("a", 2); ("b", 2)]%string; attn := [] |} ] |}.

(** A model without dense layers. *)
Definition ex_no_dense : @state R :=
  {| heap := [ VModule (OtherModule []) ];
     gen := 0;
     transformer_h := [ {| mlp := [("act", 0)]%string; attn := [] |} ] |}.

(** Over the reals: what a forward call of the Sign Binarizer leaves for the
    backward call, a quantized weight at address 1 and a mask at address 5,
    with a gradient of the output at address 4. *)
Definition ex_state_saved : @state R :=
  {| heap :=
       [ VTensor (mkT [1; 2] [1; 2]%R) false;
         VTensor (mkT [1; 2] [1; (-1)]%R) false;
         VTensor (mkT [1] [0]%R) true;
         VTensor (mkT [] [2]%R) false;
         VTensor (mkT [1; 1] [1]%R) false;
         VMask (mkT [1; 2] [false; true]) ];
     gen := 0;
     transformer_h := [] |}.

Definition ex_saved : Ctx :=
  {| saved_variables := [Some 0; Some 1; Some 5; Some 2];
     needs_input_grad := [true; true; true] |}.

Definition ex_saved_IR : Ctx :=
  {| saved_variables := [Some 0; Some 1; Some 1; Some 2; Some 3; Some 3; Some 3];
     needs_input_grad := [false; false; false; false] |}.

(** Over the reals: an input without a batch dimension, a vector of two
    features, and a gradient of the shape of its output. *)
Definition ex_state_vector : @state R :=
  {| heap :=
       [ VTensor (mkT [2] [1; 2]%R) false;
         VTensor (mkT [1; 2] [1; 3]%R) true;
         VTensor (mkT [1] [0]%R) true;
         VTensor (mkT [] [2]%R) false;
         VTensor (mkT [1] [1]%R) false ];
     gen := 0;
     transformer_h := [] |}.

(** Over the rationals: [ex_state] with, at address 4, a second weight whose
    entries have the signs of those of the weight at address 1. *)
Definition ex_state_signs : @state Q :=
  {| heap :=
       [ VTensor (mkT [2; 3] [1; 2; 3; 4; 5; 6]%Q) false;
         VTensor (mkT [2; 3] [1 # 2; -(2); 0; 3; -(1 # 3); 0]%Q) true;
         VTensor (mkT [2] [10; 20]%Q) true;
         VTensor (mkT [2; 2] [1; 2; 3; 4]%Q) false;
         VTensor (mkT [2; 3] [3; -(1); 0; 1 # 5; -(7); 0]%Q) true ];
     gen := 0;
     transformer_h := [] |}.

(** A model with the names of the stock transformer block: the dense
    layers at addresses 2 to 4. *)
Definition ex_stock : @state R :=
  {| heap :=
       [ VTensor (mkT [3; 2] [1; 2; 3; 4; 5; 6]%R) true;
         VTensor (mkT [3] [0; 0; 0]%R) true;
         ex_linear 2 3; ex_linear 2 3; ex_linear 2 3 ];
     gen := 0;
     transformer_h :=
       [ {| mlp := [("c_fc", 2); ("c_proj", 3)]%string;
            attn := [("c_attn", 4)]%string |} ] |}.

(** Over the rationals: a stack of two matrices of two rows of three
    features for the layer of [ex_state], and a gradient of the shape of its
    output. *)
Definition ex_state_stack : @state Q :=
  {| heap :=
       [ VTensor (mkT [2; 2; 3] [1; 2; 3; 4; 5; 6; 7; 8; 9; 10; 11; 12]%Q) false;
         VTensor (mkT [2; 3] [1 # 2; -(2); 0; 3; -(1 # 3); 0]%Q) true;
         VTensor (mkT [2] [10; 20]%Q) true;
         VTensor (mkT [2; 2; 2] [1; 2; 3; 4; 5; 6; 7; 8]%Q) false ];
     gen := 0;
     transformer_h := [] |}.

(** Over the rationals: an input without a batch dimension, a vector of
    three features for the same layer, and a gradient of the shape of its
    output. *)
Definition ex_state_unbatched : @state Q :=
  {| heap :=
       [ VTensor (mkT [3] [1; 2; 3]%Q) false;
         VTensor (mkT [2; 3] [1 # 2; -(2); 0; 3; -(1 # 3); 0]%Q) true;
         VTensor (mkT [2] [10; 20]%Q) true;
         VTensor (mkT [2] [1; 2]%Q) false ];
     gen := 0;
     transformer_h := [] |}.

(** Over the reals: a stack of two matrices of one row of two features, the
    layer of [ex_state_R] with the temperature 2, and a gradient of the
    shape of the output. *)
Definition ex_state_stack_R : @state R :=
  {| heap :=
       [ VTensor (mkT [2; 1; 2] [1; 2; 3; 4]%R) false;
         VTensor (mkT [1; 2] [1; 3]%R) true;
         VTensor (mkT [1] [0]%R) true;
         VTensor (mkT [] [2]%R) false;
         VTensor (mkT [2; 1; 1] [1; 1]%R) false ];
     gen := 0;
     transformer_h := [] |}.

(** * Proofs *)

(** ** Index arithmetic *)

Lemma length_tab A n (f : nat -> A) : length (tab n f) = n.
Proof. unfold tab. now rewrite length_map, length_seq. Qed.

Lemma nth_tab A n (f : nat -> A) d p : p < n -> nth p (tab n f) d = f p.
Proof.
  intros Hp. unfold tab.
  rewrite (nth_indep _ d (f 0)) by now rewrite length_map, length_seq.
  rewrite map_nth, seq_nth by assumption. reflexivity.
Qed.

Lemma tab_ext A n (f g : nat -> A) :
  (forall p, p < n -> f p = g p) -> tab n f = tab n g.
Proof.
  intros E. unfold tab. apply map_ext_in. intros p Hp.
  apply in_seq in Hp. apply E. lia.
Qed.

Lemma div_row i j c : j < c -> (i * c + j) / c = i.
Proof.
  intros Hj. rewrite Nat.div_add_l by lia. rewrite Nat.div_small by assumption. lia.
Qed.

Lemma mod_row i j c : j < c -> (i * c + j) mod c = j.
Proof.
  intros Hj. rewrite Nat.add_comm, Nat.Div0.mod_add. now apply Nat.mod_small.
Qed.

Lemma index_lt i j r c : i < r -> j < c -> i * c + j < r * c.
Proof. intros Hi Hj. nia. Qed.

Lemma ravel_unravel s p : ravel s (unravel s p) = p mod numel s.
Proof.
  revert p. induction s as [|d r IH]; intros p; simpl.
  - reflexivity.
  - rewrite IH, Nat.Div0.mod_mod.
    rewrite (Nat.mul_comm d (numel r)), Nat.Div0.mod_mul_r. lia.
Qed.

Lemma unravel_app bs s p :
  skipn (length bs) (unravel (bs ++ s) p) = unravel s p.
Proof. induction bs as [|d bs IH]; simpl; [reflexivity | exact IH]. Qed.

(** A tensor of shape [s] broadcast into [bs ++ s] is read at [p mod numel s]. *)
Lemma bindex_suffix bs s p : bindex (bs ++ s) s p = p mod numel s.
Proof.
  unfold bindex. rewrite length_app.
  replace (length bs + length s - length s) with (length bs) by lia.
  now rewrite unravel_app, ravel_unravel.
Qed.

Lemma bindex_same s p : p < numel s -> bindex s s p = p.
Proof.
  intros Hp. change (bindex ([] ++ s) s p = p).
  rewrite bindex_suffix. now apply Nat.mod_small.
Qed.

Lemma bindex_scalar s p : bindex s [] p = 0.
Proof. unfold bindex. now destruct (skipn _ _). Qed.

Lemma bshape_rev_prefix s bs : bshape_rev (s ++ bs) s = Some (s ++ bs).
Proof.
  induction s as [|d s IH]; simpl.
  - now destruct bs.
  - now rewrite IH, Nat.eqb_refl.
Qed.

Lemma broadcast_shapes_suffix bs s :
  broadcast_shapes (bs ++ s) s = Some (bs ++ s).
Proof.
  unfold broadcast_shapes. rewrite rev_app_distr, bshape_rev_prefix. simpl.
  now rewrite <- rev_app_distr, rev_involutive.
Qed.

Lemma broadcast_shapes_same s : broadcast_shapes s s = Some s.
Proof. exact (broadcast_shapes_suffix [] s). Qed.

Lemma broadcast_shapes_scalar_r s : broadcast_shapes s [] = Some s.
Proof.
  unfold broadcast_shapes.
  replace (bshape_rev (rev s) (rev [])) with (Some (rev s))
    by (simpl; now destruct (rev s)).
  simpl. now rewrite rev_involutive.
Qed.

Lemma broadcast_shapes_scalar_l s : broadcast_shapes [] s = Some s.
Proof. unfold broadcast_shapes. simpl. now rewrite rev_involutive. Qed.

Section Facts.

Context {T : Type} {SC : Scalar T} {RT : @Runtime T SC}.

Local Abbreviation state := (@state T).
Local Abbreviation M := (@M T).

(** ** Tensor operations *)

Lemma nth_map_in A B (f : A -> B) l p d d' :
  p < length l -> nth p (map f l) d' = f (nth p l d).
Proof.
  intros Hp. rewrite (nth_indep _ d' (f d)) by now rewrite length_map.
  apply map_nth.
Qed.

Lemma broadcast2_same A B C (f : A -> B -> C) da db (a : tensor A) (b : tensor B) :
  shape b = shape a ->
  broadcast2 f da db a b =
  Ok (mkT (shape a) (tab (numel (shape a))
        (fun p => f (nth p (data a) da) (nth p (data b) db)))).
Proof.
  intros E. unfold broadcast2. rewrite E, broadcast_shapes_same.
  do 2 f_equal. apply tab_ext. intros p Hp. now rewrite bindex_same.
Qed.

Lemma broadcast2_scalar_l A B C (f : A -> B -> C) da db (a : tensor A) (b : tensor B) :
  shape a = [] ->
  broadcast2 f da db a b =
  Ok (mkT (shape b) (tab (numel (shape b))
        (fun p => f (nth 0 (data a) da) (nth p (data b) db)))).
Proof.
  intros E. unfold broadcast2. rewrite E, broadcast_shapes_scalar_l.
  do 2 f_equal. apply tab_ext. intros p Hp.
  now rewrite bindex_scalar, bindex_same.
Qed.

Lemma broadcast2_scalar_r A B C (f : A -> B -> C) da db (a : tensor A) (b : tensor B) :
  shape b = [] ->
  broadcast2 f da db a b =
  Ok (mkT (shape a) (tab (numel (shape a))
        (fun p => f (nth p (data a) da) (nth 0 (data b) db)))).
Proof.
  intros E. unfold broadcast2. rewrite E, broadcast_shapes_scalar_r.
  do 2 f_equal. apply tab_ext. intros p Hp.
  now rewrite bindex_scalar, bindex_same.
Qed.

(** In place, an operand whose shape is a suffix of the target's is read
    cyclically. *)
Lemma broadcast2__suffix A B (f : A -> B -> A) da db (a : tensor A) (b : tensor B) bs :
  shape a = bs ++ shape b ->
  broadcast2_ f da db a b =
  Ok (mkT (shape a) (tab (numel (shape a))
        (fun p => f (nth p (data a) da) (nth (p mod numel (shape b)) (data b) db)))).
Proof.
  intros E. unfold broadcast2_. rewrite E, broadcast_shapes_suffix.
  destruct (list_eq_dec Nat.eq_dec (bs ++ shape b) (bs ++ shape b)) as [_|N];
    [|now elim N].
  do 2 f_equal. apply tab_ext. intros p Hp. now rewrite bindex_suffix.
Qed.

Lemma div_lt_rows x n p : x < n * p -> x / p < n.
Proof.
  intros Hx. apply Nat.Div0.div_lt_upper_bound. now rewrite Nat.mul_comm.
Qed.

(** The product of two matrices. *)
Lemma matmul_2d (a b : tensor T) n k p :
  shape a = [n; k] -> shape b = [k; p] ->
  matmul a b =
  Ok (mkT [n; p] (tab (n * p) (fun x =>
        ssum (tab k (fun l =>
          smul (nth (x / p * k + l) (data a) s0)
               (nth (l * p + x mod p) (data b) s0)))))).
Proof.
  intros Ea Eb. unfold matmul. rewrite Ea, Eb. cbn [length Nat.eqb orb split_last2].
  rewrite Nat.eqb_refl. cbn [broadcast_shapes rev bshape_rev option_map app numel fold_right].
  rewrite Nat.mul_1_l. do 2 f_equal. apply tab_ext. intros x Hx.
  f_equal. apply tab_ext. intros l Hl.
  unfold bindex. cbn [ravel Nat.mul Nat.add].
  rewrite (Nat.mod_small (x / p) n) by now apply div_lt_rows.
  reflexivity.
Qed.

Lemma tensor_t_2d (a : tensor T) r c :
  shape a = [r; c] ->
  tensor_t a =
  Ok (mkT [c; r] (tab (c * r) (fun p => nth (p mod r * c + p / r) (data a) s0))).
Proof. intros E. unfold tensor_t. now rewrite E. Qed.

Lemma transpose_last2_2d (a : tensor T) r c :
  shape a = [r; c] ->
  transpose_last2 a =
  Ok (mkT [c; r] (tab (c * r) (fun p => nth (p mod r * c + p / r) (data a) s0))).
Proof.
  intros E. unfold transpose_last2. rewrite E.
  cbn [split_last2 app numel fold_right]. rewrite Nat.mul_1_l.
  do 2 f_equal. apply tab_ext. intros p Hp.
  rewrite (Nat.div_small p (c * r)) by assumption. cbn [Nat.mul Nat.add].
  rewrite (Nat.mod_small (p / r) c); [reflexivity|].
  now apply div_lt_rows.
Qed.

(** Entry [(j, i)] of the transpose of an [r] by [c] matrix. *)
Lemma nth_transposed (d : list T) r c i j :
  i < r -> j < c ->
  nth (j * r + i) (tab (c * r) (fun p => nth (p mod r * c + p / r) d s0)) s0
  = nth (i * c + j) d s0.
Proof.
  intros Hi Hj. rewrite nth_tab by now apply index_lt.
  now rewrite mod_row, div_row.
Qed.

(** ** The heap *)

Lemma lookup_lt (s : state) a v : lookup s a = Some v -> a < length (heap s).
Proof. intros E. apply nth_error_Some. unfold lookup in E. congruence. Qed.

Lemma length_push (s : state) v : length (heap (push s v)) = S (length (heap s)).
Proof. unfold push. simpl. rewrite length_app. simpl. lia. Qed.

Lemma lookup_push_old (s : state) w a v :
  lookup s a = Some v -> lookup (push s w) a = Some v.
Proof.
  intros E. unfold lookup, push. simpl.
  rewrite nth_error_app1 by now apply lookup_lt in E. exact E.
Qed.

Lemma lookup_push_new (s : state) w : lookup (push s w) (length (heap s)) = Some w.
Proof.
  unfold lookup, push. simpl. rewrite nth_error_app2 by lia.
  now rewrite Nat.sub_diag.
Qed.

Lemma lookup_push_below (s : state) w a :
  a < length (heap s) -> lookup (push s w) a = lookup s a.
Proof. intros L. unfold lookup, push. simpl. now rewrite nth_error_app1. Qed.

Lemma length_update A n (x : A) l : length (update n x l) = length l.
Proof.
  revert n. induction l as [|y l IH]; intros [|n]; simpl; try reflexivity.
  now rewrite IH.
Qed.

Lemma nth_error_update_same A n (x : A) l :
  n < length l -> nth_error (update n x l) n = Some x.
Proof.
  revert n. induction l as [|y l IH]; intros [|n] L; simpl in *; try lia.
  - reflexivity.
  - apply IH. lia.
Qed.

Lemma nth_error_update_other A n m (x : A) l :
  n <> m -> nth_error (update n x l) m = nth_error l m.
Proof.
  revert n m. induction l as [|y l IH]; intros [|n] [|m] N; simpl; try reflexivity.
  - now elim N.
  - apply IH. lia.
Qed.

Lemma length_poke (s : state) a v : length (heap (poke s a v)) = length (heap s).
Proof. unfold poke. simpl. apply length_update. Qed.

Lemma lookup_poke_same (s : state) a v :
  a < length (heap s) -> lookup (poke s a v) a = Some v.
Proof. intros L. unfold lookup, poke. simpl. now apply nth_error_update_same. Qed.

Lemma lookup_poke_other (s : state) a b v :
  a <> b -> lookup (poke s b v) a = lookup s a.
Proof.
  intros N. unfold lookup, poke. simpl. apply nth_error_update_other. congruence.
Qed.

Lemma lookup_set_gen (s : state) g a : lookup (set_gen s g) a = lookup s a.
Proof. reflexivity. Qed.

Lemma heap_set_gen (s : state) g : heap (set_gen s g) = heap s.
Proof. reflexivity. Qed.

Ltac heap_lia :=
  repeat match goal with
         | H : lookup _ _ = Some _ |- _ => apply lookup_lt in H
         end;
  repeat first [ rewrite length_push in * | rewrite length_poke in *
               | rewrite heap_set_gen in * ];
  lia.

Ltac solve_lookup :=
  lazymatch goal with
  | |- lookup (push _ _) _ = _ =>
      first [ apply lookup_push_new | apply lookup_push_old; solve_lookup ]
  | |- lookup (poke _ _ _) _ = _ =>
      first [ apply lookup_poke_same; heap_lia
            | rewrite lookup_poke_other by heap_lia; solve_lookup ]
  | |- lookup (set_gen _ _) _ = _ => rewrite lookup_set_gen; solve_lookup
  | |- _ => eassumption
  end.

(** ** Rules of the weakest precondition *)

Lemma wp_elim A (m : M A) Q s :
  wp m Q s -> exists a s', m s = (Ok a, s') /\ Q a s'.
Proof.
  unfold wp. destruct (m s) as [[a|e] s']; [|tauto]. intros H. now exists a, s'.
Qed.

Lemma wp_ret A (a : A) (Q : A -> state -> Prop) s : Q a s -> wp (ret a) Q s.
Proof. exact (fun H => H). Qed.

Lemma wp_bind A B (m : M A) (k : A -> M B) Q s :
  wp m (fun a s' => wp (k a) Q s') s -> wp (bind m k) Q s.
Proof. unfold wp, bind. now destruct (m s) as [[a|e] s']. Qed.

Lemma wp_lift A (r : result A) a (Q : A -> state -> Prop) s :
  r = Ok a -> Q a s -> wp (lift r) Q s.
Proof. intros -> H. exact H. Qed.

Lemma wp_load_tensor a x g (Q : tensor T -> state -> Prop) s :
  lookup s a = Some (VTensor x g) -> Q x s -> wp (load_tensor a) Q s.
Proof. intros E H. unfold wp, load_tensor, bind, load. now rewrite E. Qed.

Lemma wp_load_mask a x (Q : tensor bool -> state -> Prop) s :
  lookup s a = Some (VMask x) -> Q x s -> wp (load_mask a) Q s.
Proof. intros E H. unfold wp, load_mask, bind, load. now rewrite E. Qed.

Lemma wp_store_tensor a x y g (Q : unit -> state -> Prop) s :
  lookup s a = Some (VTensor x g) -> Q tt (poke s a (VTensor y g)) ->
  wp (store_tensor a y) Q s.
Proof. intros E H. unfold wp, store_tensor, bind, load. now rewrite E. Qed.

Lemma wp_op1 f a x g r (Q : addr -> state -> Prop) s :
  lookup s a = Some (VTensor x g) -> f x = Ok r ->
  Q (length (heap s)) (push s (VTensor r false)) ->
  wp (op1 f a) Q s.
Proof.
  intros E F H. unfold op1. apply wp_bind. eapply wp_load_tensor; [exact E|].
  apply wp_bind. eapply wp_lift; [exact F|]. exact H.
Qed.

Lemma wp_op2 f a b x y g g' r (Q : addr -> state -> Prop) s :
  lookup s a = Some (VTensor x g) -> lookup s b = Some (VTensor y g') ->
  f x y = Ok r ->
  Q (length (heap s)) (push s (VTensor r false)) ->
  wp (op2 f a b) Q s.
Proof.
  intros Ea Eb F H. unfold op2. apply wp_bind. eapply wp_load_tensor; [exact Ea|].
  apply wp_bind. eapply wp_load_tensor; [exact Eb|].
  apply wp_bind. eapply wp_lift; [exact F|]. exact H.
Qed.

Lemma wp_cmp f a x g (Q : addr -> state -> Prop) s :
  lookup s a = Some (VTensor x g) ->
  Q (length (heap s)) (push s (VMask (f x))) ->
  wp (cmp f a) Q s.
Proof.
  intros E H. unfold cmp. apply wp_bind. eapply wp_load_tensor; [exact E|]. exact H.
Qed.

Lemma wp_or a b x y r (Q : addr -> state -> Prop) s :
  lookup s a = Some (VMask x) -> lookup s b = Some (VMask y) ->
  mask_or x y = Ok r ->
  Q (length (heap s)) (push s (VMask r)) ->
  wp (or_ a b) Q s.
Proof.
  intros Ea Eb F H. unfold or_. apply wp_bind. eapply wp_load_mask; [exact Ea|].
  apply wp_bind. eapply wp_load_mask; [exact Eb|].
  apply wp_bind. eapply wp_lift; [exact F|]. exact H.
Qed.

Lemma wp_iadd a b x y g g' r (Q : unit -> state -> Prop) s :
  lookup s a = Some (VTensor x g) -> lookup s b = Some (VTensor y g') ->
  add_ x y = Ok r ->
  Q tt (poke s a (VTensor r g)) ->
  wp (iadd a b) Q s.
Proof.
  intros Ea Eb F H. unfold iadd. apply wp_bind. eapply wp_load_tensor; [exact Ea|].
  apply wp_bind. eapply wp_load_tensor; [exact Eb|].
  apply wp_bind. eapply wp_lift; [exact F|].
  eapply wp_store_tensor; [exact Ea|exact H].
Qed.

Lemma wp_imasked_fill a m x y g v r (Q : unit -> state -> Prop) s :
  lookup s a = Some (VTensor x g) -> lookup s m = Some (VMask y) ->
  masked_fill_ x y v = Ok r ->
  Q tt (poke s a (VTensor r g)) ->
  wp (imasked_fill a m v) Q s.
Proof.
  intros Ea Eb F H. unfold imasked_fill. apply wp_bind. eapply wp_load_tensor; [exact Ea|].
  apply wp_bind. eapply wp_load_mask; [exact Eb|].
  apply wp_bind. eapply wp_lift; [exact F|].
  eapply wp_store_tensor; [exact Ea|exact H].
Qed.

(** ** Matrices by entries *)

Lemma dot_ext k f g f' g' :
  (forall l, l < k -> f l = f' l) -> (forall l, l < k -> g l = g' l) ->
  dot k f g = dot k f' g'.
Proof.
  intros Ef Eg. unfold dot. f_equal. apply tab_ext. intros l Hl.
  now rewrite Ef, Eg.
Qed.

Lemma matmul_entries (a b : tensor T) n k p :
  shape a = [n; k] -> shape b = [k; p] ->
  exists c, matmul a b = Ok c /\ shape c = [n; p] /\ wf c /\
    forall i j, i < n -> j < p ->
      entry2 c p i j = dot k (fun l => entry2 a k i l) (fun l => entry2 b p l j).
Proof.
  intros Ea Eb. eexists. split; [exact (matmul_2d _ _ Ea Eb)|]. split; [reflexivity|].
  split.
  - unfold wf. simpl. rewrite length_tab. lia.
  - intros i j Hi Hj. unfold entry2. simpl.
    rewrite nth_tab by now apply index_lt.
    now rewrite div_row, mod_row.
Qed.

Lemma tensor_t_entries (a : tensor T) r c :
  shape a = [r; c] ->
  exists b, tensor_t a = Ok b /\ shape b = [c; r] /\ wf b /\
    forall i j, i < r -> j < c -> entry2 b r j i = entry2 a c i j.
Proof.
  intros E. eexists. split; [exact (tensor_t_2d _ E)|]. split; [reflexivity|].
  split.
  - unfold wf. simpl. rewrite length_tab. lia.
  - intros i j Hi Hj. now apply nth_transposed.
Qed.

Lemma transpose_last2_entries (a : tensor T) r c :
  shape a = [r; c] ->
  exists b, transpose_last2 a = Ok b /\ shape b = [c; r] /\ wf b /\
    forall i j, i < r -> j < c -> entry2 b r j i = entry2 a c i j.
Proof.
  intros E. eexists. split; [exact (transpose_last2_2d _ E)|]. split; [reflexivity|].
  split.
  - unfold wf. simpl. rewrite length_tab. lia.
  - intros i j Hi Hj. now apply nth_transposed.
Qed.

(** ** Inputs of any rank *)

Lemma numel_app bs s : numel (bs ++ s) = numel bs * numel s.
Proof.
  induction bs as [|d bs IH]; simpl; [lia|]. rewrite IH. lia.
Qed.

Lemma last_case A (l : list A) : l = [] \/ exists l' x, l = l' ++ [x].
Proof.
  induction l as [|y l IH]; [now left|]. right.
  destruct IH as [->|(l' & x & ->)].
  - now exists [], y.
  - now exists (y :: l'), x.
Qed.

Lemma split_last2_app bs n k : split_last2 (bs ++ [n; k]) = Some (bs, n, k).
Proof.
  induction bs as [|d bs IH]; [reflexivity|].
  cbn [app split_last2]. rewrite IH.
  destruct bs as [|d' [|d'' bs]]; reflexivity.
Qed.

(** A tensor whose last dimension is [k], times a [k] by [p] matrix: row [r]
    of the flattened batch is multiplied by the matrix. *)
Lemma matmul_rows (a b : tensor T) bs k p :
  shape a = bs ++ [k] -> shape b = [k; p] ->
  exists c, matmul a b = Ok c /\ shape c = bs ++ [p] /\ wf c /\
    forall r j, r < numel bs -> j < p ->
      entry2 c p r j = dot k (fun l => entry2 a k r l) (fun l => entry2 b p l j).
Proof.
  intros Ea Eb. unfold matmul. rewrite Ea, Eb.
  destruct (last_case bs) as [->|(bs' & n & ->)].
  - cbn [app length Nat.eqb orb split_last2]. rewrite Nat.eqb_refl.
    cbn [broadcast_shapes rev bshape_rev option_map app numel fold_right].
    eexists. split; [reflexivity|]. split; [reflexivity|]. split.
    + unfold wf. cbn [data shape numel fold_right]. rewrite length_tab. lia.
    + intros r j Hr Hj. assert (r = 0) by lia. subst r.
      unfold entry2. cbn [data Nat.mul Nat.add].
      rewrite nth_tab by lia. unfold dot. f_equal. apply tab_ext. intros l Hl.
      unfold bindex. cbn [ravel Nat.mul Nat.add].
      rewrite Nat.mod_1_r, (Nat.mod_small j p) by assumption. reflexivity.
  - rewrite <- app_assoc. cbn [app].
    assert (L : length (bs' ++ [n; k]) = S (S (length bs')))
      by (rewrite length_app; simpl; lia).
    rewrite L. cbn [length Nat.eqb orb]. rewrite split_last2_app.
    cbn [split_last2]. rewrite Nat.eqb_refl, broadcast_shapes_scalar_r.
    eexists. split; [reflexivity|]. split; [now rewrite <- app_assoc|]. split.
    + unfold wf. cbn [data shape]. rewrite length_tab, !numel_app.
      cbn [numel fold_right]. lia.
    + intros r j Hr Hj. rewrite numel_app in Hr. cbn [numel fold_right] in Hr.
      rewrite Nat.mul_1_r in Hr.
      unfold entry2. cbn [data].
      rewrite nth_tab by (apply (@index_lt r j (numel bs' * n) p Hr) in Hj; lia).
      unfold dot. f_equal. apply tab_ext. intros l Hl.
      rewrite bindex_scalar. cbn [Nat.mul Nat.add].
      rewrite mod_row by assumption.
      rewrite (Nat.mul_comm n p), <- Nat.Div0.div_div, div_row by assumption.
      rewrite bindex_same by (apply div_lt_rows; lia).
      replace (r / n * n + r mod n) with r
        by (rewrite (Nat.div_mod_eq r n) at 1; lia).
      reflexivity.
Qed.

(** [a += b] for a vector [b] as long as the last dimension of [a]: [b] is
    added to every row of the flattened batch. *)
Lemma add__last (a b : tensor T) bs m :
  shape a = bs ++ [m] -> shape b = [m] ->
  exists c, add_ a b = Ok c /\ shape c = bs ++ [m] /\ wf c /\
    forall r o, r < numel bs -> o < m ->
      entry2 c m r o = sadd (entry2 a m r o) (entry1 b o).
Proof.
  intros Ea Eb. unfold add_. rewrite (@broadcast2__suffix _ _ _ _ _ a b bs)
    by now rewrite Ea, Eb.
  eexists. split; [reflexivity|]. split; [exact Ea|]. split.
  - unfold wf. simpl. now rewrite length_tab.
  - intros r o Hr Ho. unfold entry2, entry1. simpl.
    rewrite Ea, Eb, numel_app. cbn [numel fold_right]. rewrite !Nat.mul_1_r.
    rewrite nth_tab by now apply index_lt. now rewrite mod_row.
Qed.

(** [a.masked_fill_(m, v)] for a mask of the shape of [a]. *)
Lemma masked_fill__same (a : tensor T) (m : tensor bool) v :
  shape m = shape a ->
  exists c, masked_fill_ a m v = Ok c /\ shape c = shape a /\ wf c /\
    forall p, p < numel (shape a) ->
      nth p (data c) s0 = if nth p (data m) false then v else nth p (data a) s0.
Proof.
  intros E. unfold masked_fill_.
  rewrite (@broadcast2__suffix _ _ _ _ _ a m []) by now rewrite E.
  eexists. split; [reflexivity|]. split; [reflexivity|]. split.
  - unfold wf. simpl. now rewrite length_tab.
  - intros p Hp. simpl. rewrite nth_tab by assumption.
    rewrite E, Nat.mod_small by assumption. reflexivity.
Qed.

Lemma mask_or_spec (w : tensor T) :
  wf w -> mask_or (gt w s1) (lt w (sneg s1)) = Ok (saved_mask w).
Proof.
  intros W. unfold mask_or. rewrite broadcast2_same by reflexivity.
  unfold saved_mask. simpl. do 2 f_equal. apply tab_ext. intros p Hp.
  unfold wf in W. rewrite <- W in Hp.
  now rewrite !(nth_map_in _ _ s0) by assumption.
Qed.

Lemma nth_saved_mask (w : tensor T) p :
  p < numel (shape w) ->
  nth p (data (saved_mask w)) false = spec_mask (nth p (data w) s0).
Proof. intros Hp. unfold saved_mask. simpl. now rewrite nth_tab. Qed.

Lemma entry2_torch_sign (w : tensor T) m k o l :
  wf w -> shape w = [m; k] -> o < m -> l < k ->
  entry2 (torch_sign w) k o l = sign (entry2 w k o l).
Proof.
  intros W E Ho Hl. unfold entry2, torch_sign. simpl.
  apply nth_map_in. unfold wf in W. rewrite W, E. cbn [numel fold_right].
  rewrite Nat.mul_1_r. now apply index_lt.
Qed.

(** ** BinaryLinearFunction.forward *)

Lemma sign_zero `{!@ScalarOrder T SC} : sign s0 = s0.
Proof.
  unfold sign. destruct (sltb s0 s0) eqn:E; [|reflexivity].
  pose proof (sltb_asym _ _ E). congruence.
Qed.

Lemma sign_pos x : sltb s0 x = true -> sign x = s1.
Proof. intros E. unfold sign. now rewrite E. Qed.

Lemma sign_neg `{!@ScalarOrder T SC} x : sltb x s0 = true -> sign x = sneg s1.
Proof. intros E. unfold sign. now rewrite (sltb_asym _ _ E), E. Qed.

Ltac step := apply wp_bind.

Lemma forward_spec ctx input weight bias (s : state) x gx w gw bv gb bs k m :
  lookup s input = Some (VTensor x gx) ->
  lookup s weight = Some (VTensor w gw) ->
  lookup s bias = Some (VTensor bv gb) ->
  shape x = bs ++ [k] -> shape w = [m; k] -> shape bv = [m] -> wf w ->
  wp (BinaryLinearFunction_forward ctx input weight (Some bias))
     (fun r s' =>
        exists wq mk y,
          fst r = save_for_backward ctx [Some input; Some wq; Some mk; Some bias] /\
          extends s s' /\
          lookup s' wq = Some (VTensor (torch_sign w) false) /\
          lookup s' mk = Some (VMask (saved_mask w)) /\
          lookup s' (snd r) = Some (VTensor y false) /\
          shape y = bs ++ [m] /\
          forall i o, i < numel bs -> o < m ->
            entry2 y m i o =
            sadd (dot k (fun l => entry2 x k i l) (fun l => sign (entry2 w k o l)))
                 (entry1 bv o)) s.
Proof.
  intros Li Lw Lb Sx Sw Sb W. unfold BinaryLinearFunction_forward.
  step. eapply wp_cmp; [solve_lookup|].
  step. eapply wp_cmp; [solve_lookup|].
  step. eapply wp_or; [solve_lookup|solve_lookup|now apply mask_or_spec|].
  step. eapply wp_op1; [solve_lookup|reflexivity|].
  destruct (@tensor_t_entries (torch_sign w) m k Sw) as (wt & Et & St & _ & Ht).
  step. eapply wp_op1; [solve_lookup|exact Et|].
  destruct (matmul_rows x wt bs Sx St) as (mm & Em & Sm & _ & Hm).
  step. eapply wp_op2; [solve_lookup|solve_lookup|exact Em|].
  destruct (add__last mm bv bs Sm Sb) as (y & Ey & Sy & _ & Hy).
  step. eapply wp_iadd; [solve_lookup|solve_lookup|exact Ey|].
  apply wp_ret. do 3 eexists. cbn [fst snd].
  split; [reflexivity|].
  split; [intros a v L; solve_lookup|].
  split; [solve_lookup|]. split; [solve_lookup|]. split; [solve_lookup|].
  split; [exact Sy|].
  intros i o Hi Ho. rewrite Hy, Hm by assumption. f_equal.
  apply dot_ext; intros l Hl; [reflexivity|].
  rewrite Ht by assumption. now apply (entry2_torch_sign W Sw).
Qed.

Lemma wp_mono A (m : M A) (Q Q' : A -> state -> Prop) s :
  wp m Q s -> (forall a s', Q a s' -> Q' a s') -> wp m Q' s.
Proof. unfold wp. destruct (m s) as [[a|e] s']; [|tauto]. intros H I. now apply I. Qed.

Lemma extends_refl (s : state) : extends s s.
Proof. intros a v H. exact H. Qed.

Lemma extends_trans (s1 s2 s3 : state) :
  extends s1 s2 -> extends s2 s3 -> extends s1 s3.
Proof. intros H12 H23 a v H. apply H23, H12, H. Qed.

(** ** The three gradients of a linear layer *)

Lemma grad_slot_extends f (s s' : state) r P :
  extends s s' -> grad_slot f s r P -> grad_slot f s' r P.
Proof.
  intros E. destruct f; simpl; [|tauto].
  intros (a & y & Er & L & H). exists a, y. auto.
Qed.

(** [grad_output.matmul(weight)] *)
Lemma grad_input_block (f : bool) go wq g gg q gq n m k (s : state) :
  lookup s go = Some (VTensor g gg) ->
  lookup s wq = Some (VTensor q gq) ->
  shape g = [n; m] -> shape q = [m; k] ->
  wp (if f then (r <- op2 matmul go wq ;; ret (Some r)) else ret None)
     (fun r s' => extends s s' /\ grad_slot f s' r (linear_grad_input g q n m k)) s.
Proof.
  intros Lg Lq Sg Sq. destruct f.
  - destruct (matmul_entries g q Sg Sq) as (y & Ey & Sy & _ & Hy).
    step. eapply wp_op2; [solve_lookup|solve_lookup|exact Ey|].
    apply wp_ret. split; [intros a v L; solve_lookup|].
    do 2 eexists. split; [reflexivity|]. split; [solve_lookup|]. now split.
  - apply wp_ret. split; [apply extends_refl|reflexivity].
Qed.

(** [grad_output.transpose(-1, -2).matmul(input)], followed by [rest]. *)
Lemma transposed_product A (rest : addr -> M A) go input g gg x gx n m k (s : state)
    (Q : A -> state -> Prop) :
  lookup s go = Some (VTensor g gg) ->
  lookup s input = Some (VTensor x gx) ->
  shape g = [n; m] -> shape x = [n; k] ->
  (forall gt_ y,
     shape y = [m; k] ->
     (forall o i, o < m -> i < k -> entry2 y k o i = linear_grad_weight g x n m k o i) ->
     wp (rest (length (heap (push s (VTensor gt_ false)))))
        Q (push (push s (VTensor gt_ false)) (VTensor y false))) ->
  wp (gt_ <- op1 transpose_last2 go ;; r <- op2 matmul gt_ input ;; rest r) Q s.
Proof.
  intros Lg Lx Sg Sx HQ.
  destruct (transpose_last2_entries g Sg) as (gt_ & Et & St & _ & Ht).
  destruct (matmul_entries gt_ x St Sx) as (y & Ey & Sy & _ & Hy).
  step. eapply wp_op1; [solve_lookup|exact Et|].
  step. eapply wp_op2; [solve_lookup|solve_lookup|exact Ey|].
  apply HQ; [exact Sy|].
  intros o i Ho Hi. rewrite Hy by assumption.
  apply dot_ext; intros b Hb; [now apply Ht|reflexivity].
Qed.

(** The weight gradient of [BinaryLinearFunction.backward]. *)
Lemma grad_weight_block (f : bool) go input mk g gg x gx (mask : tensor bool) n m k
    (s : state) :
  lookup s go = Some (VTensor g gg) ->
  lookup s input = Some (VTensor x gx) ->
  lookup s mk = Some (VMask mask) ->
  shape g = [n; m] -> shape x = [n; k] -> shape mask = [m; k] ->
  wp (if f then
        (gt_ <- op1 transpose_last2 go ;;
         r <- op2 matmul gt_ input ;;
         imasked_fill r mk s0 ;;;
         ret (Some r))
      else ret None)
     (fun r s' => extends s s' /\ grad_slot f s' r (masked_grad_weight g x mask n m k)) s.
Proof.
  intros Lg Lx Lm Sg Sx Sm. destruct f.
  - eapply transposed_product; [exact Lg|exact Lx|exact Sg|exact Sx|].
    intros gt_ y Sy Hy.
    destruct (@masked_fill__same y mask s0) as (z & Ez & Sz & _ & Hz);
      [congruence|].
    step. eapply wp_imasked_fill; [solve_lookup|solve_lookup|exact Ez|].
    apply wp_ret. split; [intros a v L; solve_lookup|].
    do 2 eexists. split; [reflexivity|]. split; [solve_lookup|].
    split; [congruence|].
    intros o i Ho Hi. unfold entry2 at 1. rewrite Hz.
    + now rewrite <- (Hy o i Ho Hi).
    + rewrite Sy. cbn [numel fold_right]. rewrite Nat.mul_1_r. now apply index_lt.
  - apply wp_ret. split; [apply extends_refl|reflexivity].
Qed.

(** The bias gradient of [BinaryLinearFunction.backward]. *)
Lemma grad_bias_block (bias : option addr) (f : bool) go g gg (s : state) :
  lookup s go = Some (VTensor g gg) ->
  wp (match bias with
      | Some _ =>
          if f then
            (sm <- op1 (pure1 sum0) go ;;
             r <- op1 (pure1 squeeze0) sm ;;
             ret (Some r))
          else ret None
      | None => ret None
      end)
     (fun r s' =>
        extends s s' /\
        grad_slot (match bias with Some _ => f | None => false end) s' r
          (fun y => y = squeeze0 (sum0 g))) s.
Proof.
  intros Lg. destruct bias as [b|]; [destruct f|].
  - step. eapply wp_op1; [solve_lookup|reflexivity|].
    step. eapply wp_op1; [solve_lookup|reflexivity|].
    apply wp_ret. split; [intros a v L; solve_lookup|].
    do 2 eexists. split; [reflexivity|]. split; [solve_lookup|reflexivity].
  - apply wp_ret. split; [apply extends_refl|reflexivity].
  - apply wp_ret. split; [apply extends_refl|reflexivity].
Qed.

(** ** BinaryLinearFunction.backward *)

Lemma backward_spec ctx go input wq mk bias g gg x gx q gq (mask : tensor bool)
    n m k (s : state) :
  saved_variables ctx = [Some input; Some wq; Some mk; bias] ->
  lookup s go = Some (VTensor g gg) ->
  lookup s input = Some (VTensor x gx) ->
  lookup s wq = Some (VTensor q gq) ->
  lookup s mk = Some (VMask mask) ->
  shape g = [n; m] -> shape x = [n; k] -> shape q = [m; k] -> shape mask = [m; k] ->
  wp (BinaryLinearFunction_backward ctx go)
     (fun r s' =>
        extends s s' /\
        grad_slot (nth 0 (needs_input_grad ctx) false) s' (fst (fst r))
          (linear_grad_input g q n m k) /\
        grad_slot (nth 1 (needs_input_grad ctx) false) s' (snd (fst r))
          (masked_grad_weight g x mask n m k) /\
        grad_slot (match bias with
                   | Some _ => nth 2 (needs_input_grad ctx) false
                   | None => false
                   end) s' (snd r)
          (fun y => y = squeeze0 (sum0 g))) s.
Proof.
  intros Sv Lg Lx Lq Lm Sg Sx Sq Sm. unfold BinaryLinearFunction_backward.
  rewrite Sv.
  step. eapply wp_mono; [eapply grad_input_block; eassumption|].
  intros gi s1 (E1 & G1). cbv beta.
  step. eapply wp_mono;
    [eapply grad_weight_block;
       [apply E1, Lg|apply E1, Lx|apply E1, Lm|eassumption..]|].
  intros gw s2 (E2 & G2). cbv beta.
  step. eapply wp_mono; [eapply grad_bias_block; apply E2, E1, Lg|].
  intros gb s3 (E3 & G3). cbv beta.
  apply wp_ret. cbn [fst snd].
  split; [exact (extends_trans (extends_trans E1 E2) E3)|].
  split; [exact (grad_slot_extends _ _ _ (extends_trans E2 E3) G1)|].
  split; [exact (grad_slot_extends _ _ _ E3 G2)|exact G3].
Qed.

(** ** Theorems on the Sign Binarizer *)

(** C1. Sign Binarizer forward: for every input (of any batch shape [bs],
    with [k] features), weight ([m] by [k]) and bias ([m]), the call
    returns an output of shape [bs ++ [m]], and for every row [i] of the
    batch entry [(i, o)] of the output is the sum over [l] of
    [input(i,l) * sign(weight(o,l))], plus [bias(o)]: the output is
    [input . sign(weight)^t + bias] with the bias added to every row of the
    batch.  The quantized weight saved in the context is [sign(weight)]
    elementwise, and [sign] is 1 on positive numbers, -1 on negative numbers
    and 0 at 0. *)
Theorem BinaryLinearFunction_forward_output `{!@ScalarOrder T SC}
    ctx input weight bias (s : state) x gx w gw bv gb bs k m :
  lookup s input = Some (VTensor x gx) ->
  lookup s weight = Some (VTensor w gw) ->
  lookup s bias = Some (VTensor bv gb) ->
  shape x = bs ++ [k] -> shape w = [m; k] -> shape bv = [m] -> wf w ->
  exists ctx' output s' wq q y,
    BinaryLinearFunction_forward ctx input weight (Some bias) s
      = (Ok (ctx', output), s') /\
    nth 1 (saved_variables ctx') None = Some wq /\
    lookup s' wq = Some (VTensor q false) /\
    shape q = [m; k] /\
    (forall o l, o < m -> l < k -> entry2 q k o l = sign (entry2 w k o l)) /\
    lookup s' output = Some (VTensor y false) /\
    shape y = bs ++ [m] /\
    (forall i o, i < numel bs -> o < m ->
       entry2 y m i o =
       sadd (dot k (fun l => entry2 x k i l) (fun l => sign (entry2 w k o l)))
            (entry1 bv o)) /\
    sign s0 = s0 /\
    (forall v, sltb s0 v = true -> sign v = s1) /\
    (forall v, sltb v s0 = true -> sign v = sneg s1).
Proof.
  intros Li Lw Lb Sx Sw Sb W.
  pose proof (@forward_spec ctx input weight bias s x gx w gw bv gb bs k m
                Li Lw Lb Sx Sw Sb W) as F.
  apply wp_elim in F.
  destruct F as ([ctx' output] & s' & E & wq & mk & y & Ec & _ & Lq & _ & Ly & Sy & Hy).
  cbn [fst snd] in *. subst ctx'.
  exists (save_for_backward ctx [Some input; Some wq; Some mk; Some bias]),
    output, s', wq, (torch_sign w), y.
  split; [exact E|]. split; [reflexivity|]. split; [exact Lq|].
  split; [exact Sw|].
  split; [intros o l Ho Hl; now apply (entry2_torch_sign W Sw)|].
  split; [exact Ly|]. split; [exact Sy|]. split; [exact Hy|].
  split; [apply sign_zero|]. split; [apply sign_pos|apply sign_neg].
Qed.

Lemma spec_mask_inside `{!@ScalarOrder T SC} v :
  sltb (sneg s1) v = true -> sltb v s1 = true -> spec_mask v = false.
Proof.
  intros Lo Hi. unfold spec_mask.
  now rewrite (sltb_asym _ _ Lo), (sltb_asym _ _ Hi).
Qed.

Lemma spec_mask_outside v :
  sltb s1 v = true \/ sltb v (sneg s1) = true -> spec_mask v = true.
Proof.
  unfold spec_mask. intros [E|E]; rewrite E; [reflexivity|apply orb_true_r].
Qed.

(** ** Frame rules *)

Lemma frames_ret A n (a : A) (Q : A -> Prop) : Q a -> frames n (ret a : M A) Q.
Proof. intros H s L. simpl. auto. Qed.

Lemma frames_raise A n e (Q : A -> Prop) : frames n (raise e : M A) Q.
Proof. intros s L. simpl. auto. Qed.

Lemma frames_lift A n (r : result A) (Q : A -> Prop) :
  (forall a, r = Ok a -> Q a) -> frames n (lift r : M A) Q.
Proof. intros H s L. simpl. destruct r; auto. Qed.

Lemma frames_lift_true A n (r : result A) : frames n (lift r : M A) (fun _ => True).
Proof. now apply frames_lift. Qed.

Lemma frames_bind A B n (m : M A) (k : A -> M B) (Q : A -> Prop) (Q' : B -> Prop) :
  frames n m Q -> (forall a, Q a -> frames n (k a) Q') -> frames n (bind m k) Q'.
Proof.
  intros Hm Hk s L. unfold bind. destruct (Hm s L) as (L1 & F1 & Q1).
  destruct (m s) as [[a|e] s1]; simpl in *.
  - destruct (Hk a Q1 s1 L1) as (L2 & F2 & Q2).
    split; [exact L2|]. split; [|exact Q2].
    intros b Hb. now rewrite F2, F1.
  - auto.
Qed.

Lemma frames_weaken A n (m : M A) (Q Q' : A -> Prop) :
  frames n m Q -> (forall a, Q a -> Q' a) -> frames n m Q'.
Proof.
  intros Hm I s L. destruct (Hm s L) as (L1 & F1 & Q1).
  split; [exact L1|]. split; [exact F1|]. destruct (fst (m s)); auto.
Qed.

Lemma frames_alloc n v : frames n (alloc v : M addr) (fun a => n <= a).
Proof.
  intros s L. unfold alloc. cbn [fst snd]. rewrite length_push.
  split; [lia|]. split; [|exact L].
  intros a Ha. apply lookup_push_below. lia.
Qed.

Lemma frames_load n a : frames n (load a : M _) (fun _ => True).
Proof. intros s L. unfold load. destruct (lookup s a); simpl; auto. Qed.

Lemma frames_store n a v : n <= a -> frames n (store a v : M unit) (fun _ => True).
Proof.
  intros Ha s L. unfold store. cbn [fst snd]. rewrite length_poke.
  split; [exact L|]. split; [|exact I].
  intros b Hb. apply lookup_poke_other. lia.
Qed.

Lemma frames_load_tensor n a : frames n (load_tensor a : M _) (fun _ => True).
Proof.
  unfold load_tensor. eapply frames_bind; [apply frames_load|].
  intros [x g|x|x] _; first [now apply frames_ret | apply frames_raise].
Qed.

Lemma frames_load_mask n a : frames n (load_mask a : M _) (fun _ => True).
Proof.
  unfold load_mask. eapply frames_bind; [apply frames_load|].
  intros [x g|x|x] _; first [now apply frames_ret | apply frames_raise].
Qed.

Lemma frames_store_tensor n a x :
  n <= a -> frames n (store_tensor a x : M unit) (fun _ => True).
Proof.
  intros Ha. unfold store_tensor. eapply frames_bind; [apply frames_load|].
  intros [y g|y|y] _; first [now apply frames_store | apply frames_raise].
Qed.

Lemma frames_true A n (m : M A) (Q : A -> Prop) :
  frames n m Q -> frames n m (fun _ => True).
Proof. intros H. eapply frames_weaken; [exact H|trivial]. Qed.

Lemma frames_op1 n f a : frames n (op1 f a : M addr) (fun r => n <= r).
Proof.
  unfold op1. eapply frames_bind; [apply frames_load_tensor|]. intros x _.
  eapply frames_bind; [apply frames_lift_true|]. intros r _.
  apply frames_alloc.
Qed.

Lemma frames_op2 n f a b : frames n (op2 f a b : M addr) (fun r => n <= r).
Proof.
  unfold op2. eapply frames_bind; [apply frames_load_tensor|]. intros x _.
  eapply frames_bind; [apply frames_load_tensor|]. intros y _.
  eapply frames_bind; [apply frames_lift_true|]. intros r _.
  apply frames_alloc.
Qed.

Lemma frames_cmp n f a : frames n (cmp f a : M addr) (fun r => n <= r).
Proof.
  unfold cmp. eapply frames_bind; [apply frames_load_tensor|]. intros x _.
  apply frames_alloc.
Qed.

Lemma frames_or n a b : frames n (or_ a b : M addr) (fun r => n <= r).
Proof.
  unfold or_. eapply frames_bind; [apply frames_load_mask|]. intros x _.
  eapply frames_bind; [apply frames_load_mask|]. intros y _.
  eapply frames_bind; [apply frames_lift_true|]. intros r _.
  apply frames_alloc.
Qed.

Lemma frames_iadd n a b : n <= a -> frames n (iadd a b : M unit) (fun _ => True).
Proof.
  intros Ha. unfold iadd. eapply frames_bind; [apply frames_load_tensor|]. intros x _.
  eapply frames_bind; [apply frames_load_tensor|]. intros y _.
  eapply frames_bind; [apply frames_lift_true|]. intros r _.
  now apply frames_store_tensor.
Qed.

Lemma frames_operand n t : frames n (operand t : M addr) (fun _ => True).
Proof. destruct t; [now apply frames_ret | apply frames_raise]. Qed.

Lemma frames_mapM A B n (f : A -> M B) l :
  (forall x, frames n (f x) (fun _ => True)) ->
  frames n (mapM f l) (fun _ => True).
Proof.
  intros Hf. induction l as [|x l IH]; simpl.
  - now apply frames_ret.
  - eapply frames_bind; [apply Hf|]. intros y _.
    eapply frames_bind; [apply IH|]. intros ys _. now apply frames_ret.
Qed.

Lemma frames_new_ctx n inputs : frames n (new_ctx inputs : M Ctx) (fun _ => True).
Proof.
  unfold new_ctx. eapply frames_bind.
  - apply frames_mapM. intros [x|]; simpl; [|now apply frames_ret].
    eapply frames_bind; [apply frames_load|].
    intros [y g|y|y] _; now apply frames_ret.
  - intros needs _. now apply frames_ret.
Qed.

Lemma frames_torch_Tensor n items :
  frames n (torch_Tensor items : M addr) (fun r => n <= r).
Proof.
  unfold torch_Tensor. eapply frames_bind.
  - apply frames_mapM. intros [a|v]; [|now apply frames_ret].
    unfold item. eapply frames_bind; [apply frames_load_tensor|].
    intros x _. destruct (data x) as [|v [|v' r]];
      first [now apply frames_ret | apply frames_raise].
  - intros vs _. apply frames_alloc.
Qed.

Lemma frames_BinaryLinearFunction_forward n ctx input weight bias :
  frames n (BinaryLinearFunction_forward ctx input weight bias) (fresh_results n).
Proof.
  unfold BinaryLinearFunction_forward.
  eapply frames_bind; [apply frames_cmp|]. intros m1 H1.
  eapply frames_bind; [apply frames_cmp|]. intros m2 H2.
  eapply frames_bind; [apply frames_or|]. intros mk Hm.
  eapply frames_bind; [apply frames_op1|]. intros wq Hq.
  eapply frames_bind; [apply frames_op1|]. intros wt Ht.
  eapply frames_bind; [apply frames_op2|]. intros output Ho.
  eapply frames_bind.
  - destruct bias as [b|]; [now apply frames_iadd | now apply (@frames_ret unit)].
  - intros _ _. apply frames_ret. split; [|exact Ho]. now exists wq.
Qed.

Lemma frames_IRLinearFunction_forward n ctx input weight bias t :
  frames n (IRLinearFunction_forward ctx input weight bias t) (fresh_results n).
Proof.
  unfold IRLinearFunction_forward.
  eapply frames_bind; [apply frames_op1|]. intros weight_mean _.
  eapply frames_bind; [apply frames_op1|]. intros weight_std _.
  eapply frames_bind; [apply frames_op2|]. intros centred _.
  eapply frames_bind; [apply frames_op2|]. intros weight_norm _.
  eapply frames_bind.
  { eapply frames_bind; [apply frames_operand|]. intros ta _. apply frames_op1. }
  intros inv_t _.
  eapply frames_bind; [apply frames_torch_Tensor|]. intros pair _.
  eapply frames_bind; [apply frames_op1|]. intros k _.
  eapply frames_bind.
  { eapply frames_bind; [apply frames_operand|]. intros ta _. apply frames_op2. }
  intros scaled _.
  eapply frames_bind; [apply frames_op1|]. intros th _.
  eapply frames_bind; [apply frames_op2|]. intros weight_b Hq.
  eapply frames_bind; [apply frames_op1|]. intros wt _.
  eapply frames_bind; [apply frames_op2|]. intros output Ho.
  eapply frames_bind.
  - destruct bias as [b|]; [now apply frames_iadd | now apply (@frames_ret unit)].
  - intros _ _. apply frames_ret. split; [|exact Ho]. now exists weight_b.
Qed.

Lemma frames_BinarizedLinear_forward n self input :
  frames n (BinarizedLinear_forward self input) (fresh_results n).
Proof.
  unfold BinarizedLinear_forward. destruct (bias self) as [b|]; [|apply frames_raise].
  unfold BinaryLinearFunction_apply.
  eapply frames_bind; [apply frames_new_ctx|]. intros ctx _.
  apply frames_BinaryLinearFunction_forward.
Qed.

Lemma frames_IRLinear_forward n self t input :
  frames n (IRLinear_forward self t input) (fresh_results n).
Proof.
  unfold IRLinear_forward. destruct (bias self) as [b|]; [|apply frames_raise].
  unfold IRLinearFunction_apply.
  eapply frames_bind; [apply frames_new_ctx|]. intros ctx _.
  apply frames_IRLinearFunction_forward.
Qed.

Lemma frames_extends A n (m : M A) (Q : A -> Prop) (s : state) :
  frames n m Q -> n = length (heap s) -> extends s (snd (m s)).
Proof.
  intros F -> a v L. destruct (F s (le_n _)) as (_ & K & _).
  rewrite K; [exact L|]. now apply lookup_lt in L.
Qed.

(** ** Constructors *)

Lemma wp_alloc v (Q : addr -> state -> Prop) (s : state) :
  Q (length (heap s)) (push s v) -> wp (alloc v) Q s.
Proof. exact (fun H => H). Qed.

Lemma wp_normal_ a mean std x g (Q : unit -> state -> Prop) (s : state) :
  lookup s a = Some (VTensor x g) ->
  Q tt (poke (set_gen s (gen s + numel (shape x))) a
          (VTensor (mkT (shape x) (tab (numel (shape x))
             (fun i => sadd mean (smul std (randn (gen s + i)))))) g)) ->
  wp (normal_ a mean std) Q s.
Proof.
  intros L H. unfold normal_. apply wp_bind. eapply wp_load_tensor; [exact L|].
  eapply wp_store_tensor; [rewrite lookup_set_gen; exact L|exact H].
Qed.

Lemma wp_zero_ a x g (Q : unit -> state -> Prop) (s : state) :
  lookup s a = Some (VTensor x g) ->
  Q tt (poke s a (VTensor (mkT (shape x) (repeat s0 (numel (shape x)))) g)) ->
  wp (zero_ a) Q s.
Proof.
  intros L H. unfold zero_. apply wp_bind. eapply wp_load_tensor; [exact L|].
  eapply wp_store_tensor; [exact L|exact H].
Qed.

Lemma BinarizedLinear_init_spec inf outf b (s : state) :
  inf <> 0 ->
  wp (BinarizedLinear_init inf outf b) (constructed BinarizedLinear inf outf b s) s.
Proof.
  intros N. unfold BinarizedLinear_init, nn_Parameter.
  step. apply wp_alloc. destruct b.
  - step. step. apply wp_alloc. apply wp_ret.
    step. unfold BinarizedLinear_reset_parameters, math_sqrt_inv.
    cbn [in_features weight bias].
    destruct (inf =? 0) eqn:E; [apply Nat.eqb_eq in E; contradiction|].
    step. apply wp_ret. step. eapply wp_normal_; [solve_lookup|].
    eapply wp_zero_; [solve_lookup|].
    apply wp_alloc. unfold constructed.
    split; [intros a v L; solve_lookup|]. split; [heap_lia|]. split; [heap_lia|].
    split; [reflexivity|]. eexists. split; [solve_lookup|].
    cbn [in_features out_features bias]. eauto.
  - step. apply wp_ret.
    step. unfold BinarizedLinear_reset_parameters, math_sqrt_inv.
    cbn [in_features weight bias].
    destruct (inf =? 0) eqn:E; [apply Nat.eqb_eq in E; contradiction|].
    step. apply wp_ret. step. eapply wp_normal_; [solve_lookup|].
    apply wp_ret.
    apply wp_alloc. unfold constructed.
    split; [intros a v L; solve_lookup|]. split; [heap_lia|]. split; [heap_lia|].
    split; [reflexivity|]. eexists. split; [solve_lookup|].
    cbn [in_features out_features bias]. eauto.
Qed.

Lemma IRLinear_init_spec inf outf b (s : state) :
  inf <> 0 ->
  wp (IRLinear_init inf outf b)
     (constructed (fun p => IRLinear p None) inf outf b s) s.
Proof.
  intros N. unfold IRLinear_init, nn_Parameter.
  step. apply wp_alloc. destruct b.
  - step. step. apply wp_alloc. apply wp_ret.
    step. unfold IRLinear_reset_parameters, math_sqrt_inv.
    cbn [in_features weight bias].
    destruct (inf =? 0) eqn:E; [apply Nat.eqb_eq in E; contradiction|].
    step. apply wp_ret. step. eapply wp_normal_; [solve_lookup|].
    eapply wp_zero_; [solve_lookup|].
    apply wp_alloc. unfold constructed.
    split; [intros a v L; solve_lookup|]. split; [heap_lia|]. split; [heap_lia|].
    split; [reflexivity|]. eexists. split; [solve_lookup|].
    cbn [in_features out_features bias]. eauto.
  - step. apply wp_ret.
    step. unfold IRLinear_reset_parameters, math_sqrt_inv.
    cbn [in_features weight bias].
    destruct (inf =? 0) eqn:E; [apply Nat.eqb_eq in E; contradiction|].
    step. apply wp_ret. step. eapply wp_normal_; [solve_lookup|].
    apply wp_ret.
    apply wp_alloc. unfold constructed.
    split; [intros a v L; solve_lookup|]. split; [heap_lia|]. split; [heap_lia|].
    split; [reflexivity|]. eexists. split; [solve_lookup|].
    cbn [in_features out_features bias]. eauto.
Qed.

(** ** Theorems on the two layers *)

(** C7. For both layer types, the constructor accepts [bias=False] and
    returns a layer object without a bias; calling forward on a layer
    without a bias raises, for every input and in every state, and returns
    no output.  The error is the bare [Exception] of the two [raise
    Exception] statements, which is what the spec calls ConfigurationError. *)
Theorem biasless_forward_raises :
  (forall inf outf (s : state), inf <> 0 ->
     exists a s' p,
       BinarizedLinear_init inf outf false s = (Ok a, s') /\
       lookup s' a = Some (VModule (BinarizedLinear p)) /\ bias p = None) /\
  (forall inf outf (s : state), inf <> 0 ->
     exists a s' p,
       IRLinear_init inf outf false s = (Ok a, s') /\
       lookup s' a = Some (VModule (IRLinear p None)) /\ bias p = None) /\
  (forall self input (s : state), bias self = None ->
     BinarizedLinear_forward self input s = (Raise Exception, s)) /\
  (forall self t input (s : state), bias self = None ->
     IRLinear_forward self t input s = (Raise Exception, s)).
Proof.
  split; [|split; [|split]].
  - intros inf outf s N.
    pose proof (@BinarizedLinear_init_spec inf outf false s N) as F.
    apply wp_elim in F.
    destruct F as (a & s' & E & _ & _ & _ & _ & p & L & _ & _ & B).
    now exists a, s', p.
  - intros inf outf s N.
    pose proof (@IRLinear_init_spec inf outf false s N) as F.
    apply wp_elim in F.
    destruct F as (a & s' & E & _ & _ & _ & _ & p & L & _ & _ & B).
    now exists a, s', p.
  - intros self input s B. unfold BinarizedLinear_forward. now rewrite B.
  - intros self t input s B. unfold IRLinear_forward. now rewrite B.
Qed.

(** C10. The forward pass of both layer types, and of both autograd
    functions, leaves every object that existed before the call as it was,
    whether the call returns or raises: in particular the weight tensor and
    the bias vector of the layer.  The quantized weight that a call saves in
    its context and the output are objects created by the call. *)
Theorem forward_leaves_parameters self t input ctx weight bias (s : state) :
  extends s (snd (BinarizedLinear_forward self input s)) /\
  extends s (snd (IRLinear_forward self t input s)) /\
  extends s (snd (BinaryLinearFunction_forward ctx input weight bias s)) /\
  extends s (snd (IRLinearFunction_forward ctx input weight bias t s)) /\
  (forall r s', BinarizedLinear_forward self input s = (Ok r, s') ->
     fresh_results (length (heap s)) r) /\
  (forall r s', IRLinear_forward self t input s = (Ok r, s') ->
     fresh_results (length (heap s)) r) /\
  (forall r s', BinaryLinearFunction_forward ctx input weight bias s = (Ok r, s') ->
     fresh_results (length (heap s)) r) /\
  (forall r s', IRLinearFunction_forward ctx input weight bias t s = (Ok r, s') ->
     fresh_results (length (heap s)) r).
Proof.
  pose proof (@frames_BinarizedLinear_forward (length (heap s)) self input) as F1.
  pose proof (@frames_IRLinear_forward (length (heap s)) self t input) as F2.
  pose proof (@frames_BinaryLinearFunction_forward (length (heap s))
                ctx input weight bias) as F3.
  pose proof (@frames_IRLinearFunction_forward (length (heap s))
                ctx input weight bias t) as F4.
  split; [eapply frames_extends; [exact F1|reflexivity]|].
  split; [eapply frames_extends; [exact F2|reflexivity]|].
  split; [eapply frames_extends; [exact F3|reflexivity]|].
  split; [eapply frames_extends; [exact F4|reflexivity]|].
  split; [|split; [|split]]; intros r s' E.
  - destruct (F1 s (le_n _)) as (_ & _ & Q). now rewrite E in Q.
  - destruct (F2 s (le_n _)) as (_ & _ & Q). now rewrite E in Q.
  - destruct (F3 s (le_n _)) as (_ & _ & Q). now rewrite E in Q.
  - destruct (F4 s (le_n _)) as (_ & _ & Q). now rewrite E in Q.
Qed.

(** ** IRLinearFunction.forward *)

Lemma torch_mean_spec (w : tensor T) :
  wf w -> torch_mean w = mkT [] [spec_mean (data w)].
Proof. intros W. unfold wf in W. unfold torch_mean, spec_mean. now rewrite <- W. Qed.

Lemma torch_std_spec (w : tensor T) :
  wf w -> torch_std w = mkT [] [spec_std (data w)].
Proof.
  intros W. unfold wf in W. unfold torch_std, spec_std, spec_mean.
  now rewrite <- W.
Qed.

(** [(weight - weight_mean) / weight_std] *)
Lemma normalize_spec (w : tensor T) :
  wf w ->
  exists c nt,
    sub w (torch_mean w) = Ok c /\ div c (torch_std w) = Ok nt /\
    shape nt = shape w /\
    forall p, p < numel (shape w) ->
      nth p (data nt) s0 = spec_norm (data w) (nth p (data w) s0).
Proof.
  intros W. unfold sub, div.
  rewrite (@broadcast2_scalar_r _ _ _ ssub s0 s0 w (torch_mean w)) by reflexivity.
  eexists. eexists. split; [reflexivity|].
  rewrite broadcast2_scalar_r by reflexivity.
  split; [reflexivity|]. split; [reflexivity|].
  intros p Hp. cbn [data shape]. rewrite !nth_tab by assumption.
  rewrite torch_mean_spec, torch_std_spec by assumption. reflexivity.
Qed.

(** [k * tanh(t * weight_norm)] for 0-d tensors [t] and [k]. *)
Lemma quantize_spec (tt kt nt : tensor T) tv kv :
  shape tt = [] -> data tt = [tv] -> shape kt = [] -> data kt = [kv] ->
  exists sc qb,
    mul tt nt = Ok sc /\ mul kt (torch_tanh sc) = Ok qb /\
    shape sc = shape nt /\
    (forall p, p < numel (shape nt) ->
       nth p (data sc) s0 = smul tv (nth p (data nt) s0)) /\
    shape qb = shape nt /\
    forall p, p < numel (shape nt) ->
      nth p (data qb) s0 = smul kv (stanh (smul tv (nth p (data nt) s0))).
Proof.
  intros St Dt Sk Dk. unfold mul.
  rewrite (@broadcast2_scalar_l _ _ _ smul s0 s0 tt nt) by assumption.
  eexists. eexists. split; [reflexivity|].
  rewrite broadcast2_scalar_l by assumption.
  split; [reflexivity|]. split; [reflexivity|].
  split; [intros p Hp; cbn [data]; rewrite nth_tab by assumption; now rewrite Dt|].
  split; [reflexivity|].
  intros p Hp. cbn [data shape torch_tanh tmap]. rewrite nth_tab by assumption.
  rewrite Dk. cbn [nth].
  rewrite (nth_map_in _ _ s0) by now rewrite length_tab.
  rewrite nth_tab by assumption. now rewrite Dt.
Qed.

Lemma wp_torch_Tensor_pair a c x g v (Q : addr -> state -> Prop) (s : state) :
  lookup s a = Some (VTensor x g) -> data x = [v] ->
  Q (length (heap s)) (push s (VTensor (mkT [2] [v; c]) false)) ->
  wp (torch_Tensor [inl a; inr c]) Q s.
Proof.
  intros L D H. unfold torch_Tensor. cbn [mapM].
  step. step. unfold item. step. eapply wp_load_tensor; [exact L|].
  rewrite D. apply wp_ret. step. step. apply wp_ret. step. apply wp_ret.
  apply wp_ret. apply wp_ret. exact H.
Qed.

Lemma IR_forward_spec ctx input weight bias ta (s : state)
    x gx w gw bv gb tt gt tv bs k m :
  lookup s input = Some (VTensor x gx) ->
  lookup s weight = Some (VTensor w gw) ->
  lookup s bias = Some (VTensor bv gb) ->
  lookup s ta = Some (VTensor tt gt) ->
  shape tt = [] -> data tt = [tv] ->
  shape x = bs ++ [k] -> shape w = [m; k] -> shape bv = [m] -> wf w ->
  wp (IRLinearFunction_forward ctx input weight (Some bias) (Some ta))
     (fun r s' =>
        exists wb wn ws kk qb nt y,
          fst r = save_for_backward ctx
                    [Some input; Some wb; Some wn; Some bias; Some ws; Some ta; Some kk] /\
          extends s s' /\
          lookup s' wb = Some (VTensor qb false) /\
          shape qb = [m; k] /\
          (forall p, p < m * k ->
             nth p (data qb) s0 = spec_quant tv (data w) (nth p (data w) s0)) /\
          lookup s' wn = Some (VTensor nt false) /\
          shape nt = [m; k] /\
          (forall p, p < m * k ->
             nth p (data nt) s0 = spec_norm (data w) (nth p (data w) s0)) /\
          lookup s' ws = Some (VTensor (mkT [] [spec_std (data w)]) false) /\
          lookup s' kk = Some (VTensor (mkT [] [spec_k tv]) false) /\
          lookup s' (snd r) = Some (VTensor y false) /\
          shape y = bs ++ [m] /\
          forall i o, i < numel bs -> o < m ->
            entry2 y m i o =
            sadd (dot k (fun l => entry2 x k i l) (fun l => entry2 qb k o l))
                 (entry1 bv o)) s.
Proof.
  intros Li Lw Lb Lt St Dt Sx Sw Sb W. unfold IRLinearFunction_forward.
  assert (Nw : numel (shape w) = m * k)
    by (rewrite Sw; cbn [numel fold_right]; now rewrite Nat.mul_1_r).
  destruct (normalize_spec W) as (c & nt & Ec & En & Sn & Hn).
  destruct (@quantize_spec tt (mkT [] [spec_k tv]) nt tv (spec_k tv)
              St Dt eq_refl eq_refl)
    as (sc & qb & Es & Eq & _ & _ & Sq & Hq).
  rewrite Sn, Nw in Hq. rewrite Nw in Hn. rewrite Sn, Sw in Sq. rewrite Sw in Sn.
  step. eapply wp_op1; [solve_lookup|reflexivity|].
  step. eapply wp_op1; [solve_lookup|reflexivity|].
  step. eapply wp_op2; [solve_lookup|solve_lookup|exact Ec|].
  step. eapply wp_op2; [solve_lookup|solve_lookup|exact En|].
  step. step. apply wp_ret. eapply wp_op1; [solve_lookup|reflexivity|].
  step. eapply wp_torch_Tensor_pair;
    [solve_lookup|cbn [rdiv tmap data]; rewrite Dt; reflexivity|].
  step. eapply wp_op1; [solve_lookup|reflexivity|].
  step. step. apply wp_ret. eapply wp_op2; [solve_lookup|solve_lookup|exact Es|].
  step. eapply wp_op1; [solve_lookup|reflexivity|].
  step. eapply wp_op2; [solve_lookup|solve_lookup|exact Eq|].
  destruct (@tensor_t_entries qb m k Sq) as (wt & Et & Swt & _ & Ht).
  step. eapply wp_op1; [solve_lookup|exact Et|].
  destruct (matmul_rows x wt bs Sx Swt) as (mm & Em & Sm & _ & Hm).
  step. eapply wp_op2; [solve_lookup|solve_lookup|exact Em|].
  destruct (add__last mm bv bs Sm Sb) as (y & Ey & Sy & _ & Hy).
  step. eapply wp_iadd; [solve_lookup|solve_lookup|exact Ey|].
  apply wp_ret. do 4 eexists. exists qb, nt, y. cbn [fst snd].
  split; [reflexivity|].
  split; [intros a v L; solve_lookup|].
  split; [solve_lookup|]. split; [exact Sq|].
  split; [intros p Hp; rewrite Hq, Hn by assumption; reflexivity|].
  split; [solve_lookup|]. split; [exact Sn|]. split; [exact Hn|].
  split; [rewrite <- (torch_std_spec W); solve_lookup|].
  split; [solve_lookup|]. split; [solve_lookup|]. split; [exact Sy|].
  intros i o Hi Ho. rewrite Hy, Hm by assumption. f_equal.
  apply dot_ext; intros l Hl; [reflexivity|]. now apply Ht.
Qed.

(** C3. Scaled-Tanh Binarizer forward: for every input (of any batch shape
    [bs], with [k] features), weight, bias and scalar [t] (in particular
    every positive one), the call returns; the
    quantized weight it saves is, elementwise, [k * tanh(t * weight_norm)]
    with [weight_norm = (weight - mean(weight)) / std(weight)], [std] the
    unbiased sample standard deviation (divisor [n - 1], which is what
    [torch.std] computes) and [k = max(1/t, 1)], the saved [k] and [std] are
    these values, and the output is [input . weight_q^t + bias]. *)
Theorem IRLinearFunction_forward_output ctx input weight bias ta (s : state)
    x gx w gw bv gb tt gt tv bs k m :
  lookup s input = Some (VTensor x gx) ->
  lookup s weight = Some (VTensor w gw) ->
  lookup s bias = Some (VTensor bv gb) ->
  lookup s ta = Some (VTensor tt gt) ->
  shape tt = [] -> data tt = [tv] ->
  shape x = bs ++ [k] -> shape w = [m; k] -> shape bv = [m] -> wf w ->
  exists ctx' output s' wb wn ws kk q y,
    IRLinearFunction_forward ctx input weight (Some bias) (Some ta) s
      = (Ok (ctx', output), s') /\
    saved_variables ctx' = [Some input; Some wb; Some wn; Some bias; Some ws;
                            Some ta; Some kk] /\
    lookup s' wb = Some (VTensor q false) /\
    shape q = [m; k] /\
    (forall o l, o < m -> l < k ->
       entry2 q k o l = spec_quant tv (data w) (entry2 w k o l)) /\
    torch_std w = mkT [] [spec_std (data w)] /\
    lookup s' ws = Some (VTensor (mkT [] [spec_std (data w)]) false) /\
    lookup s' kk = Some (VTensor (mkT [] [spec_k tv]) false) /\
    lookup s' output = Some (VTensor y false) /\
    shape y = bs ++ [m] /\
    (forall i o, i < numel bs -> o < m ->
       entry2 y m i o =
       sadd (dot k (fun l => entry2 x k i l)
                   (fun l => spec_quant tv (data w) (entry2 w k o l)))
            (entry1 bv o)).
Proof.
  intros Li Lw Lb Lt St Dt Sx Sw Sb W.
  pose proof (@IR_forward_spec ctx input weight bias ta s x gx w gw bv gb tt gt tv
                bs k m Li Lw Lb Lt St Dt Sx Sw Sb W) as F.
  apply wp_elim in F.
  destruct F as ([ctx' output] & s' & E & wb & wn & ws & kk & qb & nt & y & Ec & _
                 & Lq & Sq & Hq & _ & _ & _ & Ls & Lk & Ly & Sy & Hy).
  cbn [fst snd] in *. subst ctx'.
  assert (Hq' : forall o l, o < m -> l < k ->
            entry2 qb k o l = spec_quant tv (data w) (entry2 w k o l))
    by (intros o l Ho Hl; apply Hq; now apply index_lt).
  eexists _, output, s', wb, wn, ws, kk, qb, y.
  split; [exact E|]. split; [reflexivity|]. split; [exact Lq|]. split; [exact Sq|].
  split; [exact Hq'|]. split; [now apply torch_std_spec|].
  split; [exact Ls|]. split; [exact Lk|]. split; [exact Ly|]. split; [exact Sy|].
  intros i o Hi Ho. rewrite Hy by assumption. f_equal.
  apply dot_ext; intros l Hl; [reflexivity|]. now apply Hq'.
Qed.

(** ** IRLinearFunction.backward *)

(** [k * t * (1 - torch.square(torch.tanh(t * weight_norm)))] for 0-d [k]
    and [t], and its elementwise product with a matrix [gwb]. *)
Lemma surrogate_spec (kt tt nt gwb : tensor T) kv tv m k :
  shape kt = [] -> data kt = [kv] -> shape tt = [] -> data tt = [tv] ->
  shape nt = [m; k] -> shape gwb = [m; k] ->
  exists ktt sc gbin y,
    mul kt tt = Ok ktt /\ mul tt nt = Ok sc /\
    mul ktt (rsub s1 (torch_square (torch_tanh sc))) = Ok gbin /\
    mul gwb gbin = Ok y /\ shape y = [m; k] /\
    forall o i, o < m -> i < k ->
      entry2 y k o i =
      smul (entry2 gwb k o i)
           (smul (smul kv tv)
                 (ssub s1 (smul (stanh (smul tv (entry2 nt k o i)))
                                (stanh (smul tv (entry2 nt k o i)))))).
Proof.
  intros Sk Dk St Dt Sn Sg. unfold mul.
  assert (N : numel [m; k] = m * k) by (cbn [numel fold_right]; now rewrite Nat.mul_1_r).
  rewrite (@broadcast2_scalar_l _ _ _ smul s0 s0 kt tt) by assumption.
  eexists. eexists. eexists. eexists. split; [reflexivity|].
  rewrite (@broadcast2_scalar_l _ _ _ smul s0 s0 tt nt) by assumption.
  split; [reflexivity|].
  rewrite broadcast2_scalar_l by (cbn [shape]; exact St).
  split; [reflexivity|].
  rewrite broadcast2_same by (cbn [shape rsub torch_square torch_tanh tmap]; congruence).
  split; [reflexivity|]. split; [exact Sg|].
  intros o i Ho Hi. unfold entry2.
  assert (P : o * k + i < m * k) by now apply index_lt.
  cbn [data shape rsub torch_square torch_tanh tmap].
  rewrite Sg, Sn, St, N. rewrite nth_tab by assumption. f_equal.
  rewrite nth_tab by assumption. cbn [numel fold_right tab seq map nth].
  rewrite Dk, Dt. cbn [nth]. f_equal.
  rewrite !(nth_map_in _ _ s0) by now rewrite ?length_map, length_tab.
  now rewrite nth_tab by assumption.
Qed.

(** The weight gradient of [IRLinearFunction.backward]. *)
Lemma IR_grad_weight_block (f : bool) go input kk ta wn g gg x gx kt gk tt gt nt gn
    kv tv n m k (s : state) :
  lookup s go = Some (VTensor g gg) ->
  lookup s input = Some (VTensor x gx) ->
  lookup s kk = Some (VTensor kt gk) ->
  lookup s ta = Some (VTensor tt gt) ->
  lookup s wn = Some (VTensor nt gn) ->
  shape g = [n; m] -> shape x = [n; k] ->
  shape kt = [] -> data kt = [kv] -> shape tt = [] -> data tt = [tv] ->
  shape nt = [m; k] ->
  wp (if f then
        (gt_ <- op1 transpose_last2 go ;;
         grad_weight_b <- op2 matmul gt_ input ;;
         ktt <- (a <- operand (Some ta) ;; op2 mul kk a) ;;
         scaled <- (a <- operand (Some ta) ;; op2 mul a wn) ;;
         th <- op1 (pure1 torch_tanh) scaled ;;
         sq <- op1 (pure1 torch_square) th ;;
         om <- op1 (pure1 (rsub s1)) sq ;;
         grad_binary <- op2 mul ktt om ;;
         r <- op2 mul grad_weight_b grad_binary ;;
         ret (Some r))
      else ret None)
     (fun r s' =>
        extends s s' /\
        grad_slot f s' r (surrogate_grad_weight g x kv tv nt n m k)) s.
Proof.
  intros Lg Lx Lk Lt Ln Sg Sx Sk Dk St Dt Sn. destruct f.
  - eapply transposed_product; [exact Lg|exact Lx|exact Sg|exact Sx|].
    intros gt_ gwb Sgw Hgw.
    destruct (@surrogate_spec kt tt nt gwb kv tv m k Sk Dk St Dt Sn Sgw)
      as (ktt & sc & gbin & y & E1 & E2 & E3 & E4 & Sy & Hy).
    step. step. apply wp_ret. eapply wp_op2; [solve_lookup|solve_lookup|exact E1|].
    step. step. apply wp_ret. eapply wp_op2; [solve_lookup|solve_lookup|exact E2|].
    step. eapply wp_op1; [solve_lookup|reflexivity|].
    step. eapply wp_op1; [solve_lookup|reflexivity|].
    step. eapply wp_op1; [solve_lookup|reflexivity|].
    step. eapply wp_op2; [solve_lookup|solve_lookup|exact E3|].
    step. eapply wp_op2; [solve_lookup|solve_lookup|exact E4|].
    apply wp_ret. split; [intros a v L; solve_lookup|].
    do 2 eexists. split; [reflexivity|]. split; [solve_lookup|].
    split; [exact Sy|].
    intros o i Ho Hi. rewrite Hy by assumption. now rewrite Hgw.
  - apply wp_ret. split; [apply extends_refl|reflexivity].
Qed.

(** The bias gradient of [IRLinearFunction.backward]. *)
Lemma IR_grad_bias_block (bias : option addr) (f : bool) go g gg (s : state) :
  lookup s go = Some (VTensor g gg) ->
  wp (match bias with
      | Some _ =>
          if f then (r <- op1 (pure1 sum0) go ;; ret (Some r)) else ret None
      | None => ret None
      end)
     (fun r s' =>
        extends s s' /\
        grad_slot (match bias with Some _ => f | None => false end) s' r
          (fun y => y = sum0 g)) s.
Proof.
  intros Lg. destruct bias as [b|]; [destruct f|].
  - step. eapply wp_op1; [solve_lookup|reflexivity|].
    apply wp_ret. split; [intros a v L; solve_lookup|].
    do 2 eexists. split; [reflexivity|]. split; [solve_lookup|reflexivity].
  - apply wp_ret. split; [apply extends_refl|reflexivity].
  - apply wp_ret. split; [apply extends_refl|reflexivity].
Qed.

Lemma IR_backward_spec ctx go input wb wn bias ws ta kk
    g gg x gx q gq nt gn kt gk tt gt kv tv n m k (s : state) :
  saved_variables ctx =
    [Some input; Some wb; Some wn; bias; Some ws; Some ta; Some kk] ->
  lookup s go = Some (VTensor g gg) ->
  lookup s input = Some (VTensor x gx) ->
  lookup s wb = Some (VTensor q gq) ->
  lookup s wn = Some (VTensor nt gn) ->
  lookup s kk = Some (VTensor kt gk) ->
  lookup s ta = Some (VTensor tt gt) ->
  shape g = [n; m] -> shape x = [n; k] -> shape q = [m; k] -> shape nt = [m; k] ->
  shape kt = [] -> data kt = [kv] -> shape tt = [] -> data tt = [tv] ->
  wp (IRLinearFunction_backward ctx go)
     (fun r s' =>
        extends s s' /\
        grad_slot (nth 0 (needs_input_grad ctx) false) s' (fst (fst (fst r)))
          (linear_grad_input g q n m k) /\
        grad_slot (nth 1 (needs_input_grad ctx) false) s' (snd (fst (fst r)))
          (surrogate_grad_weight g x kv tv nt n m k) /\
        grad_slot (match bias with
                   | Some _ => nth 2 (needs_input_grad ctx) false
                   | None => false
                   end) s' (snd (fst r))
          (fun y => y = sum0 g) /\
        snd r = None) s.
Proof.
  intros Sv Lg Lx Lq Ln Lk Lt Sg Sx Sq Sn Sk Dk St Dt.
  unfold IRLinearFunction_backward. rewrite Sv.
  step. eapply wp_mono; [eapply grad_input_block; eassumption|].
  intros gi sa (E1 & G1). cbv beta.
  step. eapply wp_mono;
    [eapply IR_grad_weight_block;
       [apply E1, Lg|apply E1, Lx|apply E1, Lk|apply E1, Lt|apply E1, Ln
       |eassumption..]|].
  intros gw sb (E2 & G2). cbv beta.
  step. eapply wp_mono; [eapply IR_grad_bias_block; apply E2, E1, Lg|].
  intros gb sc (E3 & G3). cbv beta.
  apply wp_ret. cbn [fst snd].
  split; [exact (extends_trans (extends_trans E1 E2) E3)|].
  split; [exact (grad_slot_extends _ _ _ (extends_trans E2 E3) G1)|].
  split; [exact (grad_slot_extends _ _ _ E3 G2)|]. split; [exact G3|reflexivity].
Qed.

Ltac fstep :=
  eapply frames_bind;
  [ eapply frames_true;
    first [ apply frames_op1 | apply frames_op2 | apply frames_operand
          | apply frames_cmp | apply frames_or ]
  | intros ? _ ].

(** Whatever the context and the state, the fourth slot of a returned
    gradient tuple is [None]. *)
Lemma frames_IR_backward ctx go :
  frames 0 (IRLinearFunction_backward ctx go) (fun r => snd r = None).
Proof.
  unfold IRLinearFunction_backward.
  destruct (saved_variables ctx)
    as [|[input|] [|[wb|] [|[wn|] [|bias [|[ws|] [|t [|[kk|] [|? ?]]]]]]]];
    try apply frames_raise.
  eapply frames_bind with (Q := fun _ => True).
  { destruct (nth 0 (needs_input_grad ctx) false); [|now apply frames_ret].
    fstep. now apply frames_ret. }
  intros gi _. eapply frames_bind with (Q := fun _ => True).
  { destruct (nth 1 (needs_input_grad ctx) false); [|now apply frames_ret].
    fstep. fstep.
    eapply frames_bind with (Q := fun _ => True);
      [fstep; eapply frames_true, frames_op2|intros ? _].
    eapply frames_bind with (Q := fun _ => True);
      [fstep; eapply frames_true, frames_op2|intros ? _].
    fstep. fstep. fstep. fstep. fstep. now apply frames_ret. }
  intros gw _. eapply frames_bind with (Q := fun _ => True).
  { destruct bias; [|now apply frames_ret].
    destruct (nth 2 (needs_input_grad ctx) false); [|now apply frames_ret].
    fstep. now apply frames_ret. }
  intros gb _. now apply frames_ret.
Qed.

(** ** Theorems on the Scaled-Tanh Binarizer *)

Lemma bind_ok A B (m : M A) (k : A -> M B) (s s' : state) a :
  m s = (Ok a, s') -> bind m k s = k a s'.
Proof. intros E. unfold bind. now rewrite E. Qed.

Lemma op1_run f a x g r (s : state) :
  lookup s a = Some (VTensor x g) -> f x = Ok r ->
  op1 f a s = (Ok (length (heap s)), push s (VTensor r false)).
Proof.
  intros L F. unfold op1, load_tensor, load, bind, lift, new_tensor, alloc, ret.
  now rewrite L, F.
Qed.

Lemma op2_run f a b x y g g' r (s : state) :
  lookup s a = Some (VTensor x g) -> lookup s b = Some (VTensor y g') ->
  f x y = Ok r ->
  op2 f a b s = (Ok (length (heap s)), push s (VTensor r false)).
Proof.
  intros La Lb F. unfold op2, load_tensor, load, bind, lift, new_tensor, alloc, ret.
  now rewrite La, Lb, F.
Qed.

(** C6, as the code has it.  The forward of the Scaled-Tanh Binarizer does
    not validate the temperature.  When [t] is absent ([None]) the call
    raises, with the type error of the division [1/t], after the weight has
    been normalized.  When [t] is a scalar tensor the call returns an
    output, whatever the sign of [t]: zero and negative temperatures are
    accepted like positive ones.  A layer that the constructor returns has
    [t = None]. *)
Theorem IRLinearFunction_forward_temperature :
  (forall ctx input weight bias (s : state) w gw,
     lookup s weight = Some (VTensor w gw) ->
     exists s', IRLinearFunction_forward ctx input weight bias None s
                = (Raise TypeError, s')) /\
  (forall ctx input weight bias ta (s : state) x gx w gw bv gb tt gt tv bs k m,
     lookup s input = Some (VTensor x gx) ->
     lookup s weight = Some (VTensor w gw) ->
     lookup s bias = Some (VTensor bv gb) ->
     lookup s ta = Some (VTensor tt gt) ->
     shape tt = [] -> data tt = [tv] ->
     shape x = bs ++ [k] -> shape w = [m; k] -> shape bv = [m] -> wf w ->
     exists r s', IRLinearFunction_forward ctx input weight (Some bias) (Some ta) s
                  = (Ok r, s')) /\
  (forall inf outf b (s : state), inf <> 0 ->
     exists a s' p, IRLinear_init inf outf b s = (Ok a, s') /\
       lookup s' a = Some (VModule (IRLinear p None))).
Proof.
  split; [|split].
  - intros ctx input weight bias s w gw Lw. unfold IRLinearFunction_forward.
    erewrite bind_ok by (eapply op1_run; [solve_lookup|reflexivity]).
    erewrite bind_ok by (eapply op1_run; [solve_lookup|reflexivity]).
    erewrite bind_ok
      by (eapply op2_run;
          [solve_lookup|solve_lookup|apply broadcast2_scalar_r; reflexivity]).
    erewrite bind_ok
      by (eapply op2_run;
          [solve_lookup|solve_lookup|apply broadcast2_scalar_r; reflexivity]).
    eexists. reflexivity.
  - intros ctx input weight bias ta s x gx w gw bv gb tt gt tv bs k m
      Li Lw Lb Lt St Dt Sx Sw Sb W.
    pose proof (@IR_forward_spec ctx input weight bias ta s x gx w gw bv gb tt gt tv
                  bs k m Li Lw Lb Lt St Dt Sx Sw Sb W) as F.
    apply wp_elim in F. destruct F as (r & s' & E & _). now exists r, s'.
  - intros inf outf b s N.
    pose proof (@IRLinear_init_spec inf outf b s N) as F.
    apply wp_elim in F.
    destruct F as (a & s' & E & _ & _ & _ & _ & p & L & _).
    now exists a, s', p.
Qed.

(** ** The bias gradient *)

(** The sum over the batch of an [n] by [m] matrix is a vector of [m] column
    sums. *)
Lemma sum0_matrix (g : tensor T) n m :
  shape g = [n; m] ->
  shape (sum0 g) = [m] /\
  forall o, o < m ->
    entry1 (sum0 g) o = ssum (tab n (fun b => entry2 g m b o)).
Proof.
  intros Sg. unfold sum0. rewrite Sg. split; [reflexivity|].
  intros o Ho. unfold entry1, entry2. cbn [data numel fold_right].
  rewrite Nat.mul_1_r. now rewrite nth_tab.
Qed.

(** [IRLinearFunction.backward] returns that vector: the rank of the bias. *)
Lemma IR_grad_bias_rank (g : tensor T) n m :
  shape g = [n; m] -> length (shape (sum0 g)) = 1.
Proof. intros Sg. now rewrite (proj1 (@sum0_matrix g n m Sg)). Qed.

(** [BinaryLinearFunction.backward] squeezes it: the value is the same
    unless there is a single output feature, where the result is 0-d. *)
Lemma squeezed_grad_bias (g : tensor T) n m :
  shape g = [n; m] ->
  data (squeeze0 (sum0 g)) = data (sum0 g) /\
  shape (squeeze0 (sum0 g)) = (if m =? 1 then [] else [m]).
Proof.
  intros Sg. destruct (@sum0_matrix g n m Sg) as (Ss & _).
  unfold squeeze0. rewrite Ss.
  destruct m as [|[|m]]; simpl; rewrite ?Ss; auto.
Qed.

(** ** binarizer: lists and dictionaries *)

Lemma set_group_get g blk : set_group g blk (get_group g blk) = blk.
Proof. now destruct g, blk. Qed.

Lemma get_group_set g blk d : get_group g (set_group g blk d) = d.
Proof. now destruct g. Qed.

Lemma set_group_set g blk d d' :
  set_group g (set_group g blk d) d' = set_group g blk d'.
Proof. now destruct g. Qed.

Lemma update_same A (l : list A) i x : nth_error l i = Some x -> update i x l = l.
Proof.
  revert i. induction l as [|y l IH]; intros [|i] E; simpl in *; try congruence.
  now rewrite IH.
Qed.

Lemma update_update A i (x y : A) l : update i y (update i x l) = update i y l.
Proof.
  revert i. induction l as [|z l IH]; intros [|i]; simpl; try reflexivity.
  now rewrite IH.
Qed.

Lemma update_app_length A (done rest : list A) x y :
  update (length done) y (done ++ x :: rest) = done ++ y :: rest.
Proof. induction done as [|z done IH]; simpl; [reflexivity|now rewrite IH]. Qed.

Lemma nth_error_app_length A (done rest : list A) x :
  nth_error (done ++ x :: rest) (length done) = Some x.
Proof. induction done as [|z done IH]; simpl; [reflexivity|exact IH]. Qed.

Lemma dict_set_mid name x a done rest :
  ~ In name (map fst done) ->
  dict_set name x (done ++ (name, a) :: rest) = done ++ (name, x) :: rest.
Proof.
  induction done as [|[k v] done IH]; simpl; intros N.
  - now rewrite String.eqb_refl.
  - destruct (String.eqb k name) eqn:E.
    + apply String.eqb_eq in E. tauto.
    + rewrite IH by tauto. reflexivity.
Qed.

Lemma existsb_eqb_In a l : existsb (Nat.eqb a) l = true <-> In a l.
Proof.
  rewrite existsb_exists. split.
  - intros (x & Hx & E). apply Nat.eqb_eq in E. now subst.
  - intros H. exists a. split; [exact H|apply Nat.eqb_refl].
Qed.

Lemma extends_length (s s' : state) : extends s s' -> length (heap s) <= length (heap s').
Proof.
  intros E. destruct (length (heap s)) as [|n] eqn:L; [lia|].
  destruct (nth_error (heap s) n) as [v|] eqn:N.
  - apply E, lookup_lt in N. lia.
  - apply nth_error_None in N. lia.
Qed.

Lemma linear_at_extends (s s' : state) a :
  a < length (heap s) -> extends s s' -> linear_at s' a = linear_at s a.
Proof.
  intros L E. unfold linear_at.
  destruct (lookup s a) as [v|] eqn:N.
  - now rewrite (E _ _ N).
  - apply nth_error_None in N. lia.
Qed.

Lemma replaced_by_mono wrap (s s' s'' : state) p a :
  extends s' s'' -> replaced_by wrap s s' p a -> replaced_by wrap s s'' p a.
Proof.
  intros E (L & p' & Lp & H). split; [exact L|]. exists p'. split; [now apply E|exact H].
Qed.

Lemma child_ok_mono wrap qk qv kv (s s' s'' : state) n a a' :
  extends s' s'' ->
  child_ok wrap qk qv kv s s' n a a' -> child_ok wrap qk qv kv s s'' n a a'.
Proof.
  intros E. unfold child_ok. destruct (linear_at s a); [|exact (fun H => H)].
  destruct (skipped qk qv kv n); [exact (fun H => H)|]. now apply replaced_by_mono.
Qed.

Lemma children_ok_mono wrap qk qv kv (s s' s'' : state) memo es es' :
  extends s' s'' ->
  children_ok wrap qk qv kv s s' memo es es' ->
  children_ok wrap qk qv kv s s'' memo es es'.
Proof.
  intros E. revert memo es'.
  induction es as [|[n a] es IH]; intros memo [|[n' a'] es']; simpl; try tauto.
  intros (En & H). split; [exact En|].
  destruct (existsb (Nat.eqb a) memo).
  - destruct H as (Ea & H). split; [exact Ea|now apply IH].
  - destruct H as (Hc & H). split; [eapply child_ok_mono; eassumption|now apply IH].
Qed.

Lemma wp_get_block i blk (Q : block -> state -> Prop) (s : state) :
  nth_error (transformer_h s) i = Some blk -> Q blk s -> wp (get_block i) Q s.
Proof. intros E H. unfold wp, get_block. now rewrite E. Qed.

Lemma wp_group_setitem i g name x blk (Q : unit -> state -> Prop) (s : state) :
  nth_error (transformer_h s) i = Some blk ->
  Q tt (set_transformer_h s
          (update i (set_group g blk (dict_set name x (get_group g blk)))
             (transformer_h s))) ->
  wp (group_setitem i g name x) Q s.
Proof.
  intros E H. unfold group_setitem. apply wp_bind.
  eapply wp_get_block; [exact E|]. exact H.
Qed.

(** The construction of the requested layer, for a recognized kind. *)
Lemma wp_construct binarize_layer inf outf b (s : state) :
  binarize_layer = "basic"%string \/ binarize_layer = "ir"%string ->
  inf <> 0 ->
  wp (if String.eqb binarize_layer "basic" then
        (x <- BinarizedLinear_init inf outf true ;; ret (Some x))
      else if String.eqb binarize_layer "ir" then
        (x <- IRLinear_init inf outf true ;; ret (Some x))
      else ret b)
     (fun r s' =>
        exists x, r = Some x /\
          constructed (requested binarize_layer) inf outf true s x s') s.
Proof.
  intros [-> | ->] N; cbn [String.eqb Ascii.eqb Bool.eqb requested].
  - step. eapply wp_mono; [now apply BinarizedLinear_init_spec|].
    intros a s' H. apply wp_ret. now exists a.
  - step. eapply wp_mono; [now apply IRLinear_init_spec|].
    intros a s' H. apply wp_ret. now exists a.
Qed.

Lemma wp_exact_Linear a (Q : option LinearParams -> state -> Prop) (s : state) :
  Q (linear_at s a) s -> wp (exact_Linear a) Q s.
Proof. exact (fun H => H). Qed.

Lemma skipped_false qk qv kv n :
  skipped qk qv kv n = false ->
  kv && String.eqb n "c_attn_q" = false /\
  qv && String.eqb n "c_attn_k" = false /\
  qk && String.eqb n "c_attn_v" = false.
Proof.
  unfold skipped. intros H. apply orb_false_iff in H. destruct H as (H & H3).
  apply orb_false_iff in H. tauto.
Qed.

(** ** binarizer: the loop over the children of a group *)

Lemma replace_children_spec binarize_layer qk qv kv (s : state) i g :
  binarize_layer = "basic"%string \/ binarize_layer = "ir"%string ->
  forall rest done memo b (sc : state) blk,
    nth_error (transformer_h sc) i = Some blk ->
    get_group g blk = done ++ rest ->
    NoDup (map fst (done ++ rest)) ->
    (forall n a, In (n, a) rest -> a < length (heap s)) ->
    (forall n a p, In (n, a) rest -> linear_at s a = Some p -> in_features p <> 0) ->
    extends s sc ->
    wp (replace_children binarize_layer qk qv kv i g rest memo b)
       (fun _ sf =>
          extends sc sf /\
          exists rest',
            transformer_h sf
              = update i (set_group g blk (done ++ rest')) (transformer_h sc) /\
            children_ok (requested binarize_layer) qk qv kv s sf memo rest rest') sc.
Proof.
  intros V. induction rest as [|[n a] rest IH]; intros done memo b sc blk Hb Hg ND Hv Hw Ex.
  - apply wp_ret. split; [apply extends_refl|]. exists []. split; [|exact I].
    rewrite <- Hg, set_group_get. symmetry. now apply update_same.
  - assert (Hg' : get_group g blk = (done ++ [(n, a)]) ++ rest)
      by now rewrite <- app_assoc.
    assert (ND' : NoDup (map fst ((done ++ [(n, a)]) ++ rest)))
      by now rewrite <- app_assoc.
    assert (Hv' : forall n0 a0, In (n0, a0) rest -> a0 < length (heap s))
      by (intros n0 a0 H0; apply (Hv n0 a0); now right).
    assert (Hw' : forall n0 a0 p, In (n0, a0) rest -> linear_at s a0 = Some p ->
                    in_features p <> 0)
      by (intros n0 a0 p H0; apply (Hw n0 a0 p); now right).
    assert (Keep : forall memo' b0,
              wp (replace_children binarize_layer qk qv kv i g rest memo' b0)
                 (fun _ sf =>
                    extends sc sf /\
                    exists rest',
                      transformer_h sf
                        = update i (set_group g blk (done ++ (n, a) :: rest'))
                            (transformer_h sc) /\
                      children_ok (requested binarize_layer) qk qv kv s sf
                        memo' rest rest') sc).
    { intros memo' b0.
      eapply wp_mono; [exact (IH (done ++ [(n, a)]) memo' b0 sc blk Hb Hg' ND' Hv' Hw' Ex)|].
      intros _ sf (E1 & rest' & Ht & Hc). split; [exact E1|]. exists rest'.
      split; [|exact Hc]. now rewrite Ht, <- app_assoc. }
    cbn [replace_children]. destruct (existsb (Nat.eqb a) memo) eqn:Em.
    + eapply wp_mono; [apply Keep|].
      intros _ sf (E1 & rest' & Ht & Hc). split; [exact E1|].
      exists ((n, a) :: rest'). split; [exact Ht|].
      cbn [children_ok]. rewrite Em. auto.
    + step. apply wp_exact_Linear.
      rewrite (linear_at_extends (Hv n a (or_introl eq_refl)) Ex).
      assert (Same : child_ok (requested binarize_layer) qk qv kv s sc n a a ->
                forall b0,
                wp (replace_children binarize_layer qk qv kv i g rest (a :: memo) b0)
                   (fun _ sf =>
                      extends sc sf /\
                      exists rest',
                        transformer_h sf
                          = update i (set_group g blk (done ++ rest'))
                              (transformer_h sc) /\
                        children_ok (requested binarize_layer) qk qv kv s sf
                          memo ((n, a) :: rest) rest') sc).
      { intros Hc0 b0. eapply wp_mono; [apply Keep|].
        intros _ sf (E1 & rest' & Ht & Hc). split; [exact E1|].
        exists ((n, a) :: rest'). split; [exact Ht|].
        cbn [children_ok]. rewrite Em. split; [reflexivity|]. split; [|exact Hc].
        eapply child_ok_mono; eassumption. }
      destruct (linear_at s a) as [p|] eqn:El.
      * destruct (skipped qk qv kv n) eqn:Es.
        -- assert (Hc0 : child_ok (requested binarize_layer) qk qv kv s sc n a a)
             by (unfold child_ok; now rewrite El, Es).
           step. unfold skipped in Es.
           destruct (kv && String.eqb n "c_attn_q");
             [apply wp_ret; now apply Same|].
           destruct (qv && String.eqb n "c_attn_k");
             [apply wp_ret; now apply Same|].
           destruct (qk && String.eqb n "c_attn_v");
             [apply wp_ret; now apply Same|].
           discriminate Es.
        -- destruct (skipped_false _ _ _ _ Es) as (F1 & F2 & F3).
           rewrite F1, F2, F3.
           step. step.
           eapply wp_mono;
             [apply wp_construct; [exact V|exact (Hw n a p (or_introl eq_refl) El)]|].
           intros r s1 (x & -> & X1 & L1 & L1' & Ht1 & p' & Lp & Hi & Ho & Hb').
           cbv beta. step.
           eapply wp_group_setitem; [rewrite Ht1; exact Hb|].
           rewrite Hg, dict_set_mid.
           2:{ rewrite map_app in ND. apply NoDup_remove_2 in ND.
               intros Hin. apply ND. apply in_or_app. now left. }
           apply wp_ret.
           set (blk2 := set_group g blk (done ++ (n, x) :: rest)).
           set (s2 := set_transformer_h s1 (update i blk2 (transformer_h s1))).
           assert (E12 : extends s1 s2) by (intros a0 v0 H0; exact H0).
           assert (Hb2 : nth_error (transformer_h s2) i = Some blk2).
           { unfold s2. cbn [transformer_h set_transformer_h].
             apply nth_error_update_same. rewrite Ht1.
             apply nth_error_Some. congruence. }
           assert (Hg2 : get_group g blk2 = (done ++ [(n, x)]) ++ rest)
             by (unfold blk2; now rewrite get_group_set, <- app_assoc).
           assert (ND2 : NoDup (map fst ((done ++ [(n, x)]) ++ rest))).
           { rewrite <- app_assoc. simpl. rewrite map_app in *. exact ND. }
           assert (Ex2 : extends s s2)
             by (intros a0 v0 H0; apply E12, X1, Ex, H0).
           eapply wp_mono;
             [exact (IH (done ++ [(n, x)]) (a :: memo) (Some x) s2 blk2
                       Hb2 Hg2 ND2 Hv' Hw' Ex2)|].
           intros _ sf (E2 & rest' & Ht & Hc).
           split; [intros a0 v0 H0; apply E2, E12, X1, H0|].
           exists ((n, x) :: rest'). split.
           ++ rewrite Ht. unfold blk2, s2. cbn [transformer_h set_transformer_h].
              rewrite set_group_set, update_update, Ht1, <- app_assoc. reflexivity.
           ++ cbn [children_ok]. rewrite Em. split; [reflexivity|]. split; [|exact Hc].
              unfold child_ok. rewrite El, Es. split.
              ** apply extends_length in Ex. lia.
              ** exists p'. split; [apply E2, E12, Lp|]. auto.
      * step. apply wp_ret. apply Same. unfold child_ok. now rewrite El.
Qed.

(** ** binarizer: the loop over the blocks *)

Lemma binarize_blocks_spec binarize_layer qk qv kv (s : state) :
  binarize_layer = "basic"%string \/ binarize_layer = "ir"%string ->
  forall rest done b (sc : state),
    transformer_h sc = done ++ rest ->
    (forall blk, In blk rest -> group_wf s (mlp blk) /\ group_wf s (attn blk)) ->
    (forall blk n a p, In blk rest -> In (n, a) (mlp blk ++ attn blk) ->
       linear_at s a = Some p -> in_features p <> 0) ->
    extends s sc ->
    wp (binarize_blocks binarize_layer qk qv kv (length rest) (length done) b)
       (fun _ sf =>
          extends sc sf /\
          exists rest',
            transformer_h sf = done ++ rest' /\
            Forall2 (block_ok (requested binarize_layer) qk qv kv s sf) rest rest') sc.
Proof.
  intros V. induction rest as [|blk rest IH]; intros done b sc Ht Hwf Hw Ex.
  - apply wp_ret. split; [apply extends_refl|]. exists []. split; [exact Ht|constructor].
  - cbn [length binarize_blocks].
    destruct (Hwf blk (or_introl eq_refl)) as ((NDm & _ & Vm) & (NDa & _ & Va)).
    assert (Hb : nth_error (transformer_h sc) (length done) = Some blk)
      by (rewrite Ht; apply nth_error_app_length).
    step. eapply wp_get_block; [exact Hb|].
    step. eapply wp_mono.
    { apply (@replace_children_spec binarize_layer qk qv kv s (length done) Mlp V
               (mlp blk) [] [] b sc blk Hb eq_refl NDm Vm).
      - intros n a p Hin. apply (Hw blk n a p (or_introl eq_refl)).
        apply in_or_app. now left.
      - exact Ex. }
    intros b1 sa (E1 & mlp' & Ht1 & Hc1). cbv beta.
    cbn [app] in Ht1. rewrite Ht, update_app_length in Ht1.
    set (blk1 := set_group Mlp blk mlp') in *.
    assert (Hb1 : nth_error (transformer_h sa) (length done) = Some blk1)
      by (rewrite Ht1; apply nth_error_app_length).
    step. eapply wp_get_block; [exact Hb1|].
    step. eapply wp_mono.
    { apply (@replace_children_spec binarize_layer qk qv kv s (length done) Attn V
               (attn blk) [] [] b1 sa blk1 Hb1 eq_refl NDa Va).
      - intros n a p Hin. apply (Hw blk n a p (or_introl eq_refl)).
        apply in_or_app. now right.
      - intros a0 v0 H0. apply E1, Ex, H0. }
    intros b2 sb (E2 & attn' & Ht2 & Hc2). cbv beta.
    cbn [app] in Ht2. rewrite Ht1, update_app_length in Ht2.
    set (blk2 := set_group Attn blk1 attn') in *.
    assert (Ht2' : transformer_h sb = (done ++ [blk2]) ++ rest)
      by now rewrite <- app_assoc.
    replace (S (length done)) with (length (done ++ [blk2]))
      by (rewrite length_app; simpl; lia).
    eapply wp_mono.
    { apply (IH (done ++ [blk2]) b2 sb Ht2').
      - intros blk0 H0. apply Hwf. now right.
      - intros blk0 n a p H0. apply Hw. now right.
      - intros a0 v0 H0. apply E2, E1, Ex, H0. }
    intros _ sf (E3 & rest' & Ht3 & HF).
    split; [intros a0 v0 H0; apply E3, E2, E1, H0|].
    exists (blk2 :: rest'). split; [now rewrite Ht3, <- app_assoc|].
    constructor; [|exact HF]. split.
    + eapply children_ok_mono; [|exact Hc1].
      intros a0 v0 H0. apply E3, E2, H0.
    + eapply children_ok_mono; [exact E3|exact Hc2].
Qed.

Lemma binarizer_spec binarize_layer qk qv kv (s : state) :
  binarize_layer = "basic"%string \/ binarize_layer = "ir"%string ->
  model_wf s -> widths_positive s ->
  wp (binarizer binarize_layer qk qv kv)
     (fun _ sf =>
        extends s sf /\
        Forall2 (block_ok (requested binarize_layer) qk qv kv s sf)
          (transformer_h s) (transformer_h sf)) s.
Proof.
  intros V Hwf Hw. unfold binarizer.
  change (wp (binarize_blocks binarize_layer qk qv kv (length (transformer_h s))
                (@length block []) None ;;; ret tt)
            (fun _ sf =>
               extends s sf /\
               Forall2 (block_ok (requested binarize_layer) qk qv kv s sf)
                 (transformer_h s) (transformer_h sf)) s).
  step. eapply wp_mono.
  { apply (@binarize_blocks_spec binarize_layer qk qv kv s V (transformer_h s) []
             None s eq_refl).
    - intros blk H. now apply Hwf.
    - intros blk n a p H. now apply Hw.
    - apply extends_refl. }
  intros _ sf (E & rest' & Ht & HF). apply wp_ret. split; [exact E|].
  now rewrite Ht.
Qed.

(** ** binarizer: nothing to replace *)

Lemma replace_children_nothing binarize_layer qk qv kv i g (s : state) :
  forall rest memo b,
    nothing_to_replace qk qv kv s rest ->
    replace_children binarize_layer qk qv kv i g rest memo b s = (Ok b, s).
Proof.
  induction rest as [|[n a] rest IH]; intros memo b H; [reflexivity|].
  assert (H' : nothing_to_replace qk qv kv s rest)
    by (intros n0 a0 H0; apply (H n0 a0); now right).
  cbn [replace_children]. destruct (existsb (Nat.eqb a) memo); [now apply IH|].
  unfold bind at 1, exact_Linear.
  destruct (H n a (or_introl eq_refl)) as [El|Es].
  - rewrite El. unfold bind at 1, ret. now apply IH.
  - destruct (linear_at s a); [|unfold bind at 1, ret; now apply IH].
    unfold skipped in Es.
    destruct (kv && String.eqb n "c_attn_q");
      [unfold bind at 1, ret; now apply IH|].
    destruct (qv && String.eqb n "c_attn_k");
      [unfold bind at 1, ret; now apply IH|].
    destruct (qk && String.eqb n "c_attn_v");
      [unfold bind at 1, ret; now apply IH|].
    discriminate Es.
Qed.

Lemma binarize_blocks_nothing binarize_layer qk qv kv (s : state) :
  forall rest done b,
    transformer_h s = done ++ rest ->
    (forall blk, In blk rest ->
       nothing_to_replace qk qv kv s (mlp blk) /\
       nothing_to_replace qk qv kv s (attn blk)) ->
    binarize_blocks binarize_layer qk qv kv (length rest) (length done) b s = (Ok b, s).
Proof.
  induction rest as [|blk rest IH]; intros done b Ht H; [reflexivity|].
  cbn [length binarize_blocks].
  destruct (H blk (or_introl eq_refl)) as (Hm & Ha).
  assert (Hb : get_block (length done) s = (Ok blk, s))
    by (unfold get_block; now rewrite Ht, nth_error_app_length).
  erewrite bind_ok by exact Hb.
  erewrite bind_ok by (apply replace_children_nothing; exact Hm).
  erewrite bind_ok by exact Hb.
  erewrite bind_ok by (apply replace_children_nothing; exact Ha).
  replace (S (length done)) with (length (done ++ [blk]))
    by (rewrite length_app; simpl; lia).
  apply IH; [now rewrite <- app_assoc|].
  intros blk0 H0. apply H. now right.
Qed.

(** ** binarizer: child by child *)

Lemma children_ok_pointwise wrap qk qv kv (s s' : state) :
  forall es es' memo,
    children_ok wrap qk qv kv s s' memo es es' ->
    length es' = length es /\
    forall j n a, nth_error es j = Some (n, a) ->
      exists a', nth_error es' j = Some (n, a') /\
        (In a memo \/ In a (map snd (firstn j es)) -> a' = a) /\
        (~ (In a memo \/ In a (map snd (firstn j es))) ->
         child_ok wrap qk qv kv s s' n a a').
Proof.
  induction es as [|[n0 a0] es IH]; intros [|[n0' a0'] es'] memo H;
    simpl in H; try contradiction.
  - split; [reflexivity|]. intros [|j] n a E; discriminate E.
  - destruct H as (-> & H).
    destruct (existsb (Nat.eqb a0) memo) eqn:Em.
    + destruct H as (-> & H). destruct (IH es' memo H) as (L & P).
      split; [simpl; now rewrite L|].
      intros [|j] n a E; simpl in E.
      * injection E as -> ->. exists a. split; [reflexivity|]. split; [reflexivity|].
        intros N. exfalso. apply N. left. now apply existsb_eqb_In.
      * destruct (P j n a E) as (a' & E' & P1 & P2). exists a'.
        split; [exact E'|]. simpl. split.
        -- intros [Hm|[->|Hf]]; apply P1; auto.
           left. now apply existsb_eqb_In.
        -- intros N. apply P2. intros [Hm|Hf]; apply N; auto.
    + destruct H as (Hc & H). destruct (IH es' (a0 :: memo) H) as (L & P).
      split; [simpl; now rewrite L|].
      intros [|j] n a E; simpl in E.
      * injection E as -> ->. exists a0'. split; [reflexivity|]. split.
        -- intros [Hm|[]]. apply existsb_eqb_In in Hm. congruence.
        -- intros _. exact Hc.
      * destruct (P j n a E) as (a' & E' & P1 & P2). exists a'.
        split; [exact E'|]. simpl. split.
        -- intros [Hm|[->|Hf]]; apply P1; simpl; auto.
        -- intros N. apply P2. simpl. intros [[->|Hm]|Hf]; apply N; auto.
Qed.

Lemma nth_error_not_before A (l : list A) j x :
  NoDup l -> nth_error l j = Some x -> ~ In x (firstn j l).
Proof.
  revert j. induction l as [|y l IH]; intros [|j] ND E; simpl in *;
    try discriminate; try tauto.
  inversion ND as [|? ? Hy ND']; subst. intros [->|H].
  - apply Hy. eapply nth_error_In; eassumption.
  - now apply (IH j ND' E).
Qed.

Lemma children_ok_surgery_at wrap qk qv kv (s s' : state) es es' :
  NoDup (map snd es) ->
  children_ok wrap qk qv kv s s' [] es es' -> surgery_at wrap qk qv kv s s' es es'.
Proof.
  intros ND H. destruct (children_ok_pointwise _ _ _ _ _ _ _ _ _ H) as (L & P).
  split; [exact L|]. intros j n a E. destruct (P j n a E) as (a' & E' & _ & P2).
  exists a'. split; [exact E'|]. apply P2. intros [[]|Hf].
  rewrite <- firstn_map in Hf. revert Hf. apply nth_error_not_before; [exact ND|].
  now rewrite nth_error_map, E.
Qed.

Lemma Forall2_nth_error A B (R : A -> B -> Prop) l l' i x :
  Forall2 R l l' -> nth_error l i = Some x ->
  exists y, nth_error l' i = Some y /\ R x y.
Proof.
  intros F. revert i. induction F as [|a b l l' Hab F IH]; intros [|i] E;
    simpl in E; try discriminate.
  - injection E as ->. now exists b.
  - now apply IH.
Qed.

(** ** Theorems on the model surgery *)

(** C8, as the code has it.  Let [binarize_layer] be "basic" or "ir", the
    model be well formed (every group is a dictionary whose children are
    distinct objects: no layer is registered under two names of a group),
    and every dense sub-layer have at least one input feature.  Then the
    surgery returns, leaves every object that existed as
    it was, keeps the number of blocks and, in every block, for the group
    "mlp" and for the group "attn" independently, keeps the number, order
    and names of the children and treats the child at each position so: a
    child whose exact type is the dense linear layer (a wrapper is not) and
    that is not skipped (named "c_attn_q" with [kv_only], "c_attn_k" with
    [qv_only], "c_attn_v" with [qk_only]) is replaced at its position by a
    layer created by the call, of the requested type, with the same
    [in_features] and [out_features] and with a bias; every other child,
    a skipped one included, is the same object as before. *)
Theorem binarizer_replaces_dense_layers binarize_layer qk_only qv_only kv_only
    (s : state) :
  binarize_layer = "basic"%string \/ binarize_layer = "ir"%string ->
  model_wf s -> widths_positive s ->
  exists s',
    binarizer binarize_layer qk_only qv_only kv_only s = (Ok tt, s') /\
    extends s s' /\
    length (transformer_h s') = length (transformer_h s) /\
    forall i blk, nth_error (transformer_h s) i = Some blk ->
      exists blk',
        nth_error (transformer_h s') i = Some blk' /\
        surgery_at (requested binarize_layer) qk_only qv_only kv_only s s'
          (mlp blk) (mlp blk') /\
        surgery_at (requested binarize_layer) qk_only qv_only kv_only s s'
          (attn blk) (attn blk').
Proof.
  intros V Hwf Hw.
  pose proof (@binarizer_spec binarize_layer qk_only qv_only kv_only s V Hwf Hw) as F.
  apply wp_elim in F. destruct F as ([] & s' & E & X & HF).
  exists s'. split; [exact E|]. split; [exact X|].
  split; [symmetry; eapply Forall2_length; exact HF|].
  intros i blk Hi.
  destruct (Forall2_nth_error _ HF Hi) as (blk' & Hi' & Hm & Ha).
  destruct (Hwf blk (nth_error_In _ _ Hi)) as ((_ & Dm & _) & (_ & Da & _)).
  exists blk'. split; [exact Hi'|].
  split; now apply children_ok_surgery_at.
Qed.

(** * Further properties *)

(** ** The gradients after a forward call *)

(** A forward call of the Sign Binarizer followed by the backward call on
    its context: both return, and each slot of the gradient tuple is
    described by its [grad_slot]. *)
Lemma forward_backward_spec ctx input weight bias go (s : state)
    x gx w gw bv gb g gg n k m :
  lookup s input = Some (VTensor x gx) ->
  lookup s weight = Some (VTensor w gw) ->
  lookup s bias = Some (VTensor bv gb) ->
  lookup s go = Some (VTensor g gg) ->
  shape x = [n; k] -> shape w = [m; k] -> shape bv = [m] -> shape g = [n; m] ->
  wf w ->
  exists ctx' output sf gi gw_ gb_ sb,
    BinaryLinearFunction_forward ctx input weight (Some bias) s
      = (Ok (ctx', output), sf) /\
    BinaryLinearFunction_backward ctx' go sf = (Ok (gi, gw_, gb_), sb) /\
    extends s sb /\
    grad_slot (nth 0 (needs_input_grad ctx) false) sb gi
      (linear_grad_input g (torch_sign w) n m k) /\
    grad_slot (nth 1 (needs_input_grad ctx) false) sb gw_
      (masked_grad_weight g x (saved_mask w) n m k) /\
    grad_slot (nth 2 (needs_input_grad ctx) false) sb gb_
      (fun y => y = squeeze0 (sum0 g)).
Proof.
  intros Li Lw Lb Lg Sx Sw Sb Sg W.
  pose proof (@forward_spec ctx input weight bias s x gx w gw bv gb [n] k m
                Li Lw Lb Sx Sw Sb W) as F.
  apply wp_elim in F.
  destruct F as ([ctx' output] & sf & E & wq & mk & y0 & Ec & X1 & Lq & Lm & _).
  cbn [fst snd] in *. subst ctx'.
  assert (Sm : shape (saved_mask w) = [m; k]) by exact Sw.
  assert (Sq : shape (torch_sign w) = [m; k]) by exact Sw.
  pose proof (@backward_spec
                (save_for_backward ctx [Some input; Some wq; Some mk; Some bias])
                go input wq mk (Some bias) g gg x gx (torch_sign w) false
                (saved_mask w) n m k sf eq_refl (X1 _ _ Lg) (X1 _ _ Li) Lq Lm
                Sg Sx Sq Sm) as B.
  apply wp_elim in B.
  destruct B as ([[gi gw_] gb_] & sb & E2 & X2 & G1 & G2 & G3).
  cbn [fst snd save_for_backward needs_input_grad] in *.
  eexists _, output, sf, gi, gw_, gb_, sb.
  split; [exact E|]. split; [exact E2|].
  split; [exact (extends_trans X1 X2)|]. auto.
Qed.

(** The input gradient of the Sign Binarizer.  When the input needs a
    gradient, the backward call that follows a forward call returns
    [grad_output . weight_q] with [weight_q = sign(weight)]: a tensor of the
    shape of the input whose entry [(b, i)] is the sum over the output
    features [o] of [grad_output(b,o) * sign(weight(o,i))]. *)
Theorem BinaryLinearFunction_backward_grad_input
    ctx input weight bias go (s : state) x gx w gw bv gb g gg n k m :
  lookup s input = Some (VTensor x gx) ->
  lookup s weight = Some (VTensor w gw) ->
  lookup s bias = Some (VTensor bv gb) ->
  lookup s go = Some (VTensor g gg) ->
  shape x = [n; k] -> shape w = [m; k] -> shape bv = [m] -> shape g = [n; m] ->
  wf w ->
  nth 0 (needs_input_grad ctx) false = true ->
  exists ctx' output sf grad_input grad_weight grad_bias sb y,
    BinaryLinearFunction_forward ctx input weight (Some bias) s
      = (Ok (ctx', output), sf) /\
    BinaryLinearFunction_backward ctx' go sf
      = (Ok (Some grad_input, grad_weight, grad_bias), sb) /\
    lookup sb grad_input = Some (VTensor y false) /\
    shape y = [n; k] /\
    forall b i, b < n -> i < k ->
      entry2 y k b i
      = dot m (fun o => entry2 g m b o) (fun o => sign (entry2 w k o i)).
Proof.
  intros Li Lw Lb Lg Sx Sw Sb Sg W N0.
  destruct (@forward_backward_spec ctx input weight bias go s x gx w gw bv gb g gg
              n k m Li Lw Lb Lg Sx Sw Sb Sg W)
    as (ctx' & output & sf & gi & gw_ & gb_ & sb & E & E2 & _ & G1 & _).
  rewrite N0 in G1. destruct G1 as (a & y & -> & Ly & Sy & Hy).
  exists ctx', output, sf, a, gw_, gb_, sb, y.
  split; [exact E|]. split; [exact E2|]. split; [exact Ly|]. split; [exact Sy|].
  intros b i Hb Hi. rewrite Hy by assumption.
  apply dot_ext; intros o Ho; [reflexivity|]. now apply (entry2_torch_sign W Sw).
Qed.

(** The bias gradient of the Sign Binarizer, for an input that is a batch
    of [n] rows (a matrix) and a gradient of the shape [[n; m]] of the
    output.  When the bias needs a gradient, the backward call that follows
    a forward call returns the sums of [grad_output] over the batch, one per
    output feature; [squeeze(0)] leaves the shape [[m]] of the bias, except
    for a single output feature, where the result is 0-d. *)
Theorem BinaryLinearFunction_backward_grad_bias
    ctx input weight bias go (s : state) x gx w gw bv gb g gg n k m :
  lookup s input = Some (VTensor x gx) ->
  lookup s weight = Some (VTensor w gw) ->
  lookup s bias = Some (VTensor bv gb) ->
  lookup s go = Some (VTensor g gg) ->
  shape x = [n; k] -> shape w = [m; k] -> shape bv = [m] -> shape g = [n; m] ->
  wf w ->
  nth 2 (needs_input_grad ctx) false = true ->
  exists ctx' output sf grad_input grad_weight grad_bias sb y,
    BinaryLinearFunction_forward ctx input weight (Some bias) s
      = (Ok (ctx', output), sf) /\
    BinaryLinearFunction_backward ctx' go sf
      = (Ok (grad_input, grad_weight, Some grad_bias), sb) /\
    lookup sb grad_bias = Some (VTensor y false) /\
    shape y = (if m =? 1 then [] else [m]) /\
    forall o, o < m -> entry1 y o = batch_sum g n m o.
Proof.
  intros Li Lw Lb Lg Sx Sw Sb Sg W N2.
  destruct (@forward_backward_spec ctx input weight bias go s x gx w gw bv gb g gg
              n k m Li Lw Lb Lg Sx Sw Sb Sg W)
    as (ctx' & output & sf & gi & gw_ & gb_ & sb & E & E2 & _ & _ & _ & G3).
  rewrite N2 in G3. destruct G3 as (a & y & -> & Ly & ->).
  destruct (@squeezed_grad_bias g n m Sg) as (Ed & Es).
  destruct (@sum0_matrix g n m Sg) as (_ & Hs).
  exists ctx', output, sf, gi, gw_, a, sb, (squeeze0 (sum0 g)).
  split; [exact E|]. split; [exact E2|]. split; [exact Ly|]. split; [exact Es|].
  intros o Ho. unfold entry1. rewrite Ed. now apply Hs.
Qed.

(** The same for the Scaled-Tanh Binarizer. *)
Lemma IR_forward_backward_spec ctx input weight bias ta go (s : state)
    x gx w gw bv gb tt gt g gg tv n k m :
  lookup s input = Some (VTensor x gx) ->
  lookup s weight = Some (VTensor w gw) ->
  lookup s bias = Some (VTensor bv gb) ->
  lookup s ta = Some (VTensor tt gt) ->
  lookup s go = Some (VTensor g gg) ->
  shape tt = [] -> data tt = [tv] ->
  shape x = [n; k] -> shape w = [m; k] -> shape bv = [m] -> shape g = [n; m] ->
  wf w ->
  exists ctx' output sf gi gw_ gb_ gt_ sb qb nt,
    IRLinearFunction_forward ctx input weight (Some bias) (Some ta) s
      = (Ok (ctx', output), sf) /\
    IRLinearFunction_backward ctx' go sf = (Ok (gi, gw_, gb_, gt_), sb) /\
    extends s sb /\
    shape qb = [m; k] /\
    (forall o i, o < m -> i < k ->
       entry2 qb k o i = spec_quant tv (data w) (entry2 w k o i)) /\
    (forall o i, o < m -> i < k ->
       entry2 nt k o i = spec_norm (data w) (entry2 w k o i)) /\
    grad_slot (nth 0 (needs_input_grad ctx) false) sb gi
      (linear_grad_input g qb n m k) /\
    grad_slot (nth 1 (needs_input_grad ctx) false) sb gw_
      (surrogate_grad_weight g x (spec_k tv) tv nt n m k) /\
    grad_slot (nth 2 (needs_input_grad ctx) false) sb gb_ (fun y => y = sum0 g).
Proof.
  intros Li Lw Lb Lt Lg St Dt Sx Sw Sb Sg W.
  pose proof (@IR_forward_spec ctx input weight bias ta s x gx w gw bv gb tt gt tv
                [n] k m Li Lw Lb Lt St Dt Sx Sw Sb W) as F.
  apply wp_elim in F.
  destruct F as ([ctx' output] & sf & E & wb & wn & ws & kk & qb & nt & y0 & Ec & X1
                 & Lq & Sq & Hq & Ln & Sn & Hn & _ & Lk & _).
  cbn [fst snd] in *. subst ctx'.
  pose proof (@IR_backward_spec
                (save_for_backward ctx
                   [Some input; Some wb; Some wn; Some bias; Some ws; Some ta; Some kk])
                go input wb wn (Some bias) ws ta kk
                g gg x gx qb false nt false (mkT [] [spec_k tv]) false tt gt
                (spec_k tv) tv n m k sf eq_refl
                (X1 _ _ Lg) (X1 _ _ Li) Lq Ln Lk (X1 _ _ Lt)
                Sg Sx Sq Sn eq_refl eq_refl St Dt) as B.
  apply wp_elim in B.
  destruct B as ([[[gi gw_] gb_] gt_] & sb & E2 & X2 & G1 & G2 & G3 & _).
  cbn [fst snd save_for_backward needs_input_grad] in *.
  eexists _, output, sf, gi, gw_, gb_, gt_, sb, qb, nt.
  split; [exact E|]. split; [exact E2|].
  split; [exact (extends_trans X1 X2)|]. split; [exact Sq|].
  split; [intros o i Ho Hi; apply Hq; now apply index_lt|].
  split; [intros o i Ho Hi; apply Hn; now apply index_lt|]. auto.
Qed.

(** The input gradient of the Scaled-Tanh Binarizer.  When the input needs
    a gradient, the backward call that follows a forward call returns
    [grad_output . weight_q]: a tensor of the shape of the input whose entry
    [(b, i)] is the sum over the output features [o] of
    [grad_output(b,o) * weight_q(o,i)], with
    [weight_q = k * tanh(t * weight_norm)] the quantized weight of forward. *)
Theorem IRLinearFunction_backward_grad_input
    ctx input weight bias ta go (s : state) x gx w gw bv gb tt gt g gg tv n k m :
  lookup s input = Some (VTensor x gx) ->
  lookup s weight = Some (VTensor w gw) ->
  lookup s bias = Some (VTensor bv gb) ->
  lookup s ta = Some (VTensor tt gt) ->
  lookup s go = Some (VTensor g gg) ->
  shape tt = [] -> data tt = [tv] ->
  shape x = [n; k] -> shape w = [m; k] -> shape bv = [m] -> shape g = [n; m] ->
  wf w ->
  nth 0 (needs_input_grad ctx) false = true ->
  exists ctx' output sf grad_input grad_weight grad_bias grad_t sb y,
    IRLinearFunction_forward ctx input weight (Some bias) (Some ta) s
      = (Ok (ctx', output), sf) /\
    IRLinearFunction_backward ctx' go sf
      = (Ok (Some grad_input, grad_weight, grad_bias, grad_t), sb) /\
    lookup sb grad_input = Some (VTensor y false) /\
    shape y = [n; k] /\
    forall b i, b < n -> i < k ->
      entry2 y k b i
      = dot m (fun o => entry2 g m b o)
              (fun o => spec_quant tv (data w) (entry2 w k o i)).
Proof.
  intros Li Lw Lb Lt Lg St Dt Sx Sw Sb Sg W N0.
  destruct (@IR_forward_backward_spec ctx input weight bias ta go s x gx w gw bv gb
              tt gt g gg tv n k m Li Lw Lb Lt Lg St Dt Sx Sw Sb Sg W)
    as (ctx' & output & sf & gi & gw_ & gb_ & gt_ & sb & qb & nt & E & E2 & _ & _ & Hq
        & _ & G1 & _).
  rewrite N0 in G1. destruct G1 as (a & y & -> & Ly & Sy & Hy).
  exists ctx', output, sf, a, gw_, gb_, gt_, sb, y.
  split; [exact E|]. split; [exact E2|]. split; [exact Ly|]. split; [exact Sy|].
  intros b i Hb Hi. rewrite Hy by assumption.
  apply dot_ext; intros o Ho; [reflexivity|]. now apply Hq.
Qed.

(** The bias gradient of the Scaled-Tanh Binarizer, for an input that is a
    batch of [n] rows (a matrix) and a gradient of the shape [[n; m]] of the
    output.  When the bias needs a gradient, the backward call that follows
    a forward call returns the sums of [grad_output] over the batch as a
    vector of the shape [[m]] of the bias, for every number [m] of output
    features, a single one included. *)
Theorem IRLinearFunction_backward_grad_bias
    ctx input weight bias ta go (s : state) x gx w gw bv gb tt gt g gg tv n k m :
  lookup s input = Some (VTensor x gx) ->
  lookup s weight = Some (VTensor w gw) ->
  lookup s bias = Some (VTensor bv gb) ->
  lookup s ta = Some (VTensor tt gt) ->
  lookup s go = Some (VTensor g gg) ->
  shape tt = [] -> data tt = [tv] ->
  shape x = [n; k] -> shape w = [m; k] -> shape bv = [m] -> shape g = [n; m] ->
  wf w ->
  nth 2 (needs_input_grad ctx) false = true ->
  exists ctx' output sf grad_input grad_weight grad_bias grad_t sb y,
    IRLinearFunction_forward ctx input weight (Some bias) (Some ta) s
      = (Ok (ctx', output), sf) /\
    IRLinearFunction_backward ctx' go sf
      = (Ok (grad_input, grad_weight, Some grad_bias, grad_t), sb) /\
    lookup sb grad_bias = Some (VTensor y false) /\
    shape y = shape bv /\
    forall o, o < m -> entry1 y o = batch_sum g n m o.
Proof.
  intros Li Lw Lb Lt Lg St Dt Sx Sw Sb Sg W N2.
  destruct (@IR_forward_backward_spec ctx input weight bias ta go s x gx w gw bv gb
              tt gt g gg tv n k m Li Lw Lb Lt Lg St Dt Sx Sw Sb Sg W)
    as (ctx' & output & sf & gi & gw_ & gb_ & gt_ & sb & qb & nt & E & E2 & _ & _ & _
        & _ & _ & _ & G3).
  rewrite N2 in G3. destruct G3 as (a & y & -> & Ly & ->).
  destruct (@sum0_matrix g n m Sg) as (Ss & Hs).
  exists ctx', output, sf, gi, gw_, a, gt_, sb, (sum0 g).
  split; [exact E|]. split; [exact E2|]. split; [exact Ly|].
  split; [now rewrite Ss, Sb|exact Hs].
Qed.

(** ** The slots of the gradient tuple *)

Lemma frames_imasked_fill n a m v :
  n <= a -> frames n (imasked_fill a m v : M unit) (fun _ => True).
Proof.
  intros Ha. unfold imasked_fill.
  eapply frames_bind; [apply frames_load_tensor|]. intros x _.
  eapply frames_bind; [apply frames_load_mask|]. intros y _.
  eapply frames_bind; [apply frames_lift_true|]. intros r _.
  now apply frames_store_tensor.
Qed.

Lemma slot_of_Some n a : n <= a -> slot_of true n (Some a).
Proof.
  intros Ha. split.
  - split; discriminate.
  - intros b E. injection E as <-. exact Ha.
Qed.

Lemma slot_of_None n : slot_of false n None.
Proof. split; [split; reflexivity|discriminate]. Qed.

(** A gradient computed only when its flag is on. *)
Lemma frames_slot (f : bool) n (m : M (option addr)) :
  frames n m (slot_of true n) ->
  frames n (if f then m else ret None) (slot_of f n).
Proof.
  intros H. destruct f; [exact H|]. apply frames_ret, slot_of_None.
Qed.

Lemma frames_returned n (m : M addr) :
  frames n m (fun a => n <= a) ->
  frames n (g <- m ;; ret (Some g)) (slot_of true n).
Proof.
  intros H. eapply frames_bind; [exact H|].
  intros a Ha. now apply frames_ret, slot_of_Some.
Qed.

(** The flag of the bias slot: the bias is present and needs a gradient. *)
Lemma frames_bias_slot (bias : option addr) (f : bool) n (m : M (option addr)) :
  frames n m (slot_of true n) ->
  frames n (match bias with
            | Some _ => if f then m else ret None
            | None => ret None
            end)
    (slot_of (match bias with Some _ => f | None => false end) n).
Proof.
  intros H. destruct bias; [now apply frames_slot|]. apply frames_ret, slot_of_None.
Qed.

Lemma frames_Binary_backward n ctx go :
  frames n (BinaryLinearFunction_backward ctx go)
    (fun r =>
       slot_of (nth 0 (needs_input_grad ctx) false) n (fst (fst r)) /\
       slot_of (nth 1 (needs_input_grad ctx) false) n (snd (fst r)) /\
       slot_of (match nth 3 (saved_variables ctx) None with
                | Some _ => nth 2 (needs_input_grad ctx) false
                | None => false
                end) n (snd r)).
Proof.
  unfold BinaryLinearFunction_backward.
  destruct (saved_variables ctx)
    as [|[input|] [|[wq|] [|[mk|] [|bias [|? ?]]]]]; try apply frames_raise.
  cbn [nth].
  eapply frames_bind.
  { apply frames_slot, frames_returned, frames_op2. }
  intros gi Hi. eapply frames_bind.
  { apply frames_slot.
    eapply frames_bind; [apply frames_op1|]. intros gt_ _.
    eapply frames_bind; [apply frames_op2|]. intros g Hg.
    eapply frames_bind; [now apply frames_imasked_fill|]. intros _ _.
    now apply frames_ret, slot_of_Some. }
  intros gw Hw. eapply frames_bind.
  { apply frames_bias_slot.
    eapply frames_bind; [apply frames_op1|]. intros sm _.
    apply frames_returned, frames_op1. }
  intros gb Hb. apply frames_ret. cbn [fst snd]. auto.
Qed.

Lemma frames_IR_backward_slots n ctx go :
  frames n (IRLinearFunction_backward ctx go)
    (fun r =>
       slot_of (nth 0 (needs_input_grad ctx) false) n (fst (fst (fst r))) /\
       slot_of (nth 1 (needs_input_grad ctx) false) n (snd (fst (fst r))) /\
       slot_of (match nth 3 (saved_variables ctx) None with
                | Some _ => nth 2 (needs_input_grad ctx) false
                | None => false
                end) n (snd (fst r))).
Proof.
  unfold IRLinearFunction_backward.
  destruct (saved_variables ctx)
    as [|[input|] [|[wb|] [|[wn|] [|bias [|[ws|] [|t [|[kk|] [|? ?]]]]]]]];
    try apply frames_raise.
  cbn [nth].
  eapply frames_bind.
  { apply frames_slot, frames_returned, frames_op2. }
  intros gi Hi. eapply frames_bind.
  { apply frames_slot.
    fstep. fstep.
    eapply frames_bind with (Q := fun _ => True);
      [fstep; eapply frames_true, frames_op2|intros ? _].
    eapply frames_bind with (Q := fun _ => True);
      [fstep; eapply frames_true, frames_op2|intros ? _].
    fstep. fstep. fstep. fstep.
    apply frames_returned, frames_op2. }
  intros gw Hw. eapply frames_bind.
  { apply frames_bias_slot, frames_returned, frames_op1. }
  intros gb Hb. apply frames_ret. cbn [fst snd]. auto.
Qed.

Lemma slot_of_bias (bias : option addr) (f : bool) n r :
  slot_of (match bias with Some _ => f | None => false end) n r ->
  (r = None <-> bias = None \/ f = false).
Proof.
  intros (H & _). rewrite H. destruct bias, f; split; intros; auto; try tauto;
    destruct H0; congruence.
Qed.

(** No gradient where none is needed.  In every tuple that a backward pass
    returns, whatever the context, the gradient of the output and the state,
    the slot of the input is [None] exactly when [needs_input_grad[0]] is
    off, the slot of the weight exactly when [needs_input_grad[1]] is off,
    and the slot of the bias exactly when there is no saved bias or
    [needs_input_grad[2]] is off: absence is signalled by [None], not by a
    tensor of zeros.  When no flag is on, backward returns the tuple of
    [None]s without reading or creating any object. *)
Theorem backward_gradient_slots :
  (forall ctx go (s : state) gi gw gb s',
     BinaryLinearFunction_backward ctx go s = (Ok (gi, gw, gb), s') ->
     (gi = None <-> nth 0 (needs_input_grad ctx) false = false) /\
     (gw = None <-> nth 1 (needs_input_grad ctx) false = false) /\
     (gb = None <-> nth 3 (saved_variables ctx) None = None \/
                    nth 2 (needs_input_grad ctx) false = false)) /\
  (forall ctx go (s : state) gi gw gb gt s',
     IRLinearFunction_backward ctx go s = (Ok (gi, gw, gb, gt), s') ->
     (gi = None <-> nth 0 (needs_input_grad ctx) false = false) /\
     (gw = None <-> nth 1 (needs_input_grad ctx) false = false) /\
     (gb = None <-> nth 3 (saved_variables ctx) None = None \/
                    nth 2 (needs_input_grad ctx) false = false)) /\
  (forall ctx go (s : state) input wq mk bias,
     saved_variables ctx = [Some input; Some wq; Some mk; bias] ->
     nth 0 (needs_input_grad ctx) false = false ->
     nth 1 (needs_input_grad ctx) false = false ->
     nth 2 (needs_input_grad ctx) false = false ->
     BinaryLinearFunction_backward ctx go s = (Ok (None, None, None), s)) /\
  (forall ctx go (s : state) input wb wn bias ws t kk,
     saved_variables ctx
       = [Some input; Some wb; Some wn; bias; Some ws; t; Some kk] ->
     nth 0 (needs_input_grad ctx) false = false ->
     nth 1 (needs_input_grad ctx) false = false ->
     nth 2 (needs_input_grad ctx) false = false ->
     IRLinearFunction_backward ctx go s = (Ok (None, None, None, None), s)).
Proof.
  split; [|split; [|split]].
  - intros ctx go s gi gw gb s' E.
    destruct (@frames_Binary_backward 0 ctx go s (Nat.le_0_l _)) as (_ & _ & Q).
    rewrite E in Q. cbn [fst snd] in Q. destruct Q as ((H0 & _) & (H1 & _) & H2).
    split; [exact H0|]. split; [exact H1|]. now apply slot_of_bias in H2.
  - intros ctx go s gi gw gb gt s' E.
    destruct (@frames_IR_backward_slots 0 ctx go s (Nat.le_0_l _)) as (_ & _ & Q).
    rewrite E in Q. cbn [fst snd] in Q. destruct Q as ((H0 & _) & (H1 & _) & H2).
    split; [exact H0|]. split; [exact H1|]. now apply slot_of_bias in H2.
  - intros ctx go s input wq mk bias Sv N0 N1 N2.
    unfold BinaryLinearFunction_backward. rewrite Sv, N0, N1, N2.
    now destruct bias.
  - intros ctx go s input wb wn bias ws t kk Sv N0 N1 N2.
    unfold IRLinearFunction_backward. rewrite Sv, N0, N1, N2.
    now destruct bias.
Qed.

(** Backward writes to nothing that existed.  Whether a backward pass
    returns or raises, every object that existed before the call (the saved
    input, quantized weight and mask, the gradient of the output, the
    parameters of the layer) is left as it was: the in-place [masked_fill_]
    of the Sign Binarizer is applied to the product that the call has just
    created.  Every gradient in a returned tuple is an object created by
    the call. *)
Theorem backward_leaves_saved_tensors :
  (forall ctx go (s : state),
     extends s (snd (BinaryLinearFunction_backward ctx go s))) /\
  (forall ctx go (s : state),
     extends s (snd (IRLinearFunction_backward ctx go s))) /\
  (forall ctx go (s : state) gi gw gb s' a,
     BinaryLinearFunction_backward ctx go s = (Ok (gi, gw, gb), s') ->
     In (Some a) [gi; gw; gb] -> length (heap s) <= a) /\
  (forall ctx go (s : state) gi gw gb gt s' a,
     IRLinearFunction_backward ctx go s = (Ok (gi, gw, gb, gt), s') ->
     In (Some a) [gi; gw; gb; gt] -> length (heap s) <= a).
Proof.
  split; [|split; [|split]].
  - intros ctx go s.
    eapply frames_extends; [apply frames_Binary_backward|reflexivity].
  - intros ctx go s.
    eapply frames_extends; [apply frames_IR_backward_slots|reflexivity].
  - intros ctx go s gi gw gb s' a E H.
    destruct (@frames_Binary_backward (length (heap s)) ctx go s (le_n _))
      as (_ & _ & Q).
    rewrite E in Q. cbn [fst snd] in Q. destruct Q as ((_ & H0) & (_ & H1) & (_ & H2)).
    destruct H as [H|[H|[H|[]]]]; symmetry in H; auto.
  - intros ctx go s gi gw gb gt s' a E H.
    destruct (@frames_IR_backward_slots (length (heap s)) ctx go s (le_n _))
      as (_ & _ & Q).
    destruct (@frames_IR_backward ctx go s (Nat.le_0_l _)) as (_ & _ & Q').
    rewrite E in Q, Q'. cbn [fst snd] in Q, Q'.
    destruct Q as ((_ & H0) & (_ & H1) & (_ & H2)).
    destruct H as [H|[H|[H|[H|[]]]]]; symmetry in H; auto. congruence.
Qed.

(** ** An input without a batch dimension *)

Lemma bind_raise A B (m : M A) (k : A -> M B) (s s' : state) e :
  m s = (Raise e, s') -> bind m k s = (Raise e, s').
Proof. intros E. unfold bind. now rewrite E. Qed.

Lemma op1_raise f a x g e (s : state) :
  lookup s a = Some (VTensor x g) -> f x = Raise e -> op1 f a s = (Raise e, s).
Proof.
  intros L F. unfold op1, load_tensor, load, bind, lift, ret. now rewrite L, F.
Qed.

(** A vector times a matrix. *)
Lemma matmul_vec_mat (a b : tensor T) m k :
  shape a = [m] -> shape b = [m; k] -> exists c, matmul a b = Ok c /\ shape c = [k].
Proof.
  intros Sa Sb. unfold matmul. rewrite Sa, Sb.
  cbn [length Nat.eqb orb split_last2 app]. rewrite Nat.eqb_refl.
  eexists. split; reflexivity.
Qed.

(** [x.transpose(-1, -2)] needs two dimensions. *)
Lemma transpose_last2_vector (a : tensor T) m :
  shape a = [m] -> transpose_last2 a = Raise IndexError.
Proof. intros Sa. unfold transpose_last2. now rewrite Sa. Qed.

(** The block of the input gradient, for a vector [grad_output]. *)
Lemma grad_input_vector (f : bool) go wq g gg q gq m k (s : state) :
  lookup s go = Some (VTensor g gg) ->
  lookup s wq = Some (VTensor q gq) ->
  shape g = [m] -> shape q = [m; k] ->
  exists r s',
    (if f then (x <- op2 matmul go wq ;; ret (Some x)) else ret None) s = (Ok r, s') /\
    extends s s'.
Proof.
  intros Lg Lq Sg Sq. destruct f.
  - destruct (matmul_vec_mat g q Sg Sq) as (c & Ec & _).
    eexists. eexists. split.
    + erewrite bind_ok by (eapply op2_run; eassumption). reflexivity.
    + intros a v L. solve_lookup.
  - exists None, s. split; [reflexivity|apply extends_refl].
Qed.

(** Without a batch dimension the layer cannot be trained.  For an input
    that is a single vector of [k] features, forward returns a vector of
    [m] outputs; the backward call on a gradient of that shape raises
    [IndexError] as soon as the weight needs a gradient, at
    [grad_output.transpose(-1, -2)], which needs two dimensions.  This holds
    for both binarizers. *)
Theorem backward_unbatched_raises ctx input weight bias ta go (s : state)
    x gx w gw bv gb tt gt tv g gg k m :
  lookup s input = Some (VTensor x gx) ->
  lookup s weight = Some (VTensor w gw) ->
  lookup s bias = Some (VTensor bv gb) ->
  lookup s ta = Some (VTensor tt gt) ->
  lookup s go = Some (VTensor g gg) ->
  shape tt = [] -> data tt = [tv] ->
  shape x = [k] -> shape w = [m; k] -> shape bv = [m] -> shape g = [m] ->
  wf w ->
  nth 1 (needs_input_grad ctx) false = true ->
  (exists ctx' output sf y,
     BinaryLinearFunction_forward ctx input weight (Some bias) s
       = (Ok (ctx', output), sf) /\
     lookup sf output = Some (VTensor y false) /\ shape y = [m] /\
     fst (BinaryLinearFunction_backward ctx' go sf) = Raise IndexError) /\
  (exists ctx' output sf y,
     IRLinearFunction_forward ctx input weight (Some bias) (Some ta) s
       = (Ok (ctx', output), sf) /\
     lookup sf output = Some (VTensor y false) /\ shape y = [m] /\
     fst (IRLinearFunction_backward ctx' go sf) = Raise IndexError).
Proof.
  intros Li Lw Lb Lt Lg St Dt Sx Sw Sb Sg W N1. split.
  - pose proof (@forward_spec ctx input weight bias s x gx w gw bv gb [] k m
                  Li Lw Lb Sx Sw Sb W) as F.
    apply wp_elim in F.
    destruct F as ([ctx' output] & sf & E & wq & mk & y & Ec & X1 & Lq & _ & Ly & Sy & _).
    cbn [fst snd] in *. subst ctx'.
    eexists _, output, sf, y. split; [exact E|]. split; [exact Ly|].
    split; [exact Sy|].
    unfold BinaryLinearFunction_backward.
    cbn [save_for_backward saved_variables needs_input_grad]. rewrite N1.
    destruct (@grad_input_vector (nth 0 (needs_input_grad ctx) false) go wq g gg
                (torch_sign w) false m k sf (X1 _ _ Lg) Lq Sg Sw)
      as (gi & s1 & E1 & X2).
    erewrite bind_ok by exact E1.
    erewrite bind_raise; [reflexivity|].
    apply bind_raise. eapply op1_raise; [apply X2, X1, Lg|].
    now apply transpose_last2_vector with (m := m).
  - pose proof (@IR_forward_spec ctx input weight bias ta s x gx w gw bv gb tt gt tv
                  [] k m Li Lw Lb Lt St Dt Sx Sw Sb W) as F.
    apply wp_elim in F.
    destruct F as ([ctx' output] & sf & E & wb & wn & ws & kk & qb & nt & y & Ec & X1
                   & Lq & Sq & _ & _ & _ & _ & _ & _ & Ly & Sy & _).
    cbn [fst snd] in *. subst ctx'.
    eexists _, output, sf, y. split; [exact E|]. split; [exact Ly|].
    split; [exact Sy|].
    unfold IRLinearFunction_backward.
    cbn [save_for_backward saved_variables needs_input_grad]. rewrite N1.
    destruct (@grad_input_vector (nth 0 (needs_input_grad ctx) false) go wb g gg
                qb false m k sf (X1 _ _ Lg) Lq Sg Sq)
      as (gi & s1 & E1 & X2).
    erewrite bind_ok by exact E1.
    erewrite bind_raise; [reflexivity|].
    apply bind_raise. eapply op1_raise; [apply X2, X1, Lg|].
    now apply transpose_last2_vector with (m := m).
Qed.

(** ** The constructors *)

Lemma update_app_S A (done rest : list A) x x' y :
  update (S (length done)) y (done ++ x :: x' :: rest) = done ++ x :: y :: rest.
Proof.
  replace (done ++ x :: x' :: rest) with ((done ++ [x]) ++ x' :: rest)
    by now rewrite <- app_assoc.
  replace (S (length done)) with (length (done ++ [x]))
    by (rewrite length_app; simpl; lia).
  now rewrite update_app_length, <- app_assoc.
Qed.

Lemma BinarizedLinear_init_run inf outf (b : bool) (s : state) :
  inf <> 0 ->
  BinarizedLinear_init inf outf b s =
    (Ok (length (heap s) + (if b then 2 else 1)),
     {| heap := heap s ++ new_layer BinarizedLinear inf outf b (length (heap s)) (gen s);
        gen := gen s + outf * inf;
        transformer_h := transformer_h s |}).
Proof.
  intros N.
  assert (F : wp (BinarizedLinear_init inf outf b)
                (fun a s' =>
                   a = length (heap s) + (if b then 2 else 1) /\
                   s' = {| heap := heap s ++ new_layer BinarizedLinear inf outf b
                                              (length (heap s)) (gen s);
                           gen := gen s + outf * inf;
                           transformer_h := transformer_h s |}) s).
  { unfold BinarizedLinear_init, nn_Parameter.
    step. apply wp_alloc. destruct b.
    - step. step. apply wp_alloc. apply wp_ret.
      step. unfold BinarizedLinear_reset_parameters, math_sqrt_inv.
      cbn [in_features weight bias].
      destruct (inf =? 0) eqn:E; [apply Nat.eqb_eq in E; contradiction|].
      step. apply wp_ret. step. eapply wp_normal_; [solve_lookup|].
      eapply wp_zero_; [solve_lookup|].
      apply wp_alloc. split; [heap_lia|].
      destruct s as [h g th].
      unfold push, poke, set_gen, set_heap, new_layer, drawn, zeros, init_std.
      cbn [heap gen transformer_h shape numel fold_right app].
      rewrite Nat.mul_1_r, <- !app_assoc. cbn [app].
      rewrite update_app_length, length_app. cbn [length]. rewrite Nat.add_1_r.
      rewrite update_app_S, <- app_assoc. reflexivity.
    - step. apply wp_ret.
      step. unfold BinarizedLinear_reset_parameters, math_sqrt_inv.
      cbn [in_features weight bias].
      destruct (inf =? 0) eqn:E; [apply Nat.eqb_eq in E; contradiction|].
      step. apply wp_ret. step. eapply wp_normal_; [solve_lookup|].
      apply wp_ret.
      apply wp_alloc. split; [heap_lia|].
      destruct s as [h g th].
      unfold push, poke, set_gen, set_heap, new_layer, drawn, zeros, init_std.
      cbn [heap gen transformer_h shape numel fold_right app].
      rewrite Nat.mul_1_r.
      rewrite update_app_length, <- app_assoc.
      cbn [app length]. reflexivity. }
  apply wp_elim in F. destruct F as (a & s' & E & -> & ->). exact E.
Qed.

Lemma IRLinear_init_run inf outf (b : bool) (s : state) :
  inf <> 0 ->
  IRLinear_init inf outf b s =
    (Ok (length (heap s) + (if b then 2 else 1)),
     {| heap := heap s ++ new_layer (fun p => IRLinear p None) inf outf b (length (heap s)) (gen s);
        gen := gen s + outf * inf;
        transformer_h := transformer_h s |}).
Proof.
  intros N.
  assert (F : wp (IRLinear_init inf outf b)
                (fun a s' =>
                   a = length (heap s) + (if b then 2 else 1) /\
                   s' = {| heap := heap s ++ new_layer (fun p => IRLinear p None) inf outf b
                                              (length (heap s)) (gen s);
                           gen := gen s + outf * inf;
                           transformer_h := transformer_h s |}) s).
  { unfold IRLinear_init, nn_Parameter.
    step. apply wp_alloc. destruct b.
    - step. step. apply wp_alloc. apply wp_ret.
      step. unfold IRLinear_reset_parameters, math_sqrt_inv.
      cbn [in_features weight bias].
      destruct (inf =? 0) eqn:E; [apply Nat.eqb_eq in E; contradiction|].
      step. apply wp_ret. step. eapply wp_normal_; [solve_lookup|].
      eapply wp_zero_; [solve_lookup|].
      apply wp_alloc. split; [heap_lia|].
      destruct s as [h g th].
      unfold push, poke, set_gen, set_heap, new_layer, drawn, zeros, init_std.
      cbn [heap gen transformer_h shape numel fold_right app].
      rewrite Nat.mul_1_r, <- !app_assoc. cbn [app].
      rewrite update_app_length, length_app. cbn [length]. rewrite Nat.add_1_r.
      rewrite update_app_S, <- app_assoc. reflexivity.
    - step. apply wp_ret.
      step. unfold IRLinear_reset_parameters, math_sqrt_inv.
      cbn [in_features weight bias].
      destruct (inf =? 0) eqn:E; [apply Nat.eqb_eq in E; contradiction|].
      step. apply wp_ret. step. eapply wp_normal_; [solve_lookup|].
      apply wp_ret.
      apply wp_alloc. split; [heap_lia|].
      destruct s as [h g th].
      unfold push, poke, set_gen, set_heap, new_layer, drawn, zeros, init_std.
      cbn [heap gen transformer_h shape numel fold_right app].
      rewrite Nat.mul_1_r.
      rewrite update_app_length, <- app_assoc.
      cbn [app length]. reflexivity. }
  apply wp_elim in F. destruct F as (a & s' & E & -> & ->). exact E.
Qed.

Lemma BinarizedLinear_init_zero outf (b : bool) (s : state) :
  BinarizedLinear_init 0 outf b s =
    (Raise ZeroDivisionError,
     {| heap := heap s ++ [VTensor (zeros [outf; 0]) true]
                       ++ (if b then [VTensor (zeros [outf]) true] else []);
        gen := gen s;
        transformer_h := transformer_h s |}).
Proof.
  destruct s as [h g th].
  destruct b; cbv [BinarizedLinear_init BinarizedLinear_reset_parameters math_sqrt_inv
                 nn_Parameter alloc bind ret raise push set_heap heap gen transformer_h
                 in_features Nat.eqb zeros];
    now rewrite <- ?app_assoc.
Qed.

Lemma IRLinear_init_zero outf (b : bool) (s : state) :
  IRLinear_init 0 outf b s =
    (Raise ZeroDivisionError,
     {| heap := heap s ++ [VTensor (zeros [outf; 0]) true]
                       ++ (if b then [VTensor (zeros [outf]) true] else []);
        gen := gen s;
        transformer_h := transformer_h s |}).
Proof.
  destruct s as [h g th].
  destruct b; cbv [IRLinear_init IRLinear_reset_parameters math_sqrt_inv
                 nn_Parameter alloc bind ret raise push set_heap heap gen transformer_h
                 in_features Nat.eqb zeros];
    now rewrite <- ?app_assoc.
Qed.

Lemma lookup_app_old (s s' : state) l :
  heap s' = heap s ++ l -> extends s s'.
Proof.
  intros E a v L. unfold lookup in *. rewrite E.
  rewrite nth_error_app1; [exact L|]. apply nth_error_Some. congruence.
Qed.

Lemma lookup_app_new (s s' : state) l i :
  heap s' = heap s ++ l -> lookup s' (length (heap s) + i) = nth_error l i.
Proof.
  intros E. unfold lookup. rewrite E, nth_error_app2 by lia.
  f_equal. lia.
Qed.

Lemma lookup_end (s : state) i : lookup s (length (heap s) + i) = None.
Proof. apply nth_error_None. lia. Qed.

Lemma new_layer_initialized wrap inf outf (b : bool) (s s' : state) :
  heap s' = heap s ++ new_layer wrap inf outf b (length (heap s)) (gen s) ->
  gen s' = gen s + outf * inf ->
  transformer_h s' = transformer_h s ->
  initialized wrap inf outf b s (length (heap s) + (if b then 2 else 1)) s'.
Proof.
  intros Eh Eg Et. split; [exact (lookup_app_old _ _ _ Eh)|].
  split; [exact Eg|]. split; [exact Et|].
  pose proof (lookup_app_new _ _ _ 0 Eh) as L0.
  pose proof (lookup_app_new _ _ _ 1 Eh) as L1.
  pose proof (lookup_app_new _ _ _ 2 Eh) as L2.
  pose proof (lookup_end s 0) as N0.
  pose proof (lookup_end s 1) as N1.
  pose proof (lookup_end s 2) as N2.
  rewrite Nat.add_0_r in L0, N0. rewrite Nat.add_1_r in L1, N1.
  destruct b; cbn [new_layer app nth_error] in L0, L1, L2.
  - eexists. split; [exact N2|]. split; [exact L2|].
    cbn [in_features out_features weight bias].
    split; [reflexivity|]. split; [reflexivity|]. split; [exact N0|].
    split; [exact L0|]. exists (S (length (heap s))). auto.
  - eexists. rewrite Nat.add_1_r. split; [exact N1|]. split; [exact L1|].
    cbn [in_features out_features weight bias].
    split; [reflexivity|]. split; [reflexivity|]. split; [exact N0|].
    split; [exact L0|]. reflexivity.
Qed.

Lemma BinarizedLinear_init_initialized inf outf (b : bool) (s : state) :
  inf <> 0 ->
  exists a s',
    BinarizedLinear_init inf outf b s = (Ok a, s') /\
    initialized BinarizedLinear inf outf b s a s'.
Proof.
  intros N. eexists. eexists. split; [now apply BinarizedLinear_init_run|].
  now apply new_layer_initialized.
Qed.

Lemma IRLinear_init_initialized inf outf (b : bool) (s : state) :
  inf <> 0 ->
  exists a s',
    IRLinear_init inf outf b s = (Ok a, s') /\
    initialized (fun p => IRLinear p None) inf outf b s a s'.
Proof.
  intros N. eexists. eexists. split; [now apply IRLinear_init_run|].
  now apply new_layer_initialized.
Qed.

(** The constructors.  [BinarizedLinear(inf, outf, bias)] and
    [IRLinear(inf, outf, bias)] with at least one input feature return a new
    layer ([IRLinear] with [t = None]).  Its weight is a new tensor of shape
    [[outf; inf]], marked as a parameter, that [reset_parameters] has filled
    with draws of mean 0 and standard deviation [1 * sqrt(1 / inf)] taken
    from the generator, which advances by [outf * inf] draws.  Its bias is,
    when asked for, a new vector of [outf] zeros marked as a parameter, and
    [None] otherwise.  No object that existed is changed and the model is
    untouched. *)
Theorem constructors_initialize_parameters inf outf (b : bool) (s : state) :
  inf <> 0 ->
  (exists a s',
     BinarizedLinear_init inf outf b s = (Ok a, s') /\
     initialized BinarizedLinear inf outf b s a s') /\
  (exists a s',
     IRLinear_init inf outf b s = (Ok a, s') /\
     initialized (fun p => IRLinear p None) inf outf b s a s').
Proof.
  intros N. split.
  - now apply BinarizedLinear_init_initialized.
  - now apply IRLinear_init_initialized.
Qed.

(** A layer without input features cannot be constructed.  With
    [in_features = 0] both constructors raise [ZeroDivisionError], at
    [1.0 / self.in_features] in [reset_parameters], whatever the number of
    output features and the bias flag.  The two parameter tensors have been
    allocated by then, but no layer object is created and no object that
    existed is changed. *)
Theorem constructors_reject_zero_width outf (b : bool) (s : state) :
  fst (BinarizedLinear_init 0 outf b s) = Raise ZeroDivisionError /\
  fst (IRLinear_init 0 outf b s) = Raise ZeroDivisionError /\
  extends s (snd (BinarizedLinear_init 0 outf b s)) /\
  extends s (snd (IRLinear_init 0 outf b s)) /\
  (forall a m, lookup (snd (BinarizedLinear_init 0 outf b s)) a = Some (VModule m) ->
     lookup s a = Some (VModule m)) /\
  (forall a m, lookup (snd (IRLinear_init 0 outf b s)) a = Some (VModule m) ->
     lookup s a = Some (VModule m)).
Proof.
  rewrite BinarizedLinear_init_zero, IRLinear_init_zero. cbn [fst snd].
  assert (X : forall s' : state,
            heap s' = heap s ++ [VTensor (zeros [outf; 0]) true]
                             ++ (if b then [VTensor (zeros [outf]) true] else []) ->
            forall a m, lookup s' a = Some (VModule m) -> lookup s a = Some (VModule m)).
  { intros s' Eh a m L. destruct (Nat.lt_ge_cases a (length (heap s))) as [Ha|Ha].
    - destruct (lookup s a) as [v|] eqn:Ls.
      + rewrite (lookup_app_old _ _ _ Eh _ Ls) in L. exact L.
      + apply nth_error_None in Ls. lia.
    - replace a with (length (heap s) + (a - length (heap s))) in L by lia.
      rewrite (lookup_app_new _ _ _ _ Eh) in L.
      destruct (a - length (heap s)) as [|[|[|i]]], b; simpl in L; discriminate L. }
  split; [reflexivity|]. split; [reflexivity|].
  split; [now apply lookup_app_old with (l := [VTensor (zeros [outf; 0]) true]
                      ++ (if b then [VTensor (zeros [outf]) true] else []))|].
  split; [now apply lookup_app_old with (l := [VTensor (zeros [outf; 0]) true]
                      ++ (if b then [VTensor (zeros [outf]) true] else []))|].
  split; now apply X.
Qed.

(** ** From the constructor to the gradients *)

Lemma requires_grad_of_run a v (s : state) :
  lookup s a = Some v ->
  requires_grad_of (Some a) s
  = (Ok (match v with VTensor _ g => g | _ => false end), s).
Proof.
  intros L. unfold requires_grad_of, load, bind, ret. rewrite L. now destruct v.
Qed.




Lemma IR_forward_without_t ctx input weight bias (s : state) w gw :
  lookup s weight = Some (VTensor w gw) ->
  fst (IRLinearFunction_forward ctx input weight bias None s) = Raise TypeError.
Proof.
  intros Lw. unfold IRLinearFunction_forward.
  erewrite bind_ok by (eapply op1_run; [solve_lookup|reflexivity]).
  erewrite bind_ok by (eapply op1_run; [solve_lookup|reflexivity]).
  erewrite bind_ok
    by (eapply op2_run;
        [solve_lookup|solve_lookup|apply broadcast2_scalar_r; reflexivity]).
  erewrite bind_ok
    by (eapply op2_run;
        [solve_lookup|solve_lookup|apply broadcast2_scalar_r; reflexivity]).
  reflexivity.
Qed.

(** A new Scaled-Tanh layer cannot run.  The constructor of [IRLinear] sets
    [t = None] and nothing in the layer ever assigns it; forward hands
    [self.t] to the function, so on the layer as constructed, in every later
    state and for every input, forward raises [TypeError] (at [1/t]) and
    returns no output.  The caller has to assign [t] on the layer before
    its first use. *)
Theorem IRLinear_constructed_forward_raises inf outf (s : state) :
  inf <> 0 ->
  exists layer s1 p,
    IRLinear_init inf outf true s = (Ok layer, s1) /\
    lookup s1 layer = Some (VModule (IRLinear p None)) /\
    forall (s2 : state) input v,
      extends s1 s2 -> lookup s2 input = Some v ->
      fst (IRLinear_forward p None input s2) = Raise TypeError.
Proof.
  intros N.
  destruct (@IRLinear_init_initialized inf outf true s N)
    as (layer & s1 & E1 & X1 & _ & _ & p & _ & Lp & Hi & Ho & _ & Lw & ba & B & _ & Lb).
  exists layer, s1, p. split; [exact E1|]. split; [exact Lp|].
  intros s2 input v X2 Li.
  unfold IRLinear_forward. rewrite B.
  unfold IRLinearFunction_apply, new_ctx. cbn [mapM].
  unfold bind at 1 2 3.
  rewrite (@requires_grad_of_run _ _ _ Li). unfold bind at 1 2.
  rewrite (@requires_grad_of_run _ _ _ (X2 _ _ Lw)). unfold bind at 1 2.
  rewrite (@requires_grad_of_run _ _ _ (X2 _ _ Lb)). unfold bind at 1 2.
  cbn [requires_grad_of ret].
  eapply IR_forward_without_t. exact (X2 _ _ Lw).
Qed.

(** ** The weight is read through its signs *)

(** The forward of the Sign Binarizer depends on the weight through the
    signs of its entries only: two weights of the same shape whose entries
    have the same signs give, for the same input and bias, outputs of the
    same shape with the same entries (scaling a weight by a positive factor,
    for instance, changes nothing). *)
Theorem BinaryLinearFunction_forward_signs_only
    ctx input weight weight' bias (s : state) x gx w gw w' gw' bv gb bs k m :
  lookup s input = Some (VTensor x gx) ->
  lookup s weight = Some (VTensor w gw) ->
  lookup s weight' = Some (VTensor w' gw') ->
  lookup s bias = Some (VTensor bv gb) ->
  shape x = bs ++ [k] -> shape w = [m; k] -> shape w' = [m; k] -> shape bv = [m] ->
  wf w -> wf w' ->
  (forall o l, o < m -> l < k -> sign (entry2 w k o l) = sign (entry2 w' k o l)) ->
  exists ctx1 out1 s1 y1 ctx2 out2 s2 y2,
    BinaryLinearFunction_forward ctx input weight (Some bias) s
      = (Ok (ctx1, out1), s1) /\
    BinaryLinearFunction_forward ctx input weight' (Some bias) s
      = (Ok (ctx2, out2), s2) /\
    lookup s1 out1 = Some (VTensor y1 false) /\
    lookup s2 out2 = Some (VTensor y2 false) /\
    shape y1 = shape y2 /\
    forall i o, i < numel bs -> o < m -> entry2 y1 m i o = entry2 y2 m i o.
Proof.
  intros Li Lw Lw' Lb Sx Sw Sw' Sb W W' H.
  pose proof (@forward_spec ctx input weight bias s x gx w gw bv gb bs k m
                Li Lw Lb Sx Sw Sb W) as F.
  pose proof (@forward_spec ctx input weight' bias s x gx w' gw' bv gb bs k m
                Li Lw' Lb Sx Sw' Sb W') as F'.
  apply wp_elim in F. apply wp_elim in F'.
  destruct F as ([ctx1 out1] & s1 & E1 & _ & _ & y1 & _ & _ & _ & _ & L1 & S1 & H1).
  destruct F' as ([ctx2 out2] & s2 & E2 & _ & _ & y2 & _ & _ & _ & _ & L2 & S2 & H2).
  cbn [fst snd] in *.
  exists ctx1, out1, s1, y1, ctx2, out2, s2, y2.
  split; [exact E1|]. split; [exact E2|]. split; [exact L1|]. split; [exact L2|].
  split; [congruence|].
  intros i o Hi Ho. rewrite H1, H2 by assumption. f_equal.
  apply dot_ext; intros l Hl; [reflexivity|]. now apply H.
Qed.

(** ** binarizer: an unknown kind *)

Lemma nothing_or_candidate qk qv kv (s : state) es :
  nothing_to_replace qk qv kv s es \/ candidate qk qv kv s es.
Proof.
  induction es as [|[n a] es [IH|(n0 & a0 & p0 & Hin & Hl & Hs)]].
  - left. intros n a [].
  - destruct (linear_at s a) as [p|] eqn:El.
    + destruct (skipped qk qv kv n) eqn:Es.
      * left. intros n0 a0 [E|H]; [injection E as <- <-; now right|now apply IH].
      * right. exists n, a, p. split; [now left|]. now split.
    + left. intros n0 a0 [E|H]; [injection E as <- <-; now left|now apply IH].
  - right. exists n0, a0, p0. split; [now right|]. now split.
Qed.

Lemma nothing_not_candidate qk qv kv (s : state) es :
  nothing_to_replace qk qv kv s es -> candidate qk qv kv s es -> False.
Proof.
  intros H (n & a & p & Hin & Hl & Hs). destruct (H n a Hin); congruence.
Qed.

(** With an unknown kind the first child to replace stops the loop: [b] has
    never been assigned. *)
Lemma replace_children_unbound binarize_layer qk qv kv i g (s : state) :
  binarize_layer <> "basic"%string -> binarize_layer <> "ir"%string ->
  forall rest memo,
    NoDup (map snd rest) ->
    (forall n a, In (n, a) rest -> ~ In a memo) ->
    candidate qk qv kv s rest ->
    replace_children binarize_layer qk qv kv i g rest memo None s
    = (Raise UnboundLocalError, s).
Proof.
  intros Nb Ni. apply String.eqb_neq in Nb, Ni.
  induction rest as [|[n a] rest IH]; intros memo ND Hm (n0 & a0 & p0 & Hin & Hl & Hs).
  - destruct Hin.
  - cbn [replace_children].
    destruct (existsb (Nat.eqb a) memo) eqn:Em.
    { apply existsb_eqb_In in Em. destruct (Hm n a (or_introl eq_refl) Em). }
    unfold bind at 1, exact_Linear.
    assert (Next : linear_at s a = None \/ skipped qk qv kv n = true ->
              replace_children binarize_layer qk qv kv i g rest (a :: memo) None s
              = (Raise UnboundLocalError, s)).
    { intros Hd. inversion ND as [|? ? Ha ND']; subst. apply IH; [exact ND'| |].
      - intros n1 a1 H1 [<-|H2].
        + apply Ha. now apply (in_map snd) in H1.
        + now apply (Hm n1 a1 (or_intror H1)).
      - exists n0, a0, p0. destruct Hin as [E|Hin]; [|now split].
        injection E as <- <-. destruct Hd; congruence. }
    destruct (linear_at s a) as [p|] eqn:El.
    + destruct (skipped qk qv kv n) eqn:Es.
      * unfold skipped in Es.
        destruct (kv && String.eqb n "c_attn_q");
          [unfold bind at 1, ret; apply Next; now right|].
        destruct (qv && String.eqb n "c_attn_k");
          [unfold bind at 1, ret; apply Next; now right|].
        destruct (qk && String.eqb n "c_attn_v");
          [unfold bind at 1, ret; apply Next; now right|].
        discriminate Es.
      * destruct (skipped_false _ _ _ _ Es) as (F1 & F2 & F3).
        rewrite F1, F2, F3, Nb, Ni. reflexivity.
    + unfold bind at 1, ret. apply Next. now left.
Qed.

Lemma binarize_blocks_unbound binarize_layer qk qv kv (s : state) :
  binarize_layer <> "basic"%string -> binarize_layer <> "ir"%string ->
  forall rest done,
    transformer_h s = done ++ rest ->
    (forall blk, In blk rest -> group_wf s (mlp blk) /\ group_wf s (attn blk)) ->
    (exists blk, In blk rest /\ candidate qk qv kv s (mlp blk ++ attn blk)) ->
    binarize_blocks binarize_layer qk qv kv (length rest) (length done) None s
    = (Raise UnboundLocalError, s).
Proof.
  intros Nb Ni.
  induction rest as [|blk rest IH]; intros done Ht Hwf (blk0 & Hin & Hc).
  - destruct Hin.
  - cbn [length binarize_blocks].
    destruct (Hwf blk (or_introl eq_refl)) as ((_ & NDm & _) & (_ & NDa & _)).
    assert (Hb : get_block (length done) s = (Ok blk, s))
      by (unfold get_block; now rewrite Ht, nth_error_app_length).
    erewrite bind_ok by exact Hb.
    destruct (nothing_or_candidate qk qv kv s (mlp blk)) as [Hm|Hm].
    2:{ apply bind_raise. apply replace_children_unbound; auto. }
    erewrite bind_ok by (apply replace_children_nothing; exact Hm).
    erewrite bind_ok by exact Hb.
    destruct (nothing_or_candidate qk qv kv s (attn blk)) as [Ha|Ha].
    2:{ apply bind_raise. apply replace_children_unbound; auto. }
    erewrite bind_ok by (apply replace_children_nothing; exact Ha).
    replace (S (length done)) with (length (done ++ [blk]))
      by (rewrite length_app; simpl; lia).
    apply IH; [now rewrite <- app_assoc|intros b0 H0; apply Hwf; now right|].
    exists blk0. split; [|exact Hc].
    destruct Hin as [<-|Hin]; [|exact Hin]. exfalso.
    destruct Hc as (n & a & p & Hi & Hl & Hs). apply in_app_or in Hi.
    destruct Hi as [Hi|Hi].
    + apply (nothing_not_candidate Hm). now exists n, a, p.
    + apply (nothing_not_candidate Ha). now exists n, a, p.
Qed.

(** An unknown kind with something to replace.  When [binarize_layer] is
    neither "basic" nor "ir" and some group of the (well-formed) model holds
    a dense layer that the filter lets through, the surgery raises
    [UnboundLocalError] at the first one, where the local variable [b] is
    read before any assignment; the model and the heap are exactly as they
    were.  No layer is ever replaced under an unknown kind. *)
Theorem binarizer_unknown_kind_raises binarize_layer qk_only qv_only kv_only
    (s : state) :
  binarize_layer <> "basic"%string -> binarize_layer <> "ir"%string ->
  model_wf s ->
  (exists blk, In blk (transformer_h s) /\
     candidate qk_only qv_only kv_only s (mlp blk ++ attn blk)) ->
  binarizer binarize_layer qk_only qv_only kv_only s = (Raise UnboundLocalError, s).
Proof.
  intros Nb Ni Hwf Hc. unfold binarizer. apply bind_raise.
  now apply (@binarize_blocks_unbound binarize_layer qk_only qv_only kv_only s Nb Ni
               (transformer_h s) [] eq_refl).
Qed.

(** ** binarizer: a second run *)

Lemma Forall2_In_r A B (R : A -> B -> Prop) l l' y :
  Forall2 R l l' -> In y l' -> exists x, In x l /\ R x y.
Proof.
  intros F. induction F as [|a b l l' Hab F IH]; intros H; [destruct H|].
  destruct H as [<-|H].
  - exists a. split; [now left|exact Hab].
  - destruct (IH H) as (x & Hx & Hr). exists x. split; [now right|exact Hr].
Qed.

Lemma requested_not_Linear binarize_layer p (s : state) a :
  lookup s a = Some (VModule (requested binarize_layer p)) -> linear_at s a = None.
Proof.
  intros L. unfold linear_at. rewrite L. unfold requested.
  now destruct (String.eqb binarize_layer "basic").
Qed.

(** What the surgery leaves of a group holds nothing that the same filter
    would let through. *)
Lemma children_ok_nothing binarize_layer qk qv kv (s s' : state) es es' :
  group_wf s es -> extends s s' ->
  children_ok (requested binarize_layer) qk qv kv s s' [] es es' ->
  nothing_to_replace qk qv kv s' es'.
Proof.
  intros (_ & ND & Hv) X H.
  assert (SA := H). apply children_ok_surgery_at in SA; [|exact ND].
  destruct SA as (L & P).
  intros n' a' Hin. apply In_nth_error in Hin. destruct Hin as (j & Hj).
  assert (Hlt : j < length es)
    by (rewrite <- L; apply nth_error_Some; congruence).
  destruct (nth_error es j) as [[n a]|] eqn:Ej;
    [|apply nth_error_None in Ej; lia].
  destruct (P j n a Ej) as (a'' & Ej' & Hc).
  rewrite Hj in Ej'. injection Ej' as -> ->.
  unfold child_ok in Hc.
  destruct (linear_at s a) as [p|] eqn:El.
  - destruct (skipped qk qv kv n) eqn:Es; [now right|].
    left. destruct Hc as (_ & p' & Lp & _).
    now apply requested_not_Linear in Lp.
  - subst a''. left.
    assert (Hl : linear_at s' a = linear_at s a).
    { apply linear_at_extends; [|exact X].
      apply (Hv n a). eapply nth_error_In. exact Ej. }
    now rewrite Hl.
Qed.

(** Running the surgery twice is running it once.  After a first run with
    "basic" or "ir" on a well-formed model whose dense layers have at least
    one input feature, a second run with the same three flags, whatever its
    kind, finds nothing to replace: it returns and leaves the model and the
    heap exactly as the first run left them.  The layers that the first run
    has skipped are skipped again, and the layers that it has created are
    not of the dense linear type. *)
Theorem binarizer_second_run binarize_layer binarize_layer' qk_only qv_only kv_only
    (s : state) :
  binarize_layer = "basic"%string \/ binarize_layer = "ir"%string ->
  model_wf s -> widths_positive s ->
  exists s',
    binarizer binarize_layer qk_only qv_only kv_only s = (Ok tt, s') /\
    binarizer binarize_layer' qk_only qv_only kv_only s' = (Ok tt, s').
Proof.
  intros V Hwf Hw.
  pose proof (@binarizer_spec binarize_layer qk_only qv_only kv_only s V Hwf Hw) as F.
  apply wp_elim in F. destruct F as ([] & s' & E & X & HF).
  exists s'. split; [exact E|].
  unfold binarizer. erewrite bind_ok; [reflexivity|].
  apply (@binarize_blocks_nothing binarize_layer' qk_only qv_only kv_only s'
           (transformer_h s') [] None eq_refl).
  intros blk' Hin.
  destruct (@Forall2_In_r _ _ _ _ _ _ HF Hin) as (blk & Hb & Hm & Ha).
  destruct (Hwf blk Hb) as (Wm & Wa).
  split; eapply children_ok_nothing.
  - exact Wm.
  - exact X.
  - exact Hm.
  - exact Wa.
  - exact X.
  - exact Ha.
Qed.

(** ** binarizer: the parameters of the new layers *)

Lemma keeps_ret A (I : state -> Prop) (a : A) : keeps I (ret a : M A).
Proof. intros s r s' H E. injection E as _ <-. exact H. Qed.

Lemma keeps_bind A B (I : state -> Prop) (m : M A) (k : A -> M B) :
  keeps I m -> (forall a, keeps I (k a)) -> keeps I (bind m k).
Proof.
  intros Hm Hk s r s' H E. unfold bind in E.
  destruct (m s) as [[a|e] s1] eqn:Em; [|discriminate E].
  exact (Hk a s1 r s' (Hm s a s1 H Em) E).
Qed.





Lemma own_parameters_refl wrap (s : state) : own_parameters wrap s s.
Proof.
  split; [apply extends_refl|]. intros a m N L. congruence.
Qed.

Lemma own_parameters_new_layer wrap (s st st' : state) inf outf :
  own_parameters wrap s st ->
  heap st' = heap st ++ new_layer wrap inf outf true (length (heap st)) (gen st) ->
  own_parameters wrap s st'.
Proof.
  intros (X & H) Eh.
  assert (X' : extends st st') by exact (lookup_app_old _ _ _ Eh).
  split; [exact (extends_trans X X')|].
  intros a m Ls La.
  destruct (Nat.lt_ge_cases a (length (heap st))) as [Ha|Ha].
  - assert (Lo : lookup st a = Some (VModule m)).
    { destruct (lookup st a) as [v|] eqn:Lv.
      - rewrite (X' _ _ Lv) in La. exact La.
      - apply nth_error_None in Lv. lia. }
    destruct (H a m Ls Lo) as (p & g0 & ba & Em & Nw & Lw & Eb & Nb & Lb).
    exists p, g0, ba. auto 10.
  - replace a with (length (heap st) + (a - length (heap st))) in La by lia.
    rewrite (lookup_app_new _ _ _ _ Eh) in La.
    pose proof (extends_length X) as Hlen.
    destruct (a - length (heap st)) as [|[|[|j]]]; cbn in La;
      [discriminate La|discriminate La| |destruct j; discriminate La].
    injection La as <-.
    eexists. exists (gen st), (S (length (heap st))).
    split; [reflexivity|].
    cbn [in_features out_features weight bias].
    split; [apply nth_error_None; lia|].
    split.
    { rewrite <- (Nat.add_0_r (length (heap st))).
      rewrite (lookup_app_new _ _ _ _ Eh). reflexivity. }
    split; [reflexivity|].
    split; [apply nth_error_None; lia|].
    rewrite <- Nat.add_1_r. rewrite (lookup_app_new _ _ _ _ Eh). reflexivity.
Qed.

Lemma keeps_own_parameters binarize_layer (s : state) inf outf b :
  binarize_layer = "basic"%string \/ binarize_layer = "ir"%string ->
  keeps (own_parameters (requested binarize_layer) s)
    (if String.eqb binarize_layer "basic" then
       (x <- BinarizedLinear_init inf outf true ;; ret (Some x))
     else if String.eqb binarize_layer "ir" then
       (x <- IRLinear_init inf outf true ;; ret (Some x))
     else ret b).
Proof.
  intros [-> | ->]; cbn [String.eqb Ascii.eqb Bool.eqb requested];
    intros st r st' H E; unfold bind in E.
  - destruct (Nat.eq_dec inf 0) as [->|N].
    + rewrite BinarizedLinear_init_zero in E. discriminate E.
    + rewrite (BinarizedLinear_init_run outf true st N) in E.
      injection E as _ <-. eapply own_parameters_new_layer; [exact H|reflexivity].
  - destruct (Nat.eq_dec inf 0) as [->|N].
    + rewrite IRLinear_init_zero in E. discriminate E.
    + rewrite (IRLinear_init_run outf true st N) in E.
      injection E as _ <-. eapply own_parameters_new_layer; [exact H|reflexivity].
Qed.



(** ** binarizer: what the model holds afterwards *)

(** Only skipped dense layers are left.  After the surgery (with "basic" or
    "ir", on a well-formed model whose dense layers have at least one input
    feature), a child of a group that is still of the dense linear type
    bears one of the names that the flags skip; with the three flags off, no
    group holds a dense linear layer any more. *)
Theorem binarizer_leaves_only_skipped binarize_layer qk_only qv_only kv_only
    (s : state) :
  binarize_layer = "basic"%string \/ binarize_layer = "ir"%string ->
  model_wf s -> widths_positive s ->
  exists s',
    binarizer binarize_layer qk_only qv_only kv_only s = (Ok tt, s') /\
    (forall blk' n a p,
       In blk' (transformer_h s') -> In (n, a) (mlp blk' ++ attn blk') ->
       linear_at s' a = Some p -> skipped qk_only qv_only kv_only n = true) /\
    (qk_only = false -> qv_only = false -> kv_only = false ->
     forall blk' n a,
       In blk' (transformer_h s') -> In (n, a) (mlp blk' ++ attn blk') ->
       linear_at s' a = None).
Proof.
  intros V Hwf Hw.
  pose proof (@binarizer_spec binarize_layer qk_only qv_only kv_only s V Hwf Hw) as F.
  apply wp_elim in F. destruct F as ([] & s' & E & X & HF).
  assert (N : forall blk' n a,
            In blk' (transformer_h s') -> In (n, a) (mlp blk' ++ attn blk') ->
            linear_at s' a = None \/ skipped qk_only qv_only kv_only n = true).
  { intros blk' n a Hin Hc.
    destruct (@Forall2_In_r _ _ _ _ _ _ HF Hin) as (blk & Hb & Hm & Ha).
    destruct (Hwf blk Hb) as (Wm & Wa).
    apply in_app_or in Hc. destruct Hc as [Hc|Hc].
    - exact (@children_ok_nothing binarize_layer qk_only qv_only kv_only s s'
               (mlp blk) (mlp blk') Wm X Hm n a Hc).
    - exact (@children_ok_nothing binarize_layer qk_only qv_only kv_only s s'
               (attn blk) (attn blk') Wa X Ha n a Hc). }
  exists s'. split; [exact E|]. split.
  - intros blk' n a p Hin Hc Hl. destruct (N blk' n a Hin Hc) as [H|H]; congruence.
  - intros -> -> -> blk' n a Hin Hc.
    destruct (N blk' n a Hin Hc) as [H|H]; [exact H|discriminate H].
Qed.


(** ** The functions without a bias *)

(** The two functions accept [bias=None] (the layers never call them so).
    Forward then adds nothing to the product: for an input of any batch
    shape, the output is [input . weight_q^t], with [weight_q = sign(weight)]
    for the Sign Binarizer and [k * tanh(t * weight_norm)] for the
    Scaled-Tanh Binarizer, and the bias saved in the context is [None]. *)
Theorem forward_without_bias ctx input weight ta (s : state)
    x gx w gw tt gt tv bs k m :
  lookup s input = Some (VTensor x gx) ->
  lookup s weight = Some (VTensor w gw) ->
  lookup s ta = Some (VTensor tt gt) ->
  shape tt = [] -> data tt = [tv] ->
  shape x = bs ++ [k] -> shape w = [m; k] -> wf w ->
  (exists ctx' output s' y,
     BinaryLinearFunction_forward ctx input weight None s = (Ok (ctx', output), s') /\
     nth 3 (saved_variables ctx') (Some 0) = None /\
     lookup s' output = Some (VTensor y false) /\
     shape y = bs ++ [m] /\
     forall i o, i < numel bs -> o < m ->
       entry2 y m i o
       = dot k (fun l => entry2 x k i l) (fun l => sign (entry2 w k o l))) /\
  (exists ctx' output s' y,
     IRLinearFunction_forward ctx input weight None (Some ta) s
       = (Ok (ctx', output), s') /\
     nth 3 (saved_variables ctx') (Some 0) = None /\
     lookup s' output = Some (VTensor y false) /\
     shape y = bs ++ [m] /\
     forall i o, i < numel bs -> o < m ->
       entry2 y m i o
       = dot k (fun l => entry2 x k i l)
               (fun l => spec_quant tv (data w) (entry2 w k o l))).
Proof.
  intros Li Lw Lt St Dt Sx Sw W. split.
  - assert (F : wp (BinaryLinearFunction_forward ctx input weight None)
                  (fun r s' =>
                     nth 3 (saved_variables (fst r)) (Some 0) = None /\
                     exists y,
                       lookup s' (snd r) = Some (VTensor y false) /\
                       shape y = bs ++ [m] /\
                       forall i o, i < numel bs -> o < m ->
                         entry2 y m i o
                         = dot k (fun l => entry2 x k i l)
                                 (fun l => sign (entry2 w k o l))) s).
    { unfold BinaryLinearFunction_forward.
      step. eapply wp_cmp; [solve_lookup|].
      step. eapply wp_cmp; [solve_lookup|].
      step. eapply wp_or; [solve_lookup|solve_lookup|now apply mask_or_spec|].
      step. eapply wp_op1; [solve_lookup|reflexivity|].
      destruct (@tensor_t_entries (torch_sign w) m k Sw) as (wt & Et & Swt & _ & Ht).
      step. eapply wp_op1; [solve_lookup|exact Et|].
      destruct (matmul_rows x wt bs Sx Swt) as (mm & Em & Sm & _ & Hm).
      step. eapply wp_op2; [solve_lookup|solve_lookup|exact Em|].
      step. apply wp_ret. apply wp_ret. cbn [fst snd].
      split; [reflexivity|]. exists mm. split; [solve_lookup|]. split; [exact Sm|].
      intros i o Hi Ho. rewrite Hm by assumption.
      apply dot_ext; intros l Hl; [reflexivity|].
      rewrite Ht by assumption. now apply (entry2_torch_sign W Sw). }
    apply wp_elim in F. destruct F as ([ctx' output] & s' & E & N & y & Ly & Sy & Hy).
    exists ctx', output, s', y. auto.
  - assert (F : wp (IRLinearFunction_forward ctx input weight None (Some ta))
                  (fun r s' =>
                     nth 3 (saved_variables (fst r)) (Some 0) = None /\
                     exists y,
                       lookup s' (snd r) = Some (VTensor y false) /\
                       shape y = bs ++ [m] /\
                       forall i o, i < numel bs -> o < m ->
                         entry2 y m i o
                         = dot k (fun l => entry2 x k i l)
                                 (fun l => spec_quant tv (data w) (entry2 w k o l))) s).
    { unfold IRLinearFunction_forward.
      assert (Nw : numel (shape w) = m * k)
        by (rewrite Sw; cbn [numel fold_right]; now rewrite Nat.mul_1_r).
      destruct (normalize_spec W) as (c & nt & Ec & En & Sn & Hn).
      destruct (@quantize_spec tt (mkT [] [spec_k tv]) nt tv (spec_k tv)
                  St Dt eq_refl eq_refl)
        as (sc & qb & Es & Eq & _ & _ & Sq & Hq).
      rewrite Sn, Nw in Hq. rewrite Nw in Hn. rewrite Sn, Sw in Sq. rewrite Sw in Sn.
      step. eapply wp_op1; [solve_lookup|reflexivity|].
      step. eapply wp_op1; [solve_lookup|reflexivity|].
      step. eapply wp_op2; [solve_lookup|solve_lookup|exact Ec|].
      step. eapply wp_op2; [solve_lookup|solve_lookup|exact En|].
      step. step. apply wp_ret. eapply wp_op1; [solve_lookup|reflexivity|].
      step. eapply wp_torch_Tensor_pair;
        [solve_lookup|cbn [rdiv tmap data]; rewrite Dt; reflexivity|].
      step. eapply wp_op1; [solve_lookup|reflexivity|].
      step. step. apply wp_ret. eapply wp_op2; [solve_lookup|solve_lookup|exact Es|].
      step. eapply wp_op1; [solve_lookup|reflexivity|].
      step. eapply wp_op2; [solve_lookup|solve_lookup|exact Eq|].
      destruct (@tensor_t_entries qb m k Sq) as (wt & Et & Swt & _ & Ht).
      step. eapply wp_op1; [solve_lookup|exact Et|].
      destruct (matmul_rows x wt bs Sx Swt) as (mm & Em & Sm & _ & Hm).
      step. eapply wp_op2; [solve_lookup|solve_lookup|exact Em|].
      step. apply wp_ret. apply wp_ret. cbn [fst snd].
      split; [reflexivity|]. exists mm. split; [solve_lookup|]. split; [exact Sm|].
      intros i o Hi Ho. rewrite Hm by assumption.
      apply dot_ext; intros l Hl; [reflexivity|].
      rewrite Ht by assumption. unfold entry2.
      rewrite Hq, Hn by now apply index_lt. reflexivity. }
    apply wp_elim in F. destruct F as ([ctx' output] & s' & E & N & y & Ly & Sy & Hy).
    exists ctx', output, s', y. auto.
Qed.

(** ** Calls that raise *)

Lemma wpx_bind A B (m : M A) (k : A -> M B) Q E (s : state) :
  wpx m (fun a s' => wpx (k a) Q E s') E s -> wpx (bind m k) Q E s.
Proof. unfold wpx, bind. now destruct (m s) as [[a|e] s']. Qed.

Lemma wpx_of_wp A (m : M A) Q E (s : state) : wp m Q s -> wpx m Q E s.
Proof. unfold wp, wpx. destruct (m s) as [[a|e] s']; [trivial|contradiction]. Qed.

Lemma wpx_mono A (m : M A) (Q Q' : A -> state -> Prop) (E E' : exn -> state -> Prop)
    (s : state) :
  wpx m Q E s -> (forall a s', Q a s' -> Q' a s') -> (forall e s', E e s' -> E' e s') ->
  wpx m Q' E' s.
Proof. unfold wpx. destruct (m s) as [[a|e] s']; auto. Qed.

Lemma wpx_ret A (a : A) Q E (s : state) : Q a s -> wpx (ret a) Q E s.
Proof. exact (fun H => H). Qed.

Lemma wpx_raise A e (Q : A -> state -> Prop) E (s : state) :
  E e s -> wpx (raise e : M A) Q E s.
Proof. exact (fun H => H). Qed.

Lemma wpx_op2_raise f a b x y g g' e (Q : addr -> state -> Prop) E (s : state) :
  lookup s a = Some (VTensor x g) -> lookup s b = Some (VTensor y g') ->
  f x y = Raise e -> E e s -> wpx (op2 f a b) Q E s.
Proof.
  intros La Lb F H. unfold wpx, op2, load_tensor, load, bind, lift, ret.
  now rewrite La, Lb, F.
Qed.

(** The inner dimensions of a product must agree. *)
Lemma matmul_mismatch (a b : tensor T) bs k k' m :
  shape a = bs ++ [k'] -> shape b = [k; m] -> k' <> k ->
  matmul a b = Raise RuntimeError.
Proof.
  intros Ea Eb N. apply Nat.eqb_neq in N. unfold matmul. rewrite Ea, Eb.
  destruct (last_case bs) as [->|(bs' & n & ->)].
  - cbn [app length Nat.eqb orb split_last2]. now rewrite N.
  - rewrite <- app_assoc. cbn [app].
    assert (L : length (bs' ++ [n; k']) = S (S (length bs')))
      by (rewrite length_app; simpl; lia).
    rewrite L. cbn [length Nat.eqb orb]. rewrite split_last2_app.
    cbn [split_last2]. now rewrite N.
Qed.

Ltac xstep := apply wpx_bind.
Ltac xok := apply wpx_of_wp.

(** An input of the wrong width is refused.  When the last dimension of the
    input is not the number of input features of the weight, forward of
    both binarizers raises [RuntimeError], at the product
    [input.matmul(weight_q.t())], with or without a bias; nothing is
    returned. *)
Theorem forward_rejects_wrong_width ctx input weight bias ta (s : state)
    x gx w gw tt gt tv bs k k' m :
  lookup s input = Some (VTensor x gx) ->
  lookup s weight = Some (VTensor w gw) ->
  lookup s ta = Some (VTensor tt gt) ->
  shape tt = [] -> data tt = [tv] ->
  shape x = bs ++ [k'] -> shape w = [m; k] -> wf w ->
  k' <> k ->
  fst (BinaryLinearFunction_forward ctx input weight bias s) = Raise RuntimeError /\
  fst (IRLinearFunction_forward ctx input weight bias (Some ta) s) = Raise RuntimeError.
Proof.
  intros Li Lw Lt St Dt Sx Sw W N.
  assert (X : forall A (mm : M A),
            wpx mm (fun _ _ => False) (fun e _ => e = RuntimeError) s ->
            fst (mm s) = Raise RuntimeError).
  { intros A mm H. unfold wpx in H. destruct (mm s) as [[r|e] s'];
      [contradiction|now subst]. }
  split; apply X.
  - unfold BinaryLinearFunction_forward.
    xstep. xok. eapply wp_cmp; [solve_lookup|].
    xstep. xok. eapply wp_cmp; [solve_lookup|].
    xstep. xok. eapply wp_or; [solve_lookup|solve_lookup|now apply mask_or_spec|].
    xstep. xok. eapply wp_op1; [solve_lookup|reflexivity|].
    destruct (@tensor_t_entries (torch_sign w) m k Sw) as (wt & Et & Swt & _).
    xstep. xok. eapply wp_op1; [solve_lookup|exact Et|].
    xstep. eapply wpx_op2_raise; [solve_lookup|solve_lookup| |reflexivity].
    exact (matmul_mismatch x wt bs Sx Swt N).
  - unfold IRLinearFunction_forward.
    destruct (normalize_spec W) as (c & nt & Ec & En & Sn & Hn).
    destruct (@quantize_spec tt (mkT [] [spec_k tv]) nt tv (spec_k tv)
                St Dt eq_refl eq_refl)
      as (sc & qb & Es & Eq & _ & _ & Sq & _).
    rewrite Sn, Sw in Sq.
    xstep. xok. eapply wp_op1; [solve_lookup|reflexivity|].
    xstep. xok. eapply wp_op1; [solve_lookup|reflexivity|].
    xstep. xok. eapply wp_op2; [solve_lookup|solve_lookup|exact Ec|].
    xstep. xok. eapply wp_op2; [solve_lookup|solve_lookup|exact En|].
    xstep. xok. step. apply wp_ret. eapply wp_op1; [solve_lookup|reflexivity|].
    xstep. xok. eapply wp_torch_Tensor_pair;
      [solve_lookup|cbn [rdiv tmap data]; rewrite Dt; reflexivity|].
    xstep. xok. eapply wp_op1; [solve_lookup|reflexivity|].
    xstep. xok. step. apply wp_ret.
    eapply wp_op2; [solve_lookup|solve_lookup|exact Es|].
    xstep. xok. eapply wp_op1; [solve_lookup|reflexivity|].
    xstep. xok. eapply wp_op2; [solve_lookup|solve_lookup|exact Eq|].
    destruct (@tensor_t_entries qb m k Sq) as (wt & Et & Swt & _).
    xstep. xok. eapply wp_op1; [solve_lookup|exact Et|].
    xstep. eapply wpx_op2_raise; [solve_lookup|solve_lookup| |reflexivity].
    exact (matmul_mismatch x wt bs Sx Swt N).
Qed.

(** ** binarizer: success and failure *)

Lemma wpx_construct_zero binarize_layer outf b (sc : state) :
  binarize_layer = "basic"%string \/ binarize_layer = "ir"%string ->
  wpx (if String.eqb binarize_layer "basic" then
         (x <- BinarizedLinear_init 0 outf true ;; ret (Some x))
       else if String.eqb binarize_layer "ir" then
         (x <- IRLinear_init 0 outf true ;; ret (Some x))
       else ret b)
      (fun _ _ => False)
      (fun e s' =>
         e = ZeroDivisionError /\ extends sc s' /\
         transformer_h s' = transformer_h sc) sc.
Proof.
  intros [-> | ->]; cbn [String.eqb Ascii.eqb Bool.eqb]; unfold wpx, bind.
  - rewrite BinarizedLinear_init_zero.
    split; [reflexivity|]. split; [|reflexivity].
    eapply lookup_app_old. reflexivity.
  - rewrite IRLinear_init_zero.
    split; [reflexivity|]. split; [|reflexivity].
    eapply lookup_app_old. reflexivity.
Qed.

(** The loop over the children of a group, for a recognized kind: it
    returns when every child to replace has input features, and raises
    [ZeroDivisionError] at the first one that has none.  Either way the
    names of the group are kept and nothing that existed is changed. *)
Lemma replace_children_outcome binarize_layer qk qv kv (s : state) i g :
  binarize_layer = "basic"%string \/ binarize_layer = "ir"%string ->
  forall rest done memo b (sc : state) blk,
    nth_error (transformer_h sc) i = Some blk ->
    get_group g blk = done ++ rest ->
    NoDup (map fst (done ++ rest)) ->
    NoDup (map snd rest) ->
    (forall n a, In (n, a) rest -> ~ In a memo) ->
    (forall n a, In (n, a) rest -> a < length (heap s)) ->
    extends s sc ->
    wpx (replace_children binarize_layer qk qv kv i g rest memo b)
        (fun _ sf =>
           extends sc sf /\ replaceable qk qv kv s rest /\
           exists rest',
             transformer_h sf
               = update i (set_group g blk (done ++ rest')) (transformer_h sc) /\
             map fst rest' = map fst rest)
        (fun e sf =>
           e = ZeroDivisionError /\
           extends sc sf /\ zero_width qk qv kv s rest /\
           exists rest',
             transformer_h sf
               = update i (set_group g blk (done ++ rest')) (transformer_h sc) /\
             map fst rest' = map fst rest)
        sc.
Proof.
  intros V. induction rest as [|[n a] rest IH];
    intros done memo b sc blk Hb Hg ND NA Hm Hv Ex.
  - apply wpx_ret. split; [apply extends_refl|]. split; [intros n a p []|].
    exists []. split; [|reflexivity].
    rewrite <- Hg, set_group_get. symmetry. now apply update_same.
  - assert (Hg' : get_group g blk = (done ++ [(n, a)]) ++ rest)
      by now rewrite <- app_assoc.
    assert (ND' : NoDup (map fst ((done ++ [(n, a)]) ++ rest)))
      by now rewrite <- app_assoc.
    inversion NA as [|? ? Ha NA']; subst.
    assert (Hm' : forall n0 a0, In (n0, a0) rest -> ~ In a0 (a :: memo)).
    { intros n0 a0 H0 [<-|H1].
      - apply Ha. now apply (in_map snd) in H0.
      - exact (Hm n0 a0 (or_intror H0) H1). }
    assert (Hv' : forall n0 a0, In (n0, a0) rest -> a0 < length (heap s))
      by (intros n0 a0 H0; apply (Hv n0 a0); now right).
    cbn [replace_children].
    destruct (existsb (Nat.eqb a) memo) eqn:Em.
    { apply existsb_eqb_In in Em. destruct (Hm n a (or_introl eq_refl) Em). }
    xstep. xok. apply wp_exact_Linear.
    rewrite (linear_at_extends (Hv n a (or_introl eq_refl)) Ex).
    assert (Same : linear_at s a = None \/ skipped qk qv kv n = true ->
              forall b0,
              wpx (replace_children binarize_layer qk qv kv i g rest (a :: memo) b0)
                  (fun _ sf =>
                     extends sc sf /\ replaceable qk qv kv s ((n, a) :: rest) /\
                     exists rest',
                       transformer_h sf
                         = update i (set_group g blk (done ++ rest'))
                             (transformer_h sc) /\
                       map fst rest' = map fst ((n, a) :: rest))
                  (fun e sf =>
                     e = ZeroDivisionError /\
                     extends sc sf /\ zero_width qk qv kv s ((n, a) :: rest) /\
                     exists rest',
                       transformer_h sf
                         = update i (set_group g blk (done ++ rest'))
                             (transformer_h sc) /\
                       map fst rest' = map fst ((n, a) :: rest)) sc).
    { intros Hd b0. eapply wpx_mono;
        [exact (IH (done ++ [(n, a)]) (a :: memo) b0 sc blk Hb Hg' ND' NA' Hm' Hv' Ex)
        | |].
      - intros _ sf (E1 & Hr & rest' & Ht & Hn). split; [exact E1|]. split.
        + intros n0 a0 p0 [E0|H0] Hl Hs; [|exact (Hr n0 a0 p0 H0 Hl Hs)].
          injection E0 as <- <-. destruct Hd; congruence.
        + exists ((n, a) :: rest'). split; [now rewrite Ht, <- app_assoc|].
          cbn [map fst]. now rewrite Hn.
      - intros e sf (Ee & E1 & (n0 & a0 & p0 & H0 & Hz) & rest' & Ht & Hn).
        split; [exact Ee|]. split; [exact E1|]. split.
        + exists n0, a0, p0. split; [now right|exact Hz].
        + exists ((n, a) :: rest'). split; [now rewrite Ht, <- app_assoc|].
          cbn [map fst]. now rewrite Hn. }
    destruct (linear_at s a) as [p|] eqn:El.
    + destruct (skipped qk qv kv n) eqn:Es.
      * xstep. unfold skipped in Es.
        destruct (kv && String.eqb n "c_attn_q");
          [apply wpx_ret; apply Same; now right|].
        destruct (qv && String.eqb n "c_attn_k");
          [apply wpx_ret; apply Same; now right|].
        destruct (qk && String.eqb n "c_attn_v");
          [apply wpx_ret; apply Same; now right|].
        discriminate Es.
      * destruct (skipped_false _ _ _ _ Es) as (F1 & F2 & F3).
        rewrite F1, F2, F3.
        xstep. xstep.
        destruct (Nat.eq_dec (in_features p) 0) as [Z|NZ].
        -- rewrite Z. eapply wpx_mono; [now apply wpx_construct_zero|contradiction|].
           intros e s1 (Ee & X1 & Ht1).
           split; [exact Ee|]. split; [exact X1|]. split.
           ++ exists n, a, p. split; [now left|]. auto.
           ++ exists ((n, a) :: rest). split; [|reflexivity].
              rewrite Ht1, <- Hg, set_group_get. symmetry. now apply update_same.
        -- xok. eapply wp_mono; [apply wp_construct; [exact V|exact NZ]|].
           intros r s1 (x & -> & X1 & L1 & L1' & Ht1 & p' & Lp & Hi & Ho & Hb').
           cbv beta. apply wpx_bind. xok.
           eapply wp_group_setitem; [rewrite Ht1; exact Hb|].
           rewrite Hg, dict_set_mid.
           2:{ rewrite map_app in ND. apply NoDup_remove_2 in ND.
               intros Hin. apply ND. apply in_or_app. now left. }
           apply wpx_ret.
           set (blk2 := set_group g blk (done ++ (n, x) :: rest)).
           set (s2 := set_transformer_h s1 (update i blk2 (transformer_h s1))).
           assert (E12 : extends s1 s2) by (intros a0 v0 H0; exact H0).
           assert (Hb2 : nth_error (transformer_h s2) i = Some blk2).
           { unfold s2. cbn [transformer_h set_transformer_h].
             apply nth_error_update_same. rewrite Ht1.
             apply nth_error_Some. congruence. }
           assert (Hg2 : get_group g blk2 = (done ++ [(n, x)]) ++ rest)
             by (unfold blk2; now rewrite get_group_set, <- app_assoc).
           assert (ND2 : NoDup (map fst ((done ++ [(n, x)]) ++ rest))).
           { rewrite <- app_assoc. simpl. rewrite map_app in *. exact ND. }
           assert (Ex2 : extends s s2)
             by (intros a0 v0 H0; apply E12, X1, Ex, H0).
           assert (Tail : forall rest',
                     update i (set_group g blk2 ((done ++ [(n, x)]) ++ rest'))
                       (transformer_h s2)
                     = update i (set_group g blk (done ++ (n, x) :: rest'))
                         (transformer_h sc)).
           { intros rest'. unfold blk2, s2. cbn [transformer_h set_transformer_h].
             now rewrite set_group_set, update_update, Ht1, <- app_assoc. }
           eapply wpx_mono;
             [exact (IH (done ++ [(n, x)]) (a :: memo) (Some x) s2 blk2
                       Hb2 Hg2 ND2 NA' Hm' Hv' Ex2)| |].
           ++ intros _ sf (E2 & Hr & rest' & Ht & Hn).
              split; [intros a0 v0 H0; apply E2, E12, X1, H0|]. split.
              ** intros n0 a0 p0 [E0|H0] Hl Hs; [|exact (Hr n0 a0 p0 H0 Hl Hs)].
                 injection E0 as <- <-. congruence.
              ** exists ((n, x) :: rest'). split; [now rewrite Ht, Tail|].
                 cbn [map fst]. now rewrite Hn.
           ++ intros e sf (Ee & E2 & (n0 & a0 & p0 & H0 & Hz) & rest' & Ht & Hn).
              split; [exact Ee|].
              split; [intros a1 v1 H1; apply E2, E12, X1, H1|]. split.
              ** exists n0, a0, p0. split; [now right|exact Hz].
              ** exists ((n, x) :: rest'). split; [now rewrite Ht, Tail|].
                 cbn [map fst]. now rewrite Hn.
    + xstep. apply wpx_ret. apply Same. now left.
Qed.

Lemma same_names_refl l : Forall2 same_names l l.
Proof. induction l; constructor; [now split|assumption]. Qed.

Lemma binarize_blocks_outcome binarize_layer qk qv kv (s : state) :
  binarize_layer = "basic"%string \/ binarize_layer = "ir"%string ->
  forall rest done b (sc : state),
    transformer_h sc = done ++ rest ->
    (forall blk, In blk rest -> group_wf s (mlp blk) /\ group_wf s (attn blk)) ->
    extends s sc ->
    wpx (binarize_blocks binarize_layer qk qv kv (length rest) (length done) b)
        (fun _ sf =>
           extends sc sf /\
           (forall blk, In blk rest -> replaceable qk qv kv s (mlp blk ++ attn blk)) /\
           exists rest',
             transformer_h sf = done ++ rest' /\ Forall2 same_names rest rest')
        (fun e sf =>
           e = ZeroDivisionError /\
           extends sc sf /\
           (exists blk, In blk rest /\ zero_width qk qv kv s (mlp blk ++ attn blk)) /\
           exists rest',
             transformer_h sf = done ++ rest' /\ Forall2 same_names rest rest')
        sc.
Proof.
  intros V. induction rest as [|blk rest IH]; intros done b sc Ht Hwf Ex.
  - apply wpx_ret. split; [apply extends_refl|]. split; [intros blk []|].
    exists []. split; [exact Ht|constructor].
  - cbn [length binarize_blocks].
    destruct (Hwf blk (or_introl eq_refl)) as ((NDm & NAm & Vm) & (NDa & NAa & Va)).
    assert (Hb : nth_error (transformer_h sc) (length done) = Some blk)
      by (rewrite Ht; apply nth_error_app_length).
    assert (Zm : zero_width qk qv kv s (mlp blk) ->
              exists blk0, In blk0 (blk :: rest) /\
                zero_width qk qv kv s (mlp blk0 ++ attn blk0)).
    { intros (n & a & p & Hin & Hz). exists blk. split; [now left|].
      exists n, a, p. split; [apply in_or_app; now left|exact Hz]. }
    assert (Za : zero_width qk qv kv s (attn blk) ->
              exists blk0, In blk0 (blk :: rest) /\
                zero_width qk qv kv s (mlp blk0 ++ attn blk0)).
    { intros (n & a & p & Hin & Hz). exists blk. split; [now left|].
      exists n, a, p. split; [apply in_or_app; now right|exact Hz]. }
    xstep. xok. eapply wp_get_block; [exact Hb|].
    xstep. eapply wpx_mono.
    { apply (@replace_children_outcome binarize_layer qk qv kv s (length done) Mlp V
               (mlp blk) [] [] b sc blk Hb eq_refl NDm NAm).
      - intros n a _ [].
      - exact Vm.
      - exact Ex. }
    2:{ intros e sa (Ee & E1 & Z & mlp' & Ht1 & Nm).
        cbn [app] in Ht1. rewrite Ht, update_app_length in Ht1.
        split; [exact Ee|]. split; [exact E1|]. split; [now apply Zm|].
        exists (set_group Mlp blk mlp' :: rest). split; [exact Ht1|].
        constructor; [|apply same_names_refl]. split; [exact Nm|reflexivity]. }
    intros b1 sa (E1 & Rm & mlp' & Ht1 & Nm). cbv beta.
    cbn [app] in Ht1. rewrite Ht, update_app_length in Ht1.
    set (blk1 := set_group Mlp blk mlp') in *.
    assert (Hb1 : nth_error (transformer_h sa) (length done) = Some blk1)
      by (rewrite Ht1; apply nth_error_app_length).
    xstep. xok. eapply wp_get_block; [exact Hb1|].
    xstep. eapply wpx_mono.
    { apply (@replace_children_outcome binarize_layer qk qv kv s (length done) Attn V
               (attn blk) [] [] b1 sa blk1 Hb1 eq_refl NDa NAa).
      - intros n a _ [].
      - exact Va.
      - intros a0 v0 H0. apply E1, Ex, H0. }
    2:{ intros e sb (Ee & E2 & Z & attn' & Ht2 & Na).
        cbn [app] in Ht2. rewrite Ht1, update_app_length in Ht2.
        split; [exact Ee|].
        split; [intros a0 v0 H0; apply E2, E1, H0|]. split; [now apply Za|].
        exists (set_group Attn blk1 attn' :: rest). split; [exact Ht2|].
        constructor; [|apply same_names_refl]. split; [exact Nm|exact Na]. }
    intros b2 sb (E2 & Ra & attn' & Ht2 & Na). cbv beta.
    cbn [app] in Ht2. rewrite Ht1, update_app_length in Ht2.
    set (blk2 := set_group Attn blk1 attn') in *.
    assert (Ht2' : transformer_h sb = (done ++ [blk2]) ++ rest)
      by now rewrite <- app_assoc.
    replace (S (length done)) with (length (done ++ [blk2]))
      by (rewrite length_app; simpl; lia).
    eapply wpx_mono.
    { apply (IH (done ++ [blk2]) b2 sb Ht2').
      - intros blk0 H0. apply Hwf. now right.
      - intros a0 v0 H0. apply E2, E1, Ex, H0. }
    + intros _ sf (E3 & Rr & rest' & Ht3 & HF).
      split; [intros a0 v0 H0; apply E3, E2, E1, H0|]. split.
      * intros blk0 [<-|H0]; [|now apply Rr].
        intros n a p Hin. apply in_app_or in Hin.
        destruct Hin as [Hin|Hin]; [now apply (Rm n a p)|now apply (Ra n a p)].
      * exists (blk2 :: rest'). split; [now rewrite Ht3, <- app_assoc|].
        constructor; [|exact HF]. split; [exact Nm|exact Na].
    + intros e sf (Ee & E3 & (blk0 & H0 & Z) & rest' & Ht3 & HF).
      split; [exact Ee|].
      split; [intros a0 v0 H1; apply E3, E2, E1, H1|]. split.
      * exists blk0. split; [now right|exact Z].
      * exists (blk2 :: rest'). split; [now rewrite Ht3, <- app_assoc|].
        constructor; [|exact HF]. split; [exact Nm|exact Na].
Qed.

Lemma binarizer_outcome binarize_layer qk qv kv (s : state) :
  binarize_layer = "basic"%string \/ binarize_layer = "ir"%string ->
  model_wf s ->
  wpx (binarizer binarize_layer qk qv kv)
      (fun _ sf =>
         extends s sf /\
         (forall blk, In blk (transformer_h s) ->
            replaceable qk qv kv s (mlp blk ++ attn blk)) /\
         Forall2 same_names (transformer_h s) (transformer_h sf))
      (fun e sf =>
         e = ZeroDivisionError /\
         extends s sf /\
         (exists blk, In blk (transformer_h s) /\
            zero_width qk qv kv s (mlp blk ++ attn blk)) /\
         Forall2 same_names (transformer_h s) (transformer_h sf))
      s.
Proof.
  intros V Hwf. unfold binarizer.
  change (wpx (binarize_blocks binarize_layer qk qv kv (length (transformer_h s))
                 (@length block []) None ;;; ret tt)
            (fun _ sf =>
               extends s sf /\
               (forall blk, In blk (transformer_h s) ->
                  replaceable qk qv kv s (mlp blk ++ attn blk)) /\
               Forall2 same_names (transformer_h s) (transformer_h sf))
            (fun e sf =>
               e = ZeroDivisionError /\
               extends s sf /\
               (exists blk, In blk (transformer_h s) /\
                  zero_width qk qv kv s (mlp blk ++ attn blk)) /\
               Forall2 same_names (transformer_h s) (transformer_h sf))
            s).
  xstep. eapply wpx_mono.
  { apply (@binarize_blocks_outcome binarize_layer qk qv kv s V (transformer_h s) []
             None s eq_refl).
    - intros blk H. now apply Hwf.
    - apply extends_refl. }
  - intros _ sf (E & R & rest' & Ht & HF). apply wpx_ret.
    split; [exact E|]. split; [exact R|]. now rewrite Ht.
  - intros e sf (Ee & E & Z & rest' & Ht & HF).
    split; [exact Ee|]. split; [exact E|]. split; [exact Z|]. now rewrite Ht.
Qed.

Lemma replaceable_not_zero_width qk qv kv (s : state) :
  (forall blk, In blk (transformer_h s) -> replaceable qk qv kv s (mlp blk ++ attn blk)) ->
  (exists blk, In blk (transformer_h s) /\ zero_width qk qv kv s (mlp blk ++ attn blk)) ->
  False.
Proof.
  intros R (blk & Hin & n & a & p & Hc & Hl & Hs & Hz).
  exact (R blk Hin n a p Hc Hl Hs Hz).
Qed.

(** When the surgery succeeds and when it fails.  With "basic" or "ir" on a
    well-formed model, the surgery returns exactly when every dense layer
    that the filter lets through has at least one input feature (a skipped
    dense layer may have none), and raises [ZeroDivisionError] exactly when
    one of them has none; it raises no other exception. *)
Theorem binarizer_succeeds_iff binarize_layer qk_only qv_only kv_only (s : state) :
  binarize_layer = "basic"%string \/ binarize_layer = "ir"%string ->
  model_wf s ->
  ((forall blk, In blk (transformer_h s) ->
      replaceable qk_only qv_only kv_only s (mlp blk ++ attn blk)) <->
   exists s', binarizer binarize_layer qk_only qv_only kv_only s = (Ok tt, s')) /\
  ((exists blk, In blk (transformer_h s) /\
      zero_width qk_only qv_only kv_only s (mlp blk ++ attn blk)) <->
   exists s', binarizer binarize_layer qk_only qv_only kv_only s
              = (Raise ZeroDivisionError, s')) /\
  (forall e s', binarizer binarize_layer qk_only qv_only kv_only s = (Raise e, s') ->
     e = ZeroDivisionError).
Proof.
  intros V Hwf.
  pose proof (@binarizer_outcome binarize_layer qk_only qv_only kv_only s V Hwf) as F.
  unfold wpx in F.
  destruct (binarizer binarize_layer qk_only qv_only kv_only s) as [[[]|e] s'].
  - destruct F as (_ & R & _). split; [|split].
    + split; [intros _; now exists s'|intros _; exact R].
    + split.
      * intros Z. destruct (replaceable_not_zero_width R Z).
      * intros (s2 & E). discriminate E.
    + intros e s2 E. discriminate E.
  - destruct F as (-> & _ & Z & _). split; [|split].
    + split.
      * intros R. destruct (replaceable_not_zero_width R Z).
      * intros (s2 & E). discriminate E.
    + split; [intros _; now exists s'|intros _; exact Z].
    + intros e s2 E. now injection E as <- _.
Qed.

Lemma blocks_nothing_or_candidate qk qv kv (s : state) (l : list block) :
  (forall blk, In blk l ->
     nothing_to_replace qk qv kv s (mlp blk) /\
     nothing_to_replace qk qv kv s (attn blk)) \/
  (exists blk, In blk l /\ candidate qk qv kv s (mlp blk ++ attn blk)).
Proof.
  induction l as [|blk l [IH|(blk0 & Hin & Hc)]].
  - left. intros blk [].
  - destruct (nothing_or_candidate qk qv kv s (mlp blk)) as [Hm|(n & a & p & Hi & Hz)].
    + destruct (nothing_or_candidate qk qv kv s (attn blk))
        as [Ha|(n & a & p & Hi & Hz)].
      * left. intros blk0 [<-|H0]; [now split|now apply IH].
      * right. exists blk. split; [now left|].
        exists n, a, p. split; [apply in_or_app; now right|exact Hz].
    + right. exists blk. split; [now left|].
      exists n, a, p. split; [apply in_or_app; now left|exact Hz].
  - right. exists blk0. split; [now right|exact Hc].
Qed.

(** The structure of the model survives a failure.  Whatever the kind,
    and whether the surgery on a well-formed model returns or raises, every
    object that existed before the call is unchanged, and the model has the
    same number of blocks, each with the same names in the same order in
    its two groups: the call only ever changes which object a name refers
    to. *)
Theorem binarizer_keeps_structure binarize_layer qk_only qv_only kv_only (s : state) :
  model_wf s ->
  extends s (snd (binarizer binarize_layer qk_only qv_only kv_only s)) /\
  Forall2 same_names (transformer_h s)
    (transformer_h (snd (binarizer binarize_layer qk_only qv_only kv_only s))).
Proof.
  intros Hwf.
  assert (Same : snd (binarizer binarize_layer qk_only qv_only kv_only s) = s ->
            extends s (snd (binarizer binarize_layer qk_only qv_only kv_only s)) /\
            Forall2 same_names (transformer_h s)
              (transformer_h (snd (binarizer binarize_layer qk_only qv_only kv_only s)))).
  { intros ->. split; [apply extends_refl|apply same_names_refl]. }
  destruct (string_dec binarize_layer "basic") as [Vb|Nb];
    [|destruct (string_dec binarize_layer "ir") as [Vi|Ni]].
  - pose proof (@binarizer_outcome binarize_layer qk_only qv_only kv_only s
                  (or_introl Vb) Hwf) as F.
    unfold wpx in F.
    destruct (binarizer binarize_layer qk_only qv_only kv_only s) as [[[]|e] s'];
      cbn [snd].
    + destruct F as (X & _ & N). now split.
    + destruct F as (_ & X & _ & N). now split.
  - pose proof (@binarizer_outcome binarize_layer qk_only qv_only kv_only s
                  (or_intror Vi) Hwf) as F.
    unfold wpx in F.
    destruct (binarizer binarize_layer qk_only qv_only kv_only s) as [[[]|e] s'];
      cbn [snd].
    + destruct F as (X & _ & N). now split.
    + destruct F as (_ & X & _ & N). now split.
  - apply Same.
    destruct (blocks_nothing_or_candidate qk_only qv_only kv_only s (transformer_h s))
      as [H|H].
    + unfold binarizer. erewrite bind_ok; [reflexivity|].
      now apply (@binarize_blocks_nothing binarize_layer qk_only qv_only kv_only s
                   (transformer_h s) [] None eq_refl).
    + unfold binarizer. erewrite bind_raise; [reflexivity|].
      now apply (@binarize_blocks_unbound binarize_layer qk_only qv_only kv_only s
                   Nb Ni (transformer_h s) [] eq_refl).
Qed.

(** ** binarizer: the flags and the names *)

Lemma bind_cong A B (m m' : M A) (k k' : A -> M B) (s : state) :
  m s = m' s ->
  (forall a s', m s = (Ok a, s') -> k a s' = k' a s') ->
  bind m k s = bind m' k' s.
Proof.
  intros Em Hk. unfold bind. rewrite <- Em.
  destruct (m s) as [[a|e] s']; [now apply Hk|reflexivity].
Qed.

Lemma skipped_plain (f : bool) n name :
  n <> name -> f && String.eqb n name = false.
Proof. intros N. apply String.eqb_neq in N. rewrite N. apply andb_false_r. Qed.

(** On children with plain names the flags are not looked at. *)
Lemma replace_children_flags binarize_layer qk qv kv i g :
  forall children,
    (forall n a, In (n, a) children -> plain_name n) ->
    forall memo b (st : state),
      replace_children binarize_layer qk qv kv i g children memo b st
      = replace_children binarize_layer false false false i g children memo b st.
Proof.
  induction children as [|[n a] rest IH]; intros Hn memo b st; [reflexivity|].
  assert (Hn' : forall n0 a0, In (n0, a0) rest -> plain_name n0)
    by (intros n0 a0 H0; apply (Hn n0 a0); now right).
  destruct (Hn n a (or_introl eq_refl)) as (N1 & N2 & N3).
  cbn [replace_children]. destruct (existsb (Nat.eqb a) memo); [now apply IH|].
  apply bind_cong; [reflexivity|]. intros ty st1 _.
  rewrite (skipped_plain kv N1), (skipped_plain qv N2), (skipped_plain qk N3).
  cbn [andb].
  apply bind_cong; [reflexivity|]. intros b' st2 _. now apply IH.
Qed.

Lemma In_update A i (x : A) l y : In y (update i x l) -> y = x \/ In y l.
Proof.
  revert i. induction l as [|z l IH]; intros [|i] H; simpl in H; try contradiction.
  - destruct H as [<-|H]; [now left|right; now right].
  - destruct H as [<-|H]; [right; now left|].
    destruct (IH i H) as [->|H']; [now left|right; now right].
Qed.

Lemma In_dict_set n x d n' a' :
  In (n', a') (dict_set n x d) -> n' = n \/ In (n', a') d.
Proof.
  induction d as [|[k v] d IH]; simpl.
  - intros [E|[]]. injection E as <- <-. now left.
  - destruct (String.eqb k n) eqn:Ek.
    + apply String.eqb_eq in Ek. subst k.
      intros [E|H]; [injection E as <- <-; now left|right; now right].
    + intros [E|H]; [right; now left|].
      destruct (IH H) as [->|H']; [now left|right; now right].
Qed.

Lemma keeps_plain_setitem i g n x :
  plain_name n -> keeps (@plain_names T) (group_setitem i g n x).
Proof.
  intros Pn st r st' I E. unfold group_setitem, bind, get_block in E.
  destruct (nth_error (transformer_h st) i) as [blk|] eqn:Eb; [|discriminate E].
  injection E as _ <-. apply nth_error_In in Eb.
  intros blk' n' a' Hb Hc. cbn [transformer_h set_transformer_h] in Hb.
  apply In_update in Hb. destruct Hb as [->|Hb]; [|exact (I blk' n' a' Hb Hc)].
  apply in_app_or in Hc. destruct g; cbn [set_group get_group mlp attn] in Hc.
  - destruct Hc as [Hc|Hc].
    + apply In_dict_set in Hc. destruct Hc as [->|Hc]; [exact Pn|].
      apply (I blk n' a' Eb). apply in_or_app. now left.
    + apply (I blk n' a' Eb). apply in_or_app. now right.
  - destruct Hc as [Hc|Hc].
    + apply (I blk n' a' Eb). apply in_or_app. now left.
    + apply In_dict_set in Hc. destruct Hc as [->|Hc]; [exact Pn|].
      apply (I blk n' a' Eb). apply in_or_app. now right.
Qed.

Lemma keeps_plain_construct binarize_layer inf outf b :
  keeps (@plain_names T)
    (if String.eqb binarize_layer "basic" then
       (x <- BinarizedLinear_init inf outf true ;; ret (Some x))
     else if String.eqb binarize_layer "ir" then
       (x <- IRLinear_init inf outf true ;; ret (Some x))
     else ret b).
Proof.
  assert (Same : forall st st' : state,
            transformer_h st' = transformer_h st -> plain_names st -> plain_names st').
  { intros st st' Et I blk n a Hb. rewrite Et in Hb. now apply I. }
  destruct (String.eqb binarize_layer "basic");
    [|destruct (String.eqb binarize_layer "ir"); [|apply keeps_ret]];
    intros st r st' I E; unfold bind in E;
    destruct (Nat.eq_dec inf 0) as [->|N].
  - rewrite BinarizedLinear_init_zero in E. discriminate E.
  - rewrite (BinarizedLinear_init_run outf true st N) in E.
    injection E as _ <-. now apply (Same st).
  - rewrite IRLinear_init_zero in E. discriminate E.
  - rewrite (IRLinear_init_run outf true st N) in E.
    injection E as _ <-. now apply (Same st).
Qed.

Lemma keeps_plain_replace_children binarize_layer qk qv kv i g :
  forall children,
    (forall n a, In (n, a) children -> plain_name n) ->
    forall memo b,
      keeps (@plain_names T) (replace_children binarize_layer qk qv kv i g children memo b).
Proof.
  induction children as [|[n a] rest IH]; intros Hn memo b.
  - apply keeps_ret.
  - assert (Hn' : forall n0 a0, In (n0, a0) rest -> plain_name n0)
      by (intros n0 a0 H0; apply (Hn n0 a0); now right).
    cbn [replace_children]. destruct (existsb (Nat.eqb a) memo); [now apply IH|].
    apply keeps_bind.
    { intros s r s' H E. injection E as _ <-. exact H. }
    intros ty. apply keeps_bind; [|intros b'; now apply IH].
    destruct ty as [p|]; [|apply keeps_ret].
    destruct (kv && String.eqb n "c_attn_q"); [apply keeps_ret|].
    destruct (qv && String.eqb n "c_attn_k"); [apply keeps_ret|].
    destruct (qk && String.eqb n "c_attn_v"); [apply keeps_ret|].
    apply keeps_bind; [apply keeps_plain_construct|]. intros b1.
    apply keeps_bind; [|intros _; apply keeps_ret].
    destruct b1 as [x|].
    + apply keeps_plain_setitem. now apply (Hn n a); left.
    + intros s r s' H E. discriminate E.
Qed.

Lemma binarize_blocks_flags binarize_layer qk qv kv :
  forall n i b (st : state),
    plain_names st ->
    binarize_blocks binarize_layer qk qv kv n i b st
    = binarize_blocks binarize_layer false false false n i b st.
Proof.
  induction n as [|n IH]; intros i b st I; [reflexivity|].
  cbn [binarize_blocks].
  assert (Group : forall (st0 : state) blk,
            plain_names st0 -> get_block i st0 = (Ok blk, st0) ->
            (forall n0 a0, In (n0, a0) (mlp blk) -> plain_name n0) /\
            (forall n0 a0, In (n0, a0) (attn blk) -> plain_name n0)).
  { intros st0 blk I0 E. unfold get_block in E.
    destruct (nth_error (transformer_h st0) i) as [blk0|] eqn:Eb; [|discriminate E].
    injection E as <-. apply nth_error_In in Eb.
    split; intros n0 a0 H0; apply (I0 blk0 n0 a0 Eb); apply in_or_app; auto. }
  assert (Get : forall (st0 st1 : state) blk,
            get_block i st0 = (Ok blk, st1) -> st1 = st0).
  { intros st0 st1 blk E. unfold get_block in E.
    destruct (nth_error (transformer_h st0) i); [|discriminate E].
    now injection E as _ <-. }
  apply bind_cong; [reflexivity|]. intros blk st0 E0.
  pose proof (Get _ _ _ E0) as ->.
  destruct (Group st blk I E0) as (Pm & _).
  apply bind_cong; [now apply replace_children_flags|]. intros b1 st1 E1.
  pose proof (@keeps_plain_replace_children binarize_layer qk qv kv i Mlp (mlp blk) Pm
                [] b st b1 st1 I E1) as I1.
  apply bind_cong; [reflexivity|]. intros blk1 st1' E1'.
  pose proof (Get _ _ _ E1') as ->.
  destruct (Group st1 blk1 I1 E1') as (_ & Pa).
  apply bind_cong; [now apply replace_children_flags|]. intros b2 st2 E2.
  pose proof (@keeps_plain_replace_children binarize_layer qk qv kv i Attn (attn blk1)
                Pa [] b1 st1 b2 st2 I1 E2) as I2.
  now apply IH.
Qed.

(** The flags need the three names.  On a model none of whose children is
    named "c_attn_q", "c_attn_k" or "c_attn_v" (the stock block names its
    dense layers "c_attn", "c_proj" and "c_fc"), the three flags have no
    effect: whatever their values, the surgery does exactly what it does
    with the three flags off, result and final state included. *)
Theorem binarizer_flags_need_names binarize_layer qk_only qv_only kv_only (s : state) :
  plain_names s ->
  binarizer binarize_layer qk_only qv_only kv_only s
  = binarizer binarize_layer false false false s.
Proof.
  intros I. unfold binarizer.
  apply bind_cong; [now apply binarize_blocks_flags|reflexivity].
Qed.

(** ** The Scaled-Tanh layer with a temperature *)



(** * Inputs with leading batch dimensions *)

(** ** Stacks of matrices *)

Lemma stack_index t i j rows cols :
  i < rows -> j < cols ->
  (t * rows + i) * cols + j = t * (rows * cols) + (i * cols + j) /\
  i * cols + j < rows * cols.
Proof.
  intros Hi Hj. split; [|now apply index_lt].
  rewrite Nat.mul_add_distr_r, <- Nat.mul_assoc. lia.
Qed.

Lemma stack_index_lt t i j nb rows cols :
  t < nb -> i < rows -> j < cols -> (t * rows + i) * cols + j < nb * (rows * cols).
Proof.
  intros Ht Hi Hj. destruct (@stack_index t i j rows cols Hi Hj) as (P & L).
  rewrite P. now apply index_lt.
Qed.

Lemma numel_matrix r c : numel [r; c] = r * c.
Proof. cbn [numel fold_right]. now rewrite Nat.mul_1_r. Qed.

Lemma length_app2 (bs : list nat) r c : length (bs ++ [r; c]) = S (S (length bs)).
Proof. rewrite length_app. simpl. lia. Qed.

(** [a.transpose(-1, -2)] on a stack: every matrix is transposed. *)
Lemma transpose_last2_stack (a : tensor T) bs r c :
  shape a = bs ++ [r; c] ->
  exists b, transpose_last2 a = Ok b /\ shape b = bs ++ [c; r] /\
    forall t i j, t < numel bs -> i < r -> j < c ->
      entry3 b c r t j i = entry3 a r c t i j.
Proof.
  intros E. unfold transpose_last2. rewrite E, split_last2_app.
  eexists. split; [reflexivity|]. split; [reflexivity|].
  intros t i j Ht Hi Hj. unfold entry3. cbn [data].
  rewrite nth_tab by now apply stack_index_lt.
  destruct (@stack_index t j i c r Hj Hi) as (P & L).
  f_equal.
  assert (D : ((t * c + j) * r + i) / (c * r) = t)
    by (rewrite P; now apply div_row).
  assert (R1 : ((t * c + j) * r + i) mod r = i) by now apply mod_row.
  assert (R2 : ((t * c + j) * r + i) / r = t * c + j) by now apply div_row.
  rewrite D, R1, R2. now rewrite mod_row.
Qed.

(** The product of two stacks over the same batch: matrix by matrix. *)
Lemma matmul_stack (a b : tensor T) bs n k p :
  shape a = bs ++ [n; k] -> shape b = bs ++ [k; p] ->
  exists c, matmul a b = Ok c /\ shape c = bs ++ [n; p] /\
    forall t i j, t < numel bs -> i < n -> j < p ->
      entry3 c n p t i j = dot k (fun l => entry3 a n k t i l) (fun l => entry3 b k p t l j).
Proof.
  intros Ea Eb. unfold matmul. rewrite Ea, Eb, !length_app2.
  cbn [Nat.eqb orb]. rewrite !split_last2_app, Nat.eqb_refl, broadcast_shapes_same.
  eexists. split; [reflexivity|]. split; [reflexivity|].
  intros t i j Ht Hi Hj. unfold entry3 at 1. cbn [data].
  rewrite nth_tab by now apply stack_index_lt.
  unfold dot. f_equal. apply tab_ext. intros l Hl.
  destruct (@stack_index t i j n p Hi Hj) as (P & L).
  assert (D : ((t * n + i) * p + j) / (n * p) = t)
    by (rewrite P; now apply div_row).
  assert (R1 : ((t * n + i) * p + j) mod p = j) by now apply mod_row.
  assert (R2 : ((t * n + i) * p + j) / p = t * n + i) by now apply div_row.
  rewrite D, R1, R2, mod_row, bindex_same by assumption. reflexivity.
Qed.

(** A stack times a matrix: every matrix of the stack is multiplied by it. *)
Lemma matmul_stack_matrix (a b : tensor T) bs n k p :
  shape a = bs ++ [n; k] -> shape b = [k; p] ->
  exists c, matmul a b = Ok c /\ shape c = bs ++ [n; p] /\
    forall t i j, t < numel bs -> i < n -> j < p ->
      entry3 c n p t i j = dot k (fun l => entry3 a n k t i l) (fun l => entry2 b p l j).
Proof.
  intros Ea Eb.
  assert (Ea' : shape a = (bs ++ [n]) ++ [k]) by now rewrite <- app_assoc.
  destruct (matmul_rows a b (bs ++ [n]) Ea' Eb) as (c & Ec & Sc & _ & Hc).
  exists c. split; [exact Ec|]. split; [now rewrite Sc, <- app_assoc|].
  intros t i j Ht Hi Hj.
  assert (Hr : t * n + i < numel (bs ++ [n])).
  { rewrite numel_app. cbn [numel fold_right]. nia. }
  exact (Hc (t * n + i) j Hr Hj).
Qed.

(** Out of place, an operand whose shape is a suffix of the other's is read
    cyclically. *)
Lemma broadcast2_suffix A B C (f : A -> B -> C) da db (a : tensor A) (b : tensor B) bs :
  shape a = bs ++ shape b ->
  broadcast2 f da db a b =
  Ok (mkT (shape a) (tab (numel (shape a))
        (fun p => f (nth p (data a) da) (nth (p mod numel (shape b)) (data b) db)))).
Proof.
  intros E. unfold broadcast2. rewrite E, broadcast_shapes_suffix.
  do 2 f_equal. apply tab_ext. intros p Hp.
  now rewrite bindex_same, bindex_suffix.
Qed.

(** [a.masked_fill_(m, v)] for a stack [a] and a mask of the shape of one
    matrix: the mask is applied to every matrix of the stack. *)
Lemma masked_fill__stack (a : tensor T) (mk : tensor bool) v bs m k :
  shape a = bs ++ [m; k] -> shape mk = [m; k] ->
  exists c, masked_fill_ a mk v = Ok c /\ shape c = bs ++ [m; k] /\
    forall t o i, t < numel bs -> o < m -> i < k ->
      entry3 c m k t o i =
      if nth (o * k + i) (data mk) false then v else entry3 a m k t o i.
Proof.
  intros Ea Em. unfold masked_fill_.
  rewrite (@broadcast2__suffix _ _ _ _ _ a mk bs) by now rewrite Ea, Em.
  eexists. split; [reflexivity|]. split; [exact Ea|].
  intros t o i Ht Ho Hi. unfold entry3. cbn [data].
  rewrite Ea, Em, numel_app, numel_matrix.
  rewrite nth_tab by now apply stack_index_lt.
  destruct (@stack_index t o i m k Ho Hi) as (P & L).
  replace (((t * m + o) * k + i) mod (m * k)) with (o * k + i); [reflexivity|].
  rewrite P. symmetry. now apply mod_row.
Qed.

(** The elementwise product of a stack and a matrix of the shape of one of
    its matrices. *)
Lemma mul_stack (a b : tensor T) bs m k :
  shape a = bs ++ [m; k] -> shape b = [m; k] ->
  exists c, mul a b = Ok c /\ shape c = bs ++ [m; k] /\
    forall t o i, t < numel bs -> o < m -> i < k ->
      entry3 c m k t o i = smul (entry3 a m k t o i) (entry2 b k o i).
Proof.
  intros Ea Eb. unfold mul.
  rewrite (@broadcast2_suffix _ _ _ _ _ _ a b bs) by now rewrite Ea, Eb.
  eexists. split; [reflexivity|]. split; [exact Ea|].
  intros t o i Ht Ho Hi. unfold entry3, entry2. cbn [data].
  rewrite Ea, Eb, numel_app, numel_matrix.
  rewrite nth_tab by now apply stack_index_lt.
  destruct (@stack_index t o i m k Ho Hi) as (P & L).
  replace (((t * m + o) * k + i) mod (m * k)) with (o * k + i); [reflexivity|].
  rewrite P. symmetry. now apply mod_row.
Qed.

(** [a.sum(0)] sums the first dimension only. *)
Lemma sum0_first (g : tensor T) d r :
  shape g = d :: r ->
  shape (sum0 g) = r /\
  forall j, j < numel r ->
    nth j (data (sum0 g)) s0 = ssum (tab d (fun b => nth (b * numel r + j) (data g) s0)).
Proof.
  intros Sg. unfold sum0. rewrite Sg. split; [reflexivity|].
  intros j Hj. cbn [data]. now rewrite nth_tab.
Qed.

(** ** The gradients for a stack *)

(** [grad_output.matmul(weight)] *)
Lemma batch_grad_input_block (f : bool) go wq g gg q gq bs n m k (s : state) :
  lookup s go = Some (VTensor g gg) ->
  lookup s wq = Some (VTensor q gq) ->
  shape g = bs ++ [n; m] -> shape q = [m; k] ->
  wp (if f then (r <- op2 matmul go wq ;; ret (Some r)) else ret None)
     (fun r s' => extends s s' /\ grad_slot f s' r (batch_grad_input g q bs n m k)) s.
Proof.
  intros Lg Lq Sg Sq. destruct f.
  - destruct (@matmul_stack_matrix g q bs n m k Sg Sq) as (y & Ey & Sy & Hy).
    step. eapply wp_op2; [solve_lookup|solve_lookup|exact Ey|].
    apply wp_ret. split; [intros a v L; solve_lookup|].
    do 2 eexists. split; [reflexivity|]. split; [solve_lookup|]. now split.
  - apply wp_ret. split; [apply extends_refl|reflexivity].
Qed.

(** [grad_output.transpose(-1, -2).matmul(input)], followed by [rest]: one
    product per matrix of the batch. *)
Lemma batch_transposed_product A (rest : addr -> M A) go input g gg x gx bs n m k
    (s : state) (Q : A -> state -> Prop) :
  lookup s go = Some (VTensor g gg) ->
  lookup s input = Some (VTensor x gx) ->
  shape g = bs ++ [n; m] -> shape x = bs ++ [n; k] ->
  (forall gt_ y,
     shape y = bs ++ [m; k] ->
     (forall t o i, t < numel bs -> o < m -> i < k ->
        entry3 y m k t o i = batch_grad_weight g x n m k t o i) ->
     wp (rest (length (heap (push s (VTensor gt_ false)))))
        Q (push (push s (VTensor gt_ false)) (VTensor y false))) ->
  wp (gt_ <- op1 transpose_last2 go ;; r <- op2 matmul gt_ input ;; rest r) Q s.
Proof.
  intros Lg Lx Sg Sx HQ.
  destruct (@transpose_last2_stack g bs n m Sg) as (gt_ & Et & St & Ht).
  destruct (@matmul_stack gt_ x bs m n k St Sx) as (y & Ey & Sy & Hy).
  step. eapply wp_op1; [solve_lookup|exact Et|].
  step. eapply wp_op2; [solve_lookup|solve_lookup|exact Ey|].
  apply HQ; [exact Sy|].
  intros t o i Ht' Ho Hi. rewrite Hy by assumption.
  apply dot_ext; intros b Hb; [now apply Ht|reflexivity].
Qed.

(** The weight gradient of [BinaryLinearFunction.backward]. *)
Lemma batch_grad_weight_block (f : bool) go input mk g gg x gx (mask : tensor bool)
    bs n m k (s : state) :
  lookup s go = Some (VTensor g gg) ->
  lookup s input = Some (VTensor x gx) ->
  lookup s mk = Some (VMask mask) ->
  shape g = bs ++ [n; m] -> shape x = bs ++ [n; k] -> shape mask = [m; k] ->
  wp (if f then
        (gt_ <- op1 transpose_last2 go ;;
         r <- op2 matmul gt_ input ;;
         imasked_fill r mk s0 ;;;
         ret (Some r))
      else ret None)
     (fun r s' =>
        extends s s' /\
        grad_slot f s' r (batch_masked_grad_weight g x mask bs n m k)) s.
Proof.
  intros Lg Lx Lm Sg Sx Sm. destruct f.
  - eapply batch_transposed_product; [exact Lg|exact Lx|exact Sg|exact Sx|].
    intros gt_ y Sy Hy.
    destruct (@masked_fill__stack y mask s0 bs m k Sy Sm) as (z & Ez & Sz & Hz).
    step. eapply wp_imasked_fill; [solve_lookup|solve_lookup|exact Ez|].
    apply wp_ret. split; [intros a v L; solve_lookup|].
    do 2 eexists. split; [reflexivity|]. split; [solve_lookup|].
    split; [exact Sz|].
    intros t o i Ht Ho Hi. rewrite Hz by assumption. now rewrite Hy.
  - apply wp_ret. split; [apply extends_refl|reflexivity].
Qed.

Lemma batch_backward_spec ctx go input wq mk bias g gg x gx q gq (mask : tensor bool)
    bs n m k (s : state) :
  saved_variables ctx = [Some input; Some wq; Some mk; bias] ->
  lookup s go = Some (VTensor g gg) ->
  lookup s input = Some (VTensor x gx) ->
  lookup s wq = Some (VTensor q gq) ->
  lookup s mk = Some (VMask mask) ->
  shape g = bs ++ [n; m] -> shape x = bs ++ [n; k] ->
  shape q = [m; k] -> shape mask = [m; k] ->
  wp (BinaryLinearFunction_backward ctx go)
     (fun r s' =>
        extends s s' /\
        grad_slot (nth 0 (needs_input_grad ctx) false) s' (fst (fst r))
          (batch_grad_input g q bs n m k) /\
        grad_slot (nth 1 (needs_input_grad ctx) false) s' (snd (fst r))
          (batch_masked_grad_weight g x mask bs n m k) /\
        grad_slot (match bias with
                   | Some _ => nth 2 (needs_input_grad ctx) false
                   | None => false
                   end) s' (snd r)
          (fun y => y = squeeze0 (sum0 g))) s.
Proof.
  intros Sv Lg Lx Lq Lm Sg Sx Sq Sm. unfold BinaryLinearFunction_backward.
  rewrite Sv.
  step. eapply wp_mono; [eapply batch_grad_input_block; eassumption|].
  intros gi s1 (E1 & G1). cbv beta.
  step. eapply wp_mono;
    [eapply batch_grad_weight_block;
       [apply E1, Lg|apply E1, Lx|apply E1, Lm|eassumption..]|].
  intros gw s2 (E2 & G2). cbv beta.
  step. eapply wp_mono; [eapply grad_bias_block; apply E2, E1, Lg|].
  intros gb s3 (E3 & G3). cbv beta.
  apply wp_ret. cbn [fst snd].
  split; [exact (extends_trans (extends_trans E1 E2) E3)|].
  split; [exact (grad_slot_extends _ _ _ (extends_trans E2 E3) G1)|].
  split; [exact (grad_slot_extends _ _ _ E3 G2)|exact G3].
Qed.

(** A forward call of the Sign Binarizer on a stack of matrices, followed by
    the backward call on its context. *)
Lemma batch_forward_backward_spec ctx input weight bias go (s : state)
    x gx w gw bv gb g gg bs n k m :
  lookup s input = Some (VTensor x gx) ->
  lookup s weight = Some (VTensor w gw) ->
  lookup s bias = Some (VTensor bv gb) ->
  lookup s go = Some (VTensor g gg) ->
  shape x = bs ++ [n; k] -> shape w = [m; k] -> shape bv = [m] ->
  shape g = bs ++ [n; m] ->
  wf w ->
  exists ctx' output sf mk gi gw_ gb_ sb,
    BinaryLinearFunction_forward ctx input weight (Some bias) s
      = (Ok (ctx', output), sf) /\
    nth 2 (saved_variables ctx') None = Some mk /\
    lookup sf mk = Some (VMask (saved_mask w)) /\
    BinaryLinearFunction_backward ctx' go sf = (Ok (gi, gw_, gb_), sb) /\
    extends s sb /\
    grad_slot (nth 0 (needs_input_grad ctx) false) sb gi
      (batch_grad_input g (torch_sign w) bs n m k) /\
    grad_slot (nth 1 (needs_input_grad ctx) false) sb gw_
      (batch_masked_grad_weight g x (saved_mask w) bs n m k) /\
    grad_slot (nth 2 (needs_input_grad ctx) false) sb gb_
      (fun y => y = squeeze0 (sum0 g)).
Proof.
  intros Li Lw Lb Lg Sx Sw Sb Sg W.
  assert (Sx' : shape x = (bs ++ [n]) ++ [k]) by now rewrite <- app_assoc.
  pose proof (@forward_spec ctx input weight bias s x gx w gw bv gb (bs ++ [n]) k m
                Li Lw Lb Sx' Sw Sb W) as F.
  apply wp_elim in F.
  destruct F as ([ctx' output] & s' & E & wq & mk & y0 & Ec & X1 & Lq & Lm & _).
  cbn [fst snd] in *. subst ctx'.
  assert (Sm : shape (saved_mask w) = [m; k]) by exact Sw.
  assert (Sq : shape (torch_sign w) = [m; k]) by exact Sw.
  pose proof (@batch_backward_spec
                (save_for_backward ctx [Some input; Some wq; Some mk; Some bias])
                go input wq mk (Some bias) g gg x gx (torch_sign w) false
                (saved_mask w) bs n m k s' eq_refl (X1 _ _ Lg) (X1 _ _ Li) Lq Lm
                Sg Sx Sq Sm) as B.
  apply wp_elim in B.
  destruct B as ([[gi gw_] gb_] & s2 & E2 & X2 & G1 & G2 & G3).
  cbn [fst snd save_for_backward needs_input_grad] in *.
  exists (save_for_backward ctx [Some input; Some wq; Some mk; Some bias]),
    output, s', mk, gi, gw_, gb_, s2.
  split; [exact E|]. split; [reflexivity|]. split; [exact Lm|].
  split; [exact E2|]. split; [exact (extends_trans X1 X2)|].
  split; [exact G1|]. split; [exact G2|exact G3].
Qed.

(** ** The same for the Scaled-Tanh Binarizer *)

(** [k * t * (1 - torch.square(torch.tanh(t * weight_norm)))] for 0-d [k]
    and [t]. *)
Lemma surrogate_factor (kt tt nt : tensor T) kv tv m k :
  shape kt = [] -> data kt = [kv] -> shape tt = [] -> data tt = [tv] ->
  shape nt = [m; k] ->
  exists ktt sc gbin,
    mul kt tt = Ok ktt /\ mul tt nt = Ok sc /\
    mul ktt (rsub s1 (torch_square (torch_tanh sc))) = Ok gbin /\
    shape gbin = [m; k] /\
    forall o i, o < m -> i < k ->
      entry2 gbin k o i =
      smul (smul kv tv)
           (ssub s1 (smul (stanh (smul tv (entry2 nt k o i)))
                          (stanh (smul tv (entry2 nt k o i))))).
Proof.
  intros Sk Dk St Dt Sn. unfold mul.
  assert (N : numel [m; k] = m * k) by apply numel_matrix.
  rewrite (@broadcast2_scalar_l _ _ _ smul s0 s0 kt tt) by assumption.
  eexists. eexists. eexists. split; [reflexivity|].
  rewrite (@broadcast2_scalar_l _ _ _ smul s0 s0 tt nt) by assumption.
  split; [reflexivity|].
  rewrite broadcast2_scalar_l by (cbn [shape]; exact St).
  split; [reflexivity|].
  split; [cbn [shape rsub torch_square torch_tanh tmap]; exact Sn|].
  intros o i Ho Hi. unfold entry2.
  assert (P : o * k + i < m * k) by now apply index_lt.
  cbn [data shape rsub torch_square torch_tanh tmap].
  rewrite Sn, St, N. rewrite nth_tab by assumption.
  cbn [numel fold_right tab seq map nth]. rewrite Dk, Dt. cbn [nth]. f_equal.
  rewrite !(nth_map_in _ _ s0) by now rewrite ?length_map, length_tab.
  now rewrite nth_tab by assumption.
Qed.

(** The weight gradient of [IRLinearFunction.backward]. *)
Lemma batch_IR_grad_weight_block (f : bool) go input kk ta wn g gg x gx kt gk tt gt
    nt gn kv tv bs n m k (s : state) :
  lookup s go = Some (VTensor g gg) ->
  lookup s input = Some (VTensor x gx) ->
  lookup s kk = Some (VTensor kt gk) ->
  lookup s ta = Some (VTensor tt gt) ->
  lookup s wn = Some (VTensor nt gn) ->
  shape g = bs ++ [n; m] -> shape x = bs ++ [n; k] ->
  shape kt = [] -> data kt = [kv] -> shape tt = [] -> data tt = [tv] ->
  shape nt = [m; k] ->
  wp (if f then
        (gt_ <- op1 transpose_last2 go ;;
         grad_weight_b <- op2 matmul gt_ input ;;
         ktt <- (a <- operand (Some ta) ;; op2 mul kk a) ;;
         scaled <- (a <- operand (Some ta) ;; op2 mul a wn) ;;
         th <- op1 (pure1 torch_tanh) scaled ;;
         sq <- op1 (pure1 torch_square) th ;;
         om <- op1 (pure1 (rsub s1)) sq ;;
         grad_binary <- op2 mul ktt om ;;
         r <- op2 mul grad_weight_b grad_binary ;;
         ret (Some r))
      else ret None)
     (fun r s' =>
        extends s s' /\
        grad_slot f s' r (batch_surrogate_grad_weight g x kv tv nt bs n m k)) s.
Proof.
  intros Lg Lx Lk Lt Ln Sg Sx Sk Dk St Dt Sn. destruct f.
  - eapply batch_transposed_product; [exact Lg|exact Lx|exact Sg|exact Sx|].
    intros gt_ gwb Sgw Hgw.
    destruct (@surrogate_factor kt tt nt kv tv m k Sk Dk St Dt Sn)
      as (ktt & sc & gbin & E1 & E2 & E3 & Sb & Hb).
    destruct (@mul_stack gwb gbin bs m k Sgw Sb) as (y & E4 & Sy & Hy).
    step. step. apply wp_ret. eapply wp_op2; [solve_lookup|solve_lookup|exact E1|].
    step. step. apply wp_ret. eapply wp_op2; [solve_lookup|solve_lookup|exact E2|].
    step. eapply wp_op1; [solve_lookup|reflexivity|].
    step. eapply wp_op1; [solve_lookup|reflexivity|].
    step. eapply wp_op1; [solve_lookup|reflexivity|].
    step. eapply wp_op2; [solve_lookup|solve_lookup|exact E3|].
    step. eapply wp_op2; [solve_lookup|solve_lookup|exact E4|].
    apply wp_ret. split; [intros a v L; solve_lookup|].
    do 2 eexists. split; [reflexivity|]. split; [solve_lookup|].
    split; [exact Sy|].
    intros t o i Ht Ho Hi. rewrite Hy, Hb by assumption. now rewrite Hgw.
  - apply wp_ret. split; [apply extends_refl|reflexivity].
Qed.

Lemma batch_IR_backward_spec ctx go input wb wn bias ws ta kk
    g gg x gx q gq nt gn kt gk tt gt kv tv bs n m k (s : state) :
  saved_variables ctx =
    [Some input; Some wb; Some wn; bias; Some ws; Some ta; Some kk] ->
  lookup s go = Some (VTensor g gg) ->
  lookup s input = Some (VTensor x gx) ->
  lookup s wb = Some (VTensor q gq) ->
  lookup s wn = Some (VTensor nt gn) ->
  lookup s kk = Some (VTensor kt gk) ->
  lookup s ta = Some (VTensor tt gt) ->
  shape g = bs ++ [n; m] -> shape x = bs ++ [n; k] ->
  shape q = [m; k] -> shape nt = [m; k] ->
  shape kt = [] -> data kt = [kv] -> shape tt = [] -> data tt = [tv] ->
  wp (IRLinearFunction_backward ctx go)
     (fun r s' =>
        extends s s' /\
        grad_slot (nth 0 (needs_input_grad ctx) false) s' (fst (fst (fst r)))
          (batch_grad_input g q bs n m k) /\
        grad_slot (nth 1 (needs_input_grad ctx) false) s' (snd (fst (fst r)))
          (batch_surrogate_grad_weight g x kv tv nt bs n m k) /\
        grad_slot (match bias with
                   | Some _ => nth 2 (needs_input_grad ctx) false
                   | None => false
                   end) s' (snd (fst r))
          (fun y => y = sum0 g) /\
        snd r = None) s.
Proof.
  intros Sv Lg Lx Lq Ln Lk Lt Sg Sx Sq Sn Sk Dk St Dt.
  unfold IRLinearFunction_backward. rewrite Sv.
  step. eapply wp_mono; [eapply batch_grad_input_block; eassumption|].
  intros gi sa (E1 & G1). cbv beta.
  step. eapply wp_mono;
    [eapply batch_IR_grad_weight_block;
       [apply E1, Lg|apply E1, Lx|apply E1, Lk|apply E1, Lt|apply E1, Ln
       |eassumption..]|].
  intros gw sb (E2 & G2). cbv beta.
  step. eapply wp_mono; [eapply IR_grad_bias_block; apply E2, E1, Lg|].
  intros gb sc (E3 & G3). cbv beta.
  apply wp_ret. cbn [fst snd].
  split; [exact (extends_trans (extends_trans E1 E2) E3)|].
  split; [exact (grad_slot_extends _ _ _ (extends_trans E2 E3) G1)|].
  split; [exact (grad_slot_extends _ _ _ E3 G2)|]. split; [exact G3|reflexivity].
Qed.

(** A forward call of the Scaled-Tanh Binarizer on a stack of matrices,
    followed by the backward call on its context. *)
Lemma batch_IR_forward_backward_spec ctx input weight bias ta go (s : state)
    x gx w gw bv gb tt gt g gg tv bs n k m :
  lookup s input = Some (VTensor x gx) ->
  lookup s weight = Some (VTensor w gw) ->
  lookup s bias = Some (VTensor bv gb) ->
  lookup s ta = Some (VTensor tt gt) ->
  lookup s go = Some (VTensor g gg) ->
  shape tt = [] -> data tt = [tv] ->
  shape x = bs ++ [n; k] -> shape w = [m; k] -> shape bv = [m] ->
  shape g = bs ++ [n; m] ->
  wf w ->
  exists ctx' output sf gi gw_ gb_ sb qb nt,
    IRLinearFunction_forward ctx input weight (Some bias) (Some ta) s
      = (Ok (ctx', output), sf) /\
    IRLinearFunction_backward ctx' go sf = (Ok (gi, gw_, gb_, None), sb) /\
    extends s sb /\
    shape qb = [m; k] /\
    (forall o i, o < m -> i < k ->
       entry2 qb k o i = spec_quant tv (data w) (entry2 w k o i)) /\
    (forall o i, o < m -> i < k ->
       entry2 nt k o i = spec_norm (data w) (entry2 w k o i)) /\
    grad_slot (nth 0 (needs_input_grad ctx) false) sb gi
      (batch_grad_input g qb bs n m k) /\
    grad_slot (nth 1 (needs_input_grad ctx) false) sb gw_
      (batch_surrogate_grad_weight g x (spec_k tv) tv nt bs n m k) /\
    grad_slot (nth 2 (needs_input_grad ctx) false) sb gb_ (fun y => y = sum0 g).
Proof.
  intros Li Lw Lb Lt Lg St Dt Sx Sw Sb Sg W.
  assert (Sx' : shape x = (bs ++ [n]) ++ [k]) by now rewrite <- app_assoc.
  pose proof (@IR_forward_spec ctx input weight bias ta s x gx w gw bv gb tt gt tv
                (bs ++ [n]) k m Li Lw Lb Lt St Dt Sx' Sw Sb W) as F.
  apply wp_elim in F.
  destruct F as ([ctx' output] & sf & E & wb & wn & ws & kk & qb & nt & y0 & Ec & X1
                 & Lq & Sq & Hq & Ln & Sn & Hn & _ & Lk & _).
  cbn [fst snd] in *. subst ctx'.
  pose proof (@batch_IR_backward_spec
                (save_for_backward ctx
                   [Some input; Some wb; Some wn; Some bias; Some ws; Some ta; Some kk])
                go input wb wn (Some bias) ws ta kk
                g gg x gx qb false nt false (mkT [] [spec_k tv]) false tt gt
                (spec_k tv) tv bs n m k sf eq_refl
                (X1 _ _ Lg) (X1 _ _ Li) Lq Ln Lk (X1 _ _ Lt)
                Sg Sx Sq Sn eq_refl eq_refl St Dt) as B.
  apply wp_elim in B.
  destruct B as ([[[gi gw_] gb_] gt_] & sb & E2 & X2 & G1 & G2 & G3 & E4).
  cbn [fst snd save_for_backward needs_input_grad] in *. subst gt_.
  eexists _, output, sf, gi, gw_, gb_, sb, qb, nt.
  split; [exact E|]. split; [exact E2|]. split; [exact (extends_trans X1 X2)|].
  split; [exact Sq|].
  split; [intros o i Ho Hi; unfold entry2; apply Hq; now apply index_lt|].
  split; [intros o i Ho Hi; unfold entry2; apply Hn; now apply index_lt|].
  split; [exact G1|]. split; [exact G2|exact G3].
Qed.

(** ** The weight gradients, for every input that has a batch *)

(** C2, as the code has it.  Sign Binarizer backward, after a forward call
    on an input of shape [bs ++ [n; k]] (at least one dimension before the
    features; [bs] may be empty, the input is then a matrix) and for a
    gradient of the shape [bs ++ [n; m]] of the output: when the weight
    needs a gradient, the weight gradient is
    [grad_output.transpose(-1, -2) . input], one product per matrix of the
    batch, so it has the shape [bs ++ [m; k]], which is the shape of the
    weight exactly when the input is a matrix.  In every one of these
    products entry [(o, i)] is 0 where the mask saved by forward,
    [(weight > 1) OR (weight < -1)], is true, and is the entry of the
    product elsewhere.  So for a weight strictly inside (-1, 1) the entry is
    that of the plain product, and for a weight above 1 or below -1 it is
    exactly 0. *)
Theorem BinaryLinearFunction_backward_grad_weight `{!@ScalarOrder T SC}
    ctx input weight bias go (s : state) x gx w gw bv gb g gg bs n k m :
  lookup s input = Some (VTensor x gx) ->
  lookup s weight = Some (VTensor w gw) ->
  lookup s bias = Some (VTensor bv gb) ->
  lookup s go = Some (VTensor g gg) ->
  shape x = bs ++ [n; k] -> shape w = [m; k] -> shape bv = [m] ->
  shape g = bs ++ [n; m] ->
  wf w ->
  nth 1 (needs_input_grad ctx) false = true ->
  exists ctx' output sf mk grad_input grad_weight grad_bias sb y,
    BinaryLinearFunction_forward ctx input weight (Some bias) s
      = (Ok (ctx', output), sf) /\
    nth 2 (saved_variables ctx') None = Some mk /\
    lookup sf mk = Some (VMask (saved_mask w)) /\
    BinaryLinearFunction_backward ctx' go sf
      = (Ok (grad_input, Some grad_weight, grad_bias), sb) /\
    lookup sb grad_weight = Some (VTensor y false) /\
    shape y = bs ++ [m; k] /\
    forall t o i, t < numel bs -> o < m -> i < k ->
      nth (o * k + i) (data (saved_mask w)) false = spec_mask (entry2 w k o i) /\
      entry3 y m k t o i =
        (if spec_mask (entry2 w k o i) then s0
         else batch_grad_weight g x n m k t o i) /\
      (sltb (sneg s1) (entry2 w k o i) = true -> sltb (entry2 w k o i) s1 = true ->
       entry3 y m k t o i = batch_grad_weight g x n m k t o i) /\
      (sltb s1 (entry2 w k o i) = true \/ sltb (entry2 w k o i) (sneg s1) = true ->
       entry3 y m k t o i = s0).
Proof.
  intros Li Lw Lb Lg Sx Sw Sb Sg W N1.
  destruct (@batch_forward_backward_spec ctx input weight bias go s x gx w gw bv gb
              g gg bs n k m Li Lw Lb Lg Sx Sw Sb Sg W)
    as (ctx' & output & sf & mk & gi & gw_ & gb_ & sb & E & Em & Lm & E2 & _ & _
        & G2 & _).
  rewrite N1 in G2. destruct G2 as (a & y & -> & Ly & Sy & Hy).
  exists ctx', output, sf, mk, gi, a, gb_, sb, y.
  split; [exact E|]. split; [exact Em|]. split; [exact Lm|].
  split; [exact E2|]. split; [exact Ly|]. split; [exact Sy|].
  intros t o i Ht Ho Hi.
  assert (Ek : nth (o * k + i) (data (saved_mask w)) false = spec_mask (entry2 w k o i)).
  { apply nth_saved_mask. rewrite Sw, numel_matrix. now apply index_lt. }
  assert (Ey := Hy t o i Ht Ho Hi). rewrite Ek in Ey.
  split; [exact Ek|]. split; [exact Ey|]. split.
  - intros Lo Hi'. now rewrite Ey, spec_mask_inside.
  - intros Out. now rewrite Ey, spec_mask_outside.
Qed.

(** C4, as the code has it.  Scaled-Tanh Binarizer backward, after a
    forward call on an input of shape [bs ++ [n; k]] (at least one dimension
    before the features) and for a gradient of the shape [bs ++ [n; m]] of
    the output: when the weight needs a gradient, the weight gradient is
    [grad_output.transpose(-1, -2) . input], one product per matrix of the
    batch, each multiplied elementwise by the surrogate derivative
    [k * t * (1 - tanh(t * weight_norm)^2)] computed from the saved [k], [t]
    and [weight_norm]; it has the shape [bs ++ [m; k]], the shape of the
    weight exactly when the input is a matrix.  And whatever the context
    and the state, the fourth slot of a tuple that backward returns, the
    slot of [t], is [None]. *)
Theorem IRLinearFunction_backward_grad_weight ctx input weight bias ta go (s : state)
    x gx w gw bv gb tt gt g gg tv bs n k m :
  lookup s input = Some (VTensor x gx) ->
  lookup s weight = Some (VTensor w gw) ->
  lookup s bias = Some (VTensor bv gb) ->
  lookup s ta = Some (VTensor tt gt) ->
  lookup s go = Some (VTensor g gg) ->
  shape tt = [] -> data tt = [tv] ->
  shape x = bs ++ [n; k] -> shape w = [m; k] -> shape bv = [m] ->
  shape g = bs ++ [n; m] ->
  wf w ->
  nth 1 (needs_input_grad ctx) false = true ->
  (exists ctx' output sf grad_input grad_weight grad_bias grad_t sb y,
     IRLinearFunction_forward ctx input weight (Some bias) (Some ta) s
       = (Ok (ctx', output), sf) /\
     IRLinearFunction_backward ctx' go sf
       = (Ok (grad_input, Some grad_weight, grad_bias, grad_t), sb) /\
     grad_t = None /\
     lookup sb grad_weight = Some (VTensor y false) /\
     shape y = bs ++ [m; k] /\
     forall t o i, t < numel bs -> o < m -> i < k ->
       entry3 y m k t o i =
       smul (batch_grad_weight g x n m k t o i)
            (spec_surrogate tv (data w) (entry2 w k o i))) /\
  (forall c g0 (st : state) r st',
     IRLinearFunction_backward c g0 st = (Ok r, st') -> snd r = None).
Proof.
  intros Li Lw Lb Lt Lg St Dt Sx Sw Sb Sg W N1. split.
  - destruct (@batch_IR_forward_backward_spec ctx input weight bias ta go s
                x gx w gw bv gb tt gt g gg tv bs n k m
                Li Lw Lb Lt Lg St Dt Sx Sw Sb Sg W)
      as (ctx' & output & sf & gi & gw_ & gb_ & sb & qb & nt & E & E2 & _ & _ & _
          & Hn & _ & G2 & _).
    rewrite N1 in G2. destruct G2 as (a & y & -> & Ly & Sy & Hy).
    exists ctx', output, sf, gi, a, gb_, None, sb, y.
    split; [exact E|]. split; [exact E2|]. split; [reflexivity|].
    split; [exact Ly|]. split; [exact Sy|].
    intros t o i Ht Ho Hi. rewrite Hy by assumption. unfold spec_surrogate.
    now rewrite Hn by assumption.
  - intros c g0 st r st' E.
    destruct (@frames_IR_backward c g0 st (Nat.le_0_l _)) as (_ & _ & Q).
    now rewrite E in Q.
Qed.

(** * The surgery returns *)

Lemma wp_keeps A (I : state -> Prop) (m : M A) (Q : A -> state -> Prop) (s : state) :
  wp m Q s -> keeps I m -> I s -> wp m (fun a s' => Q a s' /\ I s') s.
Proof.
  unfold wp, keeps. intros H K Hi.
  destruct (m s) as [[a|e] s'] eqn:E; [|exact H].
  split; [exact H|]. exact (K s a s' Hi E).
Qed.

(** The constructors of the surgery create no dense layer: a dense layer of
    the state they leave is a dense layer of the state they started from. *)
Lemma own_parameters_dense binarize_layer (s st : state) :
  own_parameters (requested binarize_layer) s st ->
  forall a p, linear_at st a = Some p -> linear_at s a = Some p.
Proof.
  intros (X & H) a p L.
  destruct (lookup s a) as [v|] eqn:Ls.
  - unfold linear_at in *. rewrite (X _ _ Ls) in L. now rewrite Ls.
  - exfalso. unfold linear_at in L.
    destruct (lookup st a) as [[? ?|?|m]|] eqn:Lt; try discriminate L.
    destruct (H a m Ls Lt) as (p' & g0 & ba & -> & _).
    unfold requested in L. now destruct (String.eqb binarize_layer "basic").
Qed.

(** The loop over the children of a group returns as soon as every dense
    child has input features, whatever the names and the objects of the
    group: an object registered twice, or a name used twice, changes which
    entry is overwritten, not whether the loop returns. *)
Lemma replace_children_returns binarize_layer qk qv kv (s : state) i g :
  binarize_layer = "basic"%string \/ binarize_layer = "ir"%string ->
  forall rest memo b (sc : state) blk,
    nth_error (transformer_h sc) i = Some blk ->
    (forall n a p, In (n, a) rest -> linear_at s a = Some p -> in_features p <> 0) ->
    (forall a p, linear_at sc a = Some p -> linear_at s a = Some p) ->
    wp (replace_children binarize_layer qk qv kv i g rest memo b)
       (fun _ sf =>
          (forall a p, linear_at sf a = Some p -> linear_at s a = Some p) /\
          exists es',
            transformer_h sf = update i (set_group g blk es') (transformer_h sc)) sc.
Proof.
  intros V. induction rest as [|[n a] rest IH]; intros memo b sc blk Hb Hw Hd.
  - apply wp_ret. split; [exact Hd|]. exists (get_group g blk).
    rewrite set_group_get. symmetry. now apply update_same.
  - assert (Hw' : forall n0 a0 p, In (n0, a0) rest -> linear_at s a0 = Some p ->
                    in_features p <> 0)
      by (intros n0 a0 p H0; apply (Hw n0 a0 p); now right).
    cbn [replace_children]. destruct (existsb (Nat.eqb a) memo).
    { exact (IH memo b sc blk Hb Hw' Hd). }
    step. apply wp_exact_Linear.
    destruct (linear_at sc a) as [p|] eqn:El.
    + destruct (kv && String.eqb n "c_attn_q");
        [step; apply wp_ret; exact (IH _ b sc blk Hb Hw' Hd)|].
      destruct (qv && String.eqb n "c_attn_k");
        [step; apply wp_ret; exact (IH _ b sc blk Hb Hw' Hd)|].
      destruct (qk && String.eqb n "c_attn_v");
        [step; apply wp_ret; exact (IH _ b sc blk Hb Hw' Hd)|].
      step. step.
      eapply wp_mono.
      { apply (@wp_keeps _ (own_parameters (requested binarize_layer) sc)).
        - apply wp_construct; [exact V|].
          exact (Hw n a p (or_introl eq_refl) (Hd a p El)).
        - now apply keeps_own_parameters.
        - apply own_parameters_refl. }
      intros r s1 ((x & -> & _ & _ & _ & Ht1 & _) & O).
      cbv beta. step.
      eapply wp_group_setitem; [rewrite Ht1; exact Hb|].
      apply wp_ret.
      set (blk2 := set_group g blk (dict_set n x (get_group g blk))).
      set (s2 := set_transformer_h s1 (update i blk2 (transformer_h s1))).
      assert (Hb2 : nth_error (transformer_h s2) i = Some blk2).
      { unfold s2. cbn [transformer_h set_transformer_h].
        apply nth_error_update_same. rewrite Ht1.
        apply nth_error_Some. congruence. }
      assert (Hd2 : forall a0 p0, linear_at s2 a0 = Some p0 -> linear_at s a0 = Some p0).
      { intros a0 p0 L0. apply Hd.
        exact (@own_parameters_dense binarize_layer sc s1 O a0 p0 L0). }
      eapply wp_mono; [exact (IH (a :: memo) (Some x) s2 blk2 Hb2 Hw' Hd2)|].
      intros _ sf (Hdf & es' & Ht). split; [exact Hdf|]. exists es'.
      rewrite Ht. unfold blk2, s2. cbn [transformer_h set_transformer_h].
      now rewrite set_group_set, update_update, Ht1.
    + step. apply wp_ret. exact (IH _ b sc blk Hb Hw' Hd).
Qed.

Lemma binarize_blocks_returns binarize_layer qk qv kv (s : state) :
  binarize_layer = "basic"%string \/ binarize_layer = "ir"%string ->
  forall rest done b (sc : state),
    transformer_h sc = done ++ rest ->
    (forall blk n a p, In blk rest -> In (n, a) (mlp blk ++ attn blk) ->
       linear_at s a = Some p -> in_features p <> 0) ->
    (forall a p, linear_at sc a = Some p -> linear_at s a = Some p) ->
    wp (binarize_blocks binarize_layer qk qv kv (length rest) (length done) b)
       (fun _ _ => True) sc.
Proof.
  intros V. induction rest as [|blk rest IH]; intros done b sc Ht Hw Hd.
  - now apply wp_ret.
  - cbn [length binarize_blocks].
    assert (Hb : nth_error (transformer_h sc) (length done) = Some blk)
      by (rewrite Ht; apply nth_error_app_length).
    step. eapply wp_get_block; [exact Hb|].
    step. eapply wp_mono.
    { apply (@replace_children_returns binarize_layer qk qv kv s (length done) Mlp V
               (mlp blk) [] b sc blk Hb); [|exact Hd].
      intros n a p Hin. apply (Hw blk n a p (or_introl eq_refl)).
      apply in_or_app. now left. }
    intros b1 sa (Hd1 & mlp' & Ht1). cbv beta.
    rewrite Ht, update_app_length in Ht1.
    set (blk1 := set_group Mlp blk mlp') in *.
    assert (Hb1 : nth_error (transformer_h sa) (length done) = Some blk1)
      by (rewrite Ht1; apply nth_error_app_length).
    step. eapply wp_get_block; [exact Hb1|].
    step. eapply wp_mono.
    { apply (@replace_children_returns binarize_layer qk qv kv s (length done) Attn V
               (attn blk1) [] b1 sa blk1 Hb1); [|exact Hd1].
      intros n a p Hin. apply (Hw blk n a p (or_introl eq_refl)).
      apply in_or_app. now right. }
    intros b2 sb (Hd2 & attn' & Ht2). cbv beta.
    rewrite Ht1, update_app_length in Ht2.
    set (blk2 := set_group Attn blk1 attn') in *.
    assert (Ht2' : transformer_h sb = (done ++ [blk2]) ++ rest)
      by now rewrite <- app_assoc.
    replace (S (length done)) with (length (done ++ [blk2]))
      by (rewrite length_app; simpl; lia).
    apply (IH (done ++ [blk2]) b2 sb Ht2'); [|exact Hd2].
    intros blk0 n a p H0. apply Hw. now right.
Qed.

(** For a recognized kind the surgery returns on every model whose dense
    sub-layers have input features. *)
Lemma binarizer_returns binarize_layer qk qv kv (s : state) :
  binarize_layer = "basic"%string \/ binarize_layer = "ir"%string ->
  widths_positive s ->
  exists s', binarizer binarize_layer qk qv kv s = (Ok tt, s').
Proof.
  intros V Hw.
  assert (F : wp (binarizer binarize_layer qk qv kv) (fun _ _ => True) s).
  { unfold binarizer.
    change (wp (binarize_blocks binarize_layer qk qv kv (length (transformer_h s))
                  (@length block []) None ;;; ret tt)
              (fun _ _ => True) s).
    step. eapply wp_mono.
    { apply (@binarize_blocks_returns binarize_layer qk qv kv s V (transformer_h s) []
               None s eq_refl).
      - intros blk n a p H. now apply Hw.
      - auto. }
    intros _ sf _. now apply wp_ret. }
  apply wp_elim in F. destruct F as ([] & s' & E & _). now exists s'.
Qed.

(** C9, as the code has it.  The surgery returns no value (the unit of its
    monad) and does not validate [binarize_layer].  Whatever the string,
    when no group holds a dense layer that the filter lets through, the call
    returns normally and leaves the model and the heap exactly as they were:
    no error is raised for a kind that is neither "basic" nor "ir".  For
    "basic" and "ir" the call returns on every model whose dense sub-layers
    have at least one input feature. *)
Theorem binarizer_does_not_validate binarize_layer qk_only qv_only kv_only
    (s : state) :
  ((forall blk, In blk (transformer_h s) ->
      nothing_to_replace qk_only qv_only kv_only s (mlp blk) /\
      nothing_to_replace qk_only qv_only kv_only s (attn blk)) ->
   binarizer binarize_layer qk_only qv_only kv_only s = (Ok tt, s)) /\
  (binarize_layer = "basic"%string \/ binarize_layer = "ir"%string ->
   widths_positive s ->
   exists s', binarizer binarize_layer qk_only qv_only kv_only s = (Ok tt, s')).
Proof.
  split.
  - intros H. unfold binarizer.
    erewrite bind_ok; [reflexivity|].
    now apply (@binarize_blocks_nothing binarize_layer qk_only qv_only kv_only s
                 (transformer_h s) [] None eq_refl).
  - intros V Hw. now apply binarizer_returns.
Qed.

(** * The bias gradient on a stack *)

(** On an input with more than one batch dimension the bias gradient is not
    a vector.  After a forward call on an input of shape
    [d :: bs ++ [n; k]] (a stack: at least three dimensions) and for a
    gradient of the shape [d :: bs ++ [n; m]] of the output, when the bias
    needs a gradient: [grad_output.sum(0)] sums over the first dimension
    only, so the bias gradient that the backward of the Scaled-Tanh
    Binarizer returns has the shape [bs ++ [n; m]], element [j] being the
    sum over [b < d] of element [j] of matrix-block [b] of the gradient; the
    backward of the Sign Binarizer returns the same elements, with the
    first dimension of that shape dropped when it is 1.  The first never has
    the shape [[m]] of the bias; the second has it only for an input of
    shape [[d; 1; k]]. *)
Theorem backward_grad_bias_first_dimension ctx input weight bias ta go (s : state)
    x gx w gw bv gb tt gt tv g gg d bs n k m :
  lookup s input = Some (VTensor x gx) ->
  lookup s weight = Some (VTensor w gw) ->
  lookup s bias = Some (VTensor bv gb) ->
  lookup s ta = Some (VTensor tt gt) ->
  lookup s go = Some (VTensor g gg) ->
  shape tt = [] -> data tt = [tv] ->
  shape x = (d :: bs) ++ [n; k] -> shape w = [m; k] -> shape bv = [m] ->
  shape g = (d :: bs) ++ [n; m] ->
  wf w ->
  nth 2 (needs_input_grad ctx) false = true ->
  (exists ctx' output sf gi gw_ grad_bias sb y,
     IRLinearFunction_forward ctx input weight (Some bias) (Some ta) s
       = (Ok (ctx', output), sf) /\
     IRLinearFunction_backward ctx' go sf
       = (Ok (gi, gw_, Some grad_bias, None), sb) /\
     lookup sb grad_bias = Some (VTensor y false) /\
     shape y = bs ++ [n; m] /\
     shape y <> shape bv /\
     forall j, j < numel (bs ++ [n; m]) ->
       nth j (data y) s0
       = ssum (tab d (fun b => nth (b * numel (bs ++ [n; m]) + j) (data g) s0))) /\
  (exists ctx' output sf gi gw_ grad_bias sb y,
     BinaryLinearFunction_forward ctx input weight (Some bias) s
       = (Ok (ctx', output), sf) /\
     BinaryLinearFunction_backward ctx' go sf
       = (Ok (gi, gw_, Some grad_bias), sb) /\
     lookup sb grad_bias = Some (VTensor y false) /\
     shape y = match bs ++ [n; m] with 1 :: r => r | r => r end /\
     (shape y = shape bv <-> bs = [] /\ n = 1) /\
     forall j, j < numel (bs ++ [n; m]) ->
       nth j (data y) s0
       = ssum (tab d (fun b => nth (b * numel (bs ++ [n; m]) + j) (data g) s0))).
Proof.
  intros Li Lw Lb Lt Lg St Dt Sx Sw Sb Sg W N2.
  destruct (@sum0_first g d (bs ++ [n; m]) Sg) as (Ss & Hs).
  assert (R2 : forall r, bs ++ [n; m] = r -> 2 <= length r).
  { intros r <-. rewrite length_app2. lia. }
  split.
  - destruct (@batch_IR_forward_backward_spec ctx input weight bias ta go s
                x gx w gw bv gb tt gt g gg tv (d :: bs) n k m
                Li Lw Lb Lt Lg St Dt Sx Sw Sb Sg W)
      as (ctx' & output & sf & gi & gw_ & gb_ & sb & qb & nt & E & E2 & _ & _ & _
          & _ & _ & _ & G3).
    rewrite N2 in G3. destruct G3 as (a & y & -> & Ly & ->).
    exists ctx', output, sf, gi, gw_, a, sb, (sum0 g).
    split; [exact E|]. split; [exact E2|]. split; [exact Ly|].
    split; [exact Ss|]. split; [|exact Hs].
    rewrite Ss, Sb. intros C. apply R2 in C. simpl in C. lia.
  - destruct (@batch_forward_backward_spec ctx input weight bias go s x gx w gw bv gb
                g gg (d :: bs) n k m Li Lw Lb Lg Sx Sw Sb Sg W)
      as (ctx' & output & sf & mk & gi & gw_ & gb_ & sb & E & _ & _ & E2 & _ & _
          & _ & G3).
    rewrite N2 in G3. destruct G3 as (a & y & -> & Ly & ->).
    exists ctx', output, sf, gi, gw_, a, sb, (squeeze0 (sum0 g)).
    split; [exact E|]. split; [exact E2|]. split; [exact Ly|].
    assert (Sq : shape (squeeze0 (sum0 g))
                 = match bs ++ [n; m] with 1 :: r => r | r => r end).
    { unfold squeeze0. rewrite Ss.
      destruct (bs ++ [n; m]) as [|[|[|c]] r]; try reflexivity; exact Ss. }
    assert (Dq : data (squeeze0 (sum0 g)) = data (sum0 g)).
    { unfold squeeze0. now destruct (shape (sum0 g)) as [|[|[|c]] r]. }
    split; [exact Sq|]. split; [|now rewrite Dq].
    rewrite Sq, Sb. clear. split.
    + destruct bs as [|c0 [|c1 bs']]; cbn [app].
      * destruct n as [|[|n']]; intros C; try discriminate C. now split.
      * destruct c0 as [|[|c0]]; intros C; discriminate C.
      * destruct c0 as [|[|c0]]; intros C; try discriminate C.
        injection C as _ C. destruct bs'; discriminate C.
    + intros (-> & ->). reflexivity.
Qed.

End Facts.

(** ** __repr__ *)

Lemma append_assoc (a b c : string) : ((a ++ b) ++ c = a ++ (b ++ c))%string.
Proof. induction a as [|x a IH]; simpl; [reflexivity|now rewrite IH]. Qed.

Lemma append_inj_l (a b c : string) : (a ++ b = a ++ c)%string -> b = c.
Proof.
  induction a as [|x a IH]; simpl; intros E; [exact E|]. injection E as E. auto.
Qed.

(** The digits of a number end at the first character that is not a digit. *)
Lemma digits_then (c : ascii) :
  ~ In c ["0"; "1"; "2"; "3"; "4"; "5"; "6"; "7"; "8"; "9"]%char ->
  forall d d' r r',
    (NilEmpty.string_of_uint d ++ String c r)%string
    = (NilEmpty.string_of_uint d' ++ String c r')%string ->
    d = d' /\ r = r'.
Proof.
  intros Hc. induction d as [|d IH|d IH|d IH|d IH|d IH|d IH|d IH|d IH|d IH|d IH];
    intros [|d'|d'|d'|d'|d'|d'|d'|d'|d'|d'] r r' E; simpl in E;
    try discriminate E;
    try (injection E as E; destruct (IH _ _ _ E) as (-> & ->); now split);
    try (injection E as -> ; now split);
    try (exfalso; apply Hc; injection E as E _; simpl; rewrite <- ?E; tauto);
    try (exfalso; apply Hc; injection E as E _; simpl; rewrite ?E; tauto).
Qed.

Lemma repr_inj class_name (p p' : LinearParams) :
  repr class_name p = repr class_name p' ->
  in_features p = in_features p' /\ out_features p = out_features p'.
Proof.
  unfold repr, str. intros E. rewrite !append_assoc in E.
  apply append_inj_l in E. cbn [append] in E. injection E as E.
  apply digits_then in E; [|simpl; intuition discriminate].
  destruct E as (Ei & E). injection E as E.
  apply digits_then in E; [|simpl; intuition discriminate].
  destruct E as (Eo & _).
  split; now apply Unsigned.to_uint_inj.
Qed.

(** The printed form of a layer tells its class and its dimensions: two
    layers of one class with the same [__repr__] have the same
    [in_features] and the same [out_features], and no [BinarizedLinear]
    prints as an [IRLinear]. *)
Theorem repr_identifies_layer (p p' : LinearParams) :
  (BinarizedLinear_repr p = BinarizedLinear_repr p' ->
   in_features p = in_features p' /\ out_features p = out_features p') /\
  (IRLinear_repr p = IRLinear_repr p' ->
   in_features p = in_features p' /\ out_features p = out_features p') /\
  BinarizedLinear_repr p <> IRLinear_repr p'.
Proof.
  split; [apply repr_inj|]. split; [apply repr_inj|].
  unfold BinarizedLinear_repr, IRLinear_repr, repr. rewrite !append_assoc.
  cbn [append]. discriminate.
Qed.

(** * Over the reals *)

Lemma tanh_bounds (x : R) : (-1 < tanh x < 1)%R.
Proof.
  unfold tanh, sinh, cosh.
  pose proof (exp_pos x) as A. pose proof (exp_pos (- x)) as B.
  set (a := exp x) in *. set (b := exp (- x)) in *.
  replace ((a - b) / 2 / ((a + b) / 2))%R with ((a - b) / (a + b))%R by (field; lra).
  split.
  - apply Rmult_lt_reg_r with (a + b)%R; [lra|].
    unfold Rdiv. rewrite Rmult_assoc, Rinv_l by lra. lra.
  - apply Rmult_lt_reg_r with (a + b)%R; [lra|].
    unfold Rdiv. rewrite Rmult_assoc, Rinv_l by lra. lra.
Qed.

(** [max(1/t, 1)] *)
Lemma spec_k_real (tv : R) :
  (1 <= spec_k tv)%R /\
  (1 <= tv -> spec_k tv = 1)%R /\
  (0 < tv <= 1 -> spec_k tv = 1 / tv)%R.
Proof.
  unfold spec_k, smax. cbn [sltb sdiv s1 Scalar_R]. unfold Rltb.
  destruct (Rlt_dec (1 / tv) 1) as [L|L].
  - split; [lra|]. split; [reflexivity|].
    intros (H0 & H1). exfalso. apply (Rmult_lt_compat_r tv) in L; [|exact H0].
    unfold Rdiv in L. rewrite Rmult_assoc, Rinv_l in L by lra. lra.
  - split; [lra|]. split; [|reflexivity].
    intros H1. apply Rle_antisym; [|lra].
    apply (Rmult_le_reg_r tv); [lra|].
    unfold Rdiv. rewrite Rmult_assoc, Rinv_l by lra. lra.
Qed.

(** The quantized weight is bounded by [k].  Over the reals, for a
    temperature other than 0 and a weight whose standard deviation is not 0,
    every entry of the quantized weight that the forward of the Scaled-Tanh
    Binarizer saves lies between [-k] and [k], where [k = max(1/t, 1)] is
    the control scalar it saves: [k] is at least 1, it is 1 from [t = 1]
    on, and [1/t] for [t] between 0 and 1. *)
Theorem IRLinearFunction_forward_bounded ctx input weight bias ta (s : @state R)
    x gx w gw bv gb tt gt tv bs k m :
  lookup s input = Some (VTensor x gx) ->
  lookup s weight = Some (VTensor w gw) ->
  lookup s bias = Some (VTensor bv gb) ->
  lookup s ta = Some (VTensor tt gt) ->
  shape tt = [] -> data tt = [tv] ->
  shape x = bs ++ [k] -> shape w = [m; k] -> shape bv = [m] -> wf w ->
  tv <> 0%R -> spec_std (data w) <> 0%R ->
  exists ctx' output s' wb kk q,
    IRLinearFunction_forward ctx input weight (Some bias) (Some ta) s
      = (Ok (ctx', output), s') /\
    nth 1 (saved_variables ctx') None = Some wb /\
    lookup s' wb = Some (VTensor q false) /\
    nth 6 (saved_variables ctx') None = Some kk /\
    lookup s' kk = Some (VTensor (mkT [] [spec_k tv]) false) /\
    (1 <= spec_k tv)%R /\
    (1 <= tv -> spec_k tv = 1)%R /\
    (0 < tv <= 1 -> spec_k tv = 1 / tv)%R /\
    forall o l, o < m -> l < k ->
      (- spec_k tv <= entry2 q k o l <= spec_k tv)%R.
Proof.
  intros Li Lw Lb Lt St Dt Sx Sw Sb W _ _.
  pose proof (@IR_forward_spec R Scalar_R Runtime_R ctx input weight bias ta s
                x gx w gw bv gb tt gt tv bs k m Li Lw Lb Lt St Dt Sx Sw Sb W) as F.
  apply wp_elim in F.
  destruct F as ([ctx' output] & s' & E & wb & wn & ws & kk & qb & nt & y & Ec & _
                 & Lq & Sq & Hq & _ & _ & _ & _ & Lk & _).
  cbn [fst snd] in *. subst ctx'.
  destruct (spec_k_real tv) as (K1 & K2 & K3).
  eexists _, output, s', wb, kk, qb.
  split; [exact E|]. split; [reflexivity|]. split; [exact Lq|].
  split; [reflexivity|]. split; [exact Lk|].
  split; [exact K1|]. split; [exact K2|]. split; [exact K3|].
  intros o l Ho Hl. unfold entry2. rewrite Hq by now apply index_lt.
  unfold spec_quant. cbn [smul stanh Scalar_R Runtime_R].
  match goal with |- (_ <= _ * tanh ?z <= _)%R => pose proof (tanh_bounds z) as B end.
  nra.
Qed.

(** The surrogate derivative keeps the direction of the weight gradient.
    Over the reals, for a positive temperature and a weight whose standard
    deviation is not 0, after a forward call on an input of shape
    [bs ++ [n; k]] (at least one dimension before the features) and for a
    gradient of the shape [bs ++ [n; m]] of the output: when the context
    asks for the weight gradient, the backward of the Scaled-Tanh Binarizer
    returns one [m] by [k] matrix per matrix of the batch, each entry of
    which is the entry of the plain product
    [grad_output.transpose(-1, -2) . input] of that matrix times a factor
    between 0 and [k * t]: the sign of no entry is flipped, and no entry is
    scaled by more than [k * t], which is 1 for [t] up to 1 and [t] from 1
    on. *)
Theorem IRLinearFunction_backward_keeps_sign ctx input weight bias ta go (s : @state R)
    x gx w gw bv gb tt gt g gg tv bs n k m :
  lookup s input = Some (VTensor x gx) ->
  lookup s weight = Some (VTensor w gw) ->
  lookup s bias = Some (VTensor bv gb) ->
  lookup s ta = Some (VTensor tt gt) ->
  lookup s go = Some (VTensor g gg) ->
  shape tt = [] -> data tt = [tv] ->
  shape x = bs ++ [n; k] -> shape w = [m; k] -> shape bv = [m] ->
  shape g = bs ++ [n; m] ->
  wf w ->
  nth 1 (needs_input_grad ctx) false = true ->
  (0 < tv)%R -> spec_std (data w) <> 0%R ->
  exists ctx' output sf gi grad_weight gb_ gt_ sb y,
    IRLinearFunction_forward ctx input weight (Some bias) (Some ta) s
      = (Ok (ctx', output), sf) /\
    IRLinearFunction_backward ctx' go sf
      = (Ok (gi, Some grad_weight, gb_, gt_), sb) /\
    lookup sb grad_weight = Some (VTensor y false) /\
    shape y = bs ++ [m; k] /\
    (tv <= 1 -> spec_k tv * tv = 1)%R /\
    (1 <= tv -> spec_k tv * tv = tv)%R /\
    forall t o i, t < numel bs -> o < m -> i < k ->
      exists c, (0 <= c <= spec_k tv * tv)%R /\
        entry3 y m k t o i = (batch_grad_weight g x n m k t o i * c)%R.
Proof.
  intros Li Lw Lb Lt Lg St Dt Sx Sw Sb Sg W N1 Tp _.
  destruct (@batch_IR_forward_backward_spec R Scalar_R Runtime_R ctx input weight bias
              ta go s x gx w gw bv gb tt gt g gg tv bs n k m
              Li Lw Lb Lt Lg St Dt Sx Sw Sb Sg W)
    as (ctx' & output & sf & gi & gw_ & gb_ & sb & qb & nt & E1 & E2 & _
        & _ & _ & _ & _ & G & _).
  rewrite N1 in G. destruct G as (a & y & -> & Ly & Sy & Hy).
  destruct (spec_k_real tv) as (K1 & K2 & K3).
  assert (Ka : (tv <= 1 -> spec_k tv * tv = 1)%R).
  { intros H. rewrite K3 by lra. field. lra. }
  assert (Kb : (1 <= tv -> spec_k tv * tv = tv)%R).
  { intros H. rewrite K2 by lra. lra. }
  exists ctx', output, sf, gi, a, gb_, None, sb, y.
  split; [exact E1|]. split; [exact E2|]. split; [exact Ly|]. split; [exact Sy|].
  split; [exact Ka|]. split; [exact Kb|].
  intros t o i Ht Ho Hi. rewrite (Hy t o i Ht Ho Hi).
  cbn [smul ssub s1 stanh Scalar_R Runtime_R].
  eexists. split; [|reflexivity].
  match goal with |- (_ <= _ * (1 - tanh ?z * tanh ?z) <= _)%R =>
    pose proof (tanh_bounds z) as B; set (u := tanh z) in *
  end.
  assert (P : (0 < spec_k tv * tv)%R) by (apply Rmult_lt_0_compat; lra).
  set (c := (spec_k tv * tv)%R) in *.
  assert (U : (0 <= 1 - u * u <= 1)%R) by nra.
  nra.
Qed.

Section Normalized.
Local Open Scope R_scope.

Lemma ssum_from (l : list R) (a : R) : fold_left Rplus l a = a + fold_left Rplus l 0.
Proof.
  revert a. induction l as [|x l IH]; intros a; simpl; [lra|].
  rewrite (IH (a + x)), (IH (0 + x)). lra.
Qed.

Lemma ssum_cons (x : R) (l : list R) : ssum (x :: l) = x + ssum l.
Proof. unfold ssum. cbn [fold_left sadd s0 Scalar_R]. rewrite ssum_from. lra. Qed.

Lemma ssum_nil : @ssum R Scalar_R [] = 0.
Proof. reflexivity. Qed.

Lemma ssum_shift (l : list R) (c : R) :
  ssum (map (fun x => x - c) l) = ssum l - INR (length l) * c.
Proof.
  induction l as [|x l IH].
  - simpl. rewrite ssum_nil. lra.
  - cbn [map]. rewrite !ssum_cons, IH.
    change (length (x :: l)) with (S (length l)). rewrite S_INR. lra.
Qed.

Lemma ssum_scale (f : R -> R) (l : list R) (c : R) :
  ssum (map (fun x => f x / c) l) = ssum (map f l) / c.
Proof.
  induction l as [|x l IH].
  - cbn [map]. rewrite ssum_nil. unfold Rdiv. lra.
  - cbn [map]. rewrite !ssum_cons, IH. unfold Rdiv. lra.
Qed.

Lemma ssum_squares_nonneg (f : R -> R) (l : list R) :
  0 <= ssum (map (fun x => f x * f x) l).
Proof.
  induction l as [|x l IH].
  - cbn [map]. rewrite ssum_nil. lra.
  - cbn [map]. rewrite ssum_cons. nra.
Qed.

Lemma norm_mean_zero (l : list R) :
  l <> [] -> ssum (map (spec_norm l) l) = 0.
Proof.
  intros N. unfold spec_norm. cbn [sdiv ssub Scalar_R].
  rewrite (ssum_scale (fun x => x - spec_mean l)), ssum_shift.
  unfold spec_mean. cbn [sdiv of_nat Scalar_R].
  assert (INR (length l) <> 0).
  { apply not_0_INR. destruct l; [congruence|discriminate]. }
  replace (ssum l - INR (length l) * (ssum l / INR (length l))) with 0 by (field; assumption).
  unfold Rdiv. lra.
Qed.

Lemma norm_unit_variance (l : list R) :
  spec_std l <> 0 ->
  ssum (map (fun x => spec_norm l x * spec_norm l x) l) = INR (length l - 1).
Proof.
  intros N.
  set (V := ssum (map (fun x => (x - spec_mean l) * (x - spec_mean l)) l)).
  set (d := INR (length l - 1)).
  assert (Es : spec_std l = sqrt (V / d)) by reflexivity.
  assert (Hpos : 0 < V / d).
  { destruct (Rlt_le_dec 0 (V / d)) as [H|H]; [exact H|].
    exfalso. apply N. rewrite Es. now apply sqrt_neg_0. }
  assert (Hsq : spec_std l * spec_std l = V / d)
    by (rewrite Es; apply sqrt_sqrt; lra).
  assert (HV : 0 <= V) by apply ssum_squares_nonneg.
  assert (Hd0 : 0 <= d) by apply pos_INR.
  assert (Hd : d <> 0).
  { intros Z. rewrite Z in Hpos. unfold Rdiv in Hpos. rewrite Rinv_0 in Hpos. lra. }
  assert (HV0 : V <> 0).
  { intros Z. rewrite Z in Hpos. unfold Rdiv in Hpos. lra. }
  unfold spec_norm. cbn [sdiv ssub smul Scalar_R].
  replace (map (fun x => (x - spec_mean l) / spec_std l * ((x - spec_mean l) / spec_std l)) l)
    with (map (fun x => (x - spec_mean l) * (x - spec_mean l) / (spec_std l * spec_std l)) l).
  2:{ apply map_ext. intros x. field. exact N. }
  rewrite (ssum_scale (fun x => (x - spec_mean l) * (x - spec_mean l))).
  fold V. rewrite Hsq. field. split; assumption.
Qed.

End Normalized.

Lemma tab_S A n (f : nat -> A) : tab (S n) f = f 0 :: tab n (fun p => f (S p)).
Proof. unfold tab. cbn [seq map]. now rewrite <- seq_shift, map_map. Qed.

Lemma tab_nth_map A B (f : A -> B) (l : list A) d :
  tab (length l) (fun p => f (nth p l d)) = map f l.
Proof.
  induction l as [|x l IH]; [reflexivity|].
  cbn [length]. rewrite tab_S. cbn [nth map]. now rewrite IH.
Qed.

(** The normalized weight is standardized.  Over the reals, for a weight
    whose standard deviation is not 0, the normalized weight that the
    forward of the Scaled-Tanh Binarizer saves has the shape of the weight,
    its entries sum to 0 (mean 0) and their squares sum to the number of
    entries minus one (unbiased sample variance 1). *)
Theorem IRLinearFunction_forward_standardizes ctx input weight bias ta (s : @state R)
    x gx w gw bv gb tt gt tv bs k m :
  lookup s input = Some (VTensor x gx) ->
  lookup s weight = Some (VTensor w gw) ->
  lookup s bias = Some (VTensor bv gb) ->
  lookup s ta = Some (VTensor tt gt) ->
  shape tt = [] -> data tt = [tv] ->
  shape x = bs ++ [k] -> shape w = [m; k] -> shape bv = [m] -> wf w ->
  spec_std (data w) <> 0%R ->
  exists ctx' output s' wn nt,
    IRLinearFunction_forward ctx input weight (Some bias) (Some ta) s
      = (Ok (ctx', output), s') /\
    nth 2 (saved_variables ctx') None = Some wn /\
    lookup s' wn = Some (VTensor nt false) /\
    shape nt = [m; k] /\
    ssum (tab (m * k) (fun p => nth p (data nt) 0%R)) = 0%R /\
    ssum (tab (m * k) (fun p => (nth p (data nt) 0 * nth p (data nt) 0)%R))
    = INR (m * k - 1).
Proof.
  intros Li Lw Lb Lt St Dt Sx Sw Sb W N.
  pose proof (@IR_forward_spec R Scalar_R Runtime_R ctx input weight bias ta s
                x gx w gw bv gb tt gt tv bs k m Li Lw Lb Lt St Dt Sx Sw Sb W) as F.
  apply wp_elim in F.
  destruct F as ([ctx' output] & s' & E & wb & wn & ws & kk & qb & nt & y & Ec & _
                 & _ & _ & _ & Ln & Sn & Hn & _).
  cbn [fst snd] in *. subst ctx'.
  assert (Len : length (data w) = m * k).
  { unfold wf in W. rewrite W, Sw. cbn [numel fold_right]. now rewrite Nat.mul_1_r. }
  assert (Nz : data w <> []).
  { intros Z. apply N. rewrite Z. unfold spec_std. cbn [map length Nat.sub].
    change (@ssum R Scalar_R []) with 0%R.
    cbn [ssqrt sdiv of_nat Scalar_R Runtime_R INR].
    unfold Rdiv. rewrite Rmult_0_l. apply sqrt_0. }
  eexists _, output, s', wn, nt.
  split; [exact E|]. split; [reflexivity|]. split; [exact Ln|]. split; [exact Sn|].
  split.
  - rewrite (@tab_ext _ (m * k) _ (fun p => spec_norm (data w) (nth p (data w) 0%R)))
      by (intros p Hp; now apply Hn).
    rewrite <- Len, tab_nth_map. now apply norm_mean_zero.
  - rewrite (@tab_ext _ (m * k) _
               (fun p => (spec_norm (data w) (nth p (data w) 0)
                          * spec_norm (data w) (nth p (data w) 0))%R))
      by (intros p Hp; f_equal; now apply Hn).
    rewrite <- Len.
    rewrite (tab_nth_map (fun z => (spec_norm (data w) z * spec_norm (data w) z)%R)).
    now apply norm_unit_variance.
Qed.

(** * The instances, and the theorems at concrete inputs *)

Lemma Qltb_asym (x y : Q) : Qltb x y = true -> Qltb y x = false.
Proof.
  unfold Qltb. intros H. apply negb_true_iff in H. apply negb_false_iff.
  apply Qle_bool_iff. apply Qlt_le_weak. apply Qnot_le_lt.
  intros L. apply Qle_bool_iff in L. congruence.
Qed.

#[export] Instance ScalarOrder_Q : @ScalarOrder Q Scalar_Q.
Proof. constructor. exact Qltb_asym. Qed.

Lemma Rltb_asym (x y : R) : Rltb x y = true -> Rltb y x = false.
Proof.
  unfold Rltb. destruct (Rlt_dec x y) as [L|]; [|discriminate]. intros _.
  destruct (Rlt_dec y x) as [L'|]; [|reflexivity]. exfalso. lra.
Qed.

#[export] Instance ScalarOrder_R : @ScalarOrder R Scalar_R.
Proof. constructor. exact Rltb_asym. Qed.

Lemma BinaryLinearFunction_forward_output_witness :
  exists ctx' output s',
    BinaryLinearFunction_forward ex_ctx 0 1 (Some 2) ex_state
      = (Ok (ctx', output), s').
Proof.
  pose proof (@BinaryLinearFunction_forward_output Q Scalar_Q ScalarOrder_Q
                ex_ctx 0 1 2 ex_state) as H.
  specialize (H _ _ _ _ _ _ [2] 3 2
                eq_refl eq_refl eq_refl eq_refl eq_refl eq_refl eq_refl).
  destruct H as (ctx' & output & s' & _ & _ & _ & E & _).
  exists ctx', output, s'. exact E.
Defined.

Lemma BinaryLinearFunction_backward_grad_weight_witness :
  exists ctx' output sf grad_input grad_weight grad_bias sb y,
    BinaryLinearFunction_forward ex_ctx 0 1 (Some 2) ex_state_stack
      = (Ok (ctx', output), sf) /\
    BinaryLinearFunction_backward ctx' 3 sf
      = (Ok (grad_input, Some grad_weight, grad_bias), sb) /\
    lookup sb grad_weight = Some (VTensor y false) /\
    shape y = [2; 2; 3].
Proof.
  pose proof (@BinaryLinearFunction_backward_grad_weight Q Scalar_Q ScalarOrder_Q
                ex_ctx 0 1 2 3 ex_state_stack) as H.
  specialize (H _ _ _ _ _ _ _ _ [2] 2 3 2
                eq_refl eq_refl eq_refl eq_refl eq_refl eq_refl eq_refl eq_refl
                eq_refl eq_refl).
  destruct H
    as (ctx' & output & sf & mk & gi & gw & gb & sb & y & E1 & _ & _ & E2 & Ly & Sy & _).
  exists ctx', output, sf, gi, gw, gb, sb, y.
  split; [exact E1|]. split; [exact E2|]. split; [exact Ly|exact Sy].
Defined.

(** C2 refuted as stated.  On an input without a batch dimension, the
    vector of [ex_state_unbatched], forward returns and the context asks for
    the weight gradient, but backward raises [IndexError] and returns no
    gradient.  On the stack of two matrices of [ex_state_stack] the weight
    gradient that backward returns has the shape [[2; 2; 3]], one masked
    product per matrix of the batch, not the shape [[2; 3]] of the weight
    and of its plain gradient. *)
Theorem BinaryLinearFunction_backward_grad_weight_unbatched :
  (exists ctx' output sf,
     BinaryLinearFunction_forward ex_ctx 0 1 (Some 2) ex_state_unbatched
       = (Ok (ctx', output), sf) /\
     nth 1 (needs_input_grad ctx') false = true /\
     fst (BinaryLinearFunction_backward ctx' 3 sf) = Raise IndexError) /\
  (exists ctx' output sf grad_input grad_weight grad_bias sb w,
     BinaryLinearFunction_forward ex_ctx 0 1 (Some 2) ex_state_stack
       = (Ok (ctx', output), sf) /\
     BinaryLinearFunction_backward ctx' 3 sf
       = (Ok (grad_input, Some grad_weight, grad_bias), sb) /\
     lookup sb grad_weight
       = Some (VTensor (mkT [2; 2; 3]
                          [13; 0; 21; 0; 24; 30; 105; 0; 129; 0; 136; 150]%Q) false) /\
     lookup sb 1 = Some (VTensor w true) /\
     shape w = [2; 3]).
Proof.
  split.
  - do 3 eexists. split; [vm_compute; reflexivity|].
    split; [reflexivity|]. vm_compute. reflexivity.
  - do 8 eexists. split; [vm_compute; reflexivity|].
    split; [vm_compute; reflexivity|].
    split; [vm_compute; reflexivity|].
    split; [vm_compute; reflexivity|reflexivity].
Qed.

(** On the matrix input of [ex_state] the weight gradient is
    [(grad_output)^t . input] with the two entries under the mask, where the
    weight is -2 and 3, set to 0. *)
Example BinaryLinearFunction_backward_run :
  let '(r, sf) := BinaryLinearFunction_forward ex_ctx 0 1 (Some 2) ex_state in
  match r with
  | Ok (ctx', _) =>
      match BinaryLinearFunction_backward ctx' 3 sf with
      | (Ok (_, Some gw, _), sb) =>
          lookup sb gw = Some (VTensor (mkT [2; 3] [13; 0; 21; 0; 24; 30]%Q) false)
      | _ => False
      end
  | Raise _ => False
  end.
Proof. vm_compute. reflexivity. Qed.

(** C5 at a failing input.  With a single output feature, a bias of shape
    [[1]] and a gradient of the output of shape [[2; 1]], the backward of
    the Sign Binarizer returns a bias gradient of shape [[]]: the sum over
    the batch, [[3]], squeezed to a 0-d tensor, which is not the rank of the
    bias.  The sum that the backward of the Scaled-Tanh Binarizer returns
    for the same gradient has shape [[1]]. *)
Theorem BinaryLinearFunction_backward_grad_bias_squeezed :
  exists ctx' output sf grad_input grad_weight grad_bias sb,
    BinaryLinearFunction_forward ex_ctx 0 1 (Some 2) ex_state_one
      = (Ok (ctx', output), sf) /\
    lookup sf 2 = Some (VTensor (mkT [1] [10]%Q) true) /\
    lookup sf 3 = Some (VTensor (mkT [2; 1] [1; 2]%Q) false) /\
    BinaryLinearFunction_backward ctx' 3 sf
      = (Ok (grad_input, grad_weight, Some grad_bias), sb) /\
    lookup sb grad_bias = Some (VTensor (mkT [] [3]%Q) false) /\
    sum0 (mkT [2; 1] [1; 2]%Q) = mkT [1] [3]%Q.
Proof.
  do 7 eexists. split; [vm_compute; reflexivity|].
  split; [reflexivity|]. split; [reflexivity|].
  split; [vm_compute; reflexivity|]. split; reflexivity.
Qed.

Lemma IRLinearFunction_forward_output_witness :
  exists ctx' output s',
    IRLinearFunction_forward ex_ctx 0 1 (Some 2) (Some 3) ex_state_R
      = (Ok (ctx', output), s').
Proof.
  pose proof (@IRLinearFunction_forward_output R Scalar_R Runtime_R
                ex_ctx 0 1 2 3 ex_state_R) as H.
  specialize (H _ _ _ _ _ _ _ _ _ [1] 2 1
                eq_refl eq_refl eq_refl eq_refl eq_refl eq_refl eq_refl eq_refl
                eq_refl eq_refl).
  destruct H as (ctx' & output & s' & wb & wn & ws & kk & q & y & E & _).
  exists ctx', output, s'. exact E.
Defined.

Lemma IRLinearFunction_backward_grad_weight_witness :
  exists ctx' output sf grad_input grad_weight grad_bias sb y,
    IRLinearFunction_forward ex_ctx 0 1 (Some 2) (Some 3) ex_state_stack_R
      = (Ok (ctx', output), sf) /\
    IRLinearFunction_backward ctx' 4 sf
      = (Ok (grad_input, Some grad_weight, grad_bias, None), sb) /\
    lookup sb grad_weight = Some (VTensor y false) /\
    shape y = [2; 1; 2].
Proof.
  pose proof (@IRLinearFunction_backward_grad_weight R Scalar_R Runtime_R
                ex_ctx 0 1 2 3 4 ex_state_stack_R) as H.
  specialize (H _ _ _ _ _ _ _ _ _ _ 2%R [2] 1 2 1
                eq_refl eq_refl eq_refl eq_refl eq_refl eq_refl eq_refl eq_refl
                eq_refl eq_refl eq_refl eq_refl eq_refl).
  destruct H
    as ((ctx' & output & sf & gi & gw & gb & gt & sb & y & E1 & E2 & -> & Ly & Sy & _)
        & _).
  exists ctx', output, sf, gi, gw, gb, sb, y.
  split; [exact E1|]. split; [exact E2|]. split; [exact Ly|exact Sy].
Defined.

(** C4 refuted as stated.  On an input without a batch dimension, the
    vector of [ex_state_vector], forward returns, but with a context that
    asks for the weight gradient backward raises [IndexError] and returns no
    gradient.  On the stack of two matrices of [ex_state_stack_R] the weight
    gradient that backward returns has the shape [[2; 1; 2]], one product
    per matrix of the batch, not the shape [[1; 2]] of the weight. *)
Theorem IRLinearFunction_backward_grad_weight_unbatched :
  (exists ctx' output sf,
     IRLinearFunction_forward ex_ctx 0 1 (Some 2) (Some 3) ex_state_vector
       = (Ok (ctx', output), sf) /\
     nth 1 (needs_input_grad ctx') false = true /\
     fst (IRLinearFunction_backward ctx' 4 sf) = Raise IndexError) /\
  (exists ctx' output sf grad_input grad_weight grad_bias grad_t sb y w,
     IRLinearFunction_forward ex_ctx 0 1 (Some 2) (Some 3) ex_state_stack_R
       = (Ok (ctx', output), sf) /\
     IRLinearFunction_backward ctx' 4 sf
       = (Ok (grad_input, Some grad_weight, grad_bias, grad_t), sb) /\
     lookup sb grad_weight = Some (VTensor y false) /\
     shape y = [2; 1; 2] /\
     lookup sb 1 = Some (VTensor w true) /\
     shape w = [1; 2]).
Proof.
  split.
  - pose proof (@IR_forward_spec R Scalar_R Runtime_R ex_ctx 0 1 2 3 ex_state_vector
                  _ _ _ _ _ _ _ _ 2%R [] 2 1
                  eq_refl eq_refl eq_refl eq_refl eq_refl eq_refl eq_refl eq_refl
                  eq_refl eq_refl) as F.
    apply wp_elim in F.
    destruct F as ([ctx' output] & sf & E & wb & wn & ws & kk & qb & nt & y & Ec & X1
                   & Lq & Sq & _).
    cbn [fst snd] in *. subst ctx'.
    eexists _, output, sf. split; [exact E|]. split; [reflexivity|].
    unfold IRLinearFunction_backward.
    cbn [save_for_backward saved_variables needs_input_grad ex_ctx nth].
    edestruct (@grad_input_vector R Scalar_R true 4 wb) as (gi & s1 & E1 & X2);
      [apply X1; reflexivity|exact Lq|reflexivity|exact Sq|].
    erewrite bind_ok by exact E1.
    erewrite bind_raise; [reflexivity|].
    apply bind_raise. eapply op1_raise; [apply X2, X1; reflexivity|].
    now apply transpose_last2_vector with (m := 1).
  - destruct (@batch_IR_forward_backward_spec R Scalar_R Runtime_R
                ex_ctx 0 1 2 3 4 ex_state_stack_R _ _ _ _ _ _ _ _ _ _ 2%R [2] 1 2 1
                eq_refl eq_refl eq_refl eq_refl eq_refl eq_refl eq_refl eq_refl
                eq_refl eq_refl eq_refl eq_refl)
      as (ctx' & output & sf & gi & gw_ & gb_ & sb & qb & nt & E & E2 & X & _ & _
          & _ & _ & G2 & _).
    cbn [ex_ctx needs_input_grad nth] in G2.
    destruct G2 as (a & y & -> & Ly & Sy & _).
    exists ctx', output, sf, gi, a, gb_, None, sb, y, (mkT [1; 2] [1; 3]%R).
    split; [exact E|]. split; [exact E2|]. split; [exact Ly|].
    split; [exact Sy|]. split; [apply X; reflexivity|reflexivity].
Qed.

(** C6 refuted as stated: the temperature at address 3 of [ex_state_R] is
    -1, which is not positive, and the forward of the Scaled-Tanh Binarizer
    returns an output. *)
Lemma IRLinearFunction_forward_accepts_negative_t :
  lookup ex_state_R 3 = Some (VTensor (mkT [] [(-1)%R]) false) /\
  sltb (-1)%R 0%R = true /\
  exists r s',
    IRLinearFunction_forward ex_ctx 0 1 (Some 2) (Some 3) ex_state_R = (Ok r, s').
Proof.
  split; [reflexivity|]. split.
  - simpl. unfold Rltb. destruct (Rlt_dec (-1) 0) as [|N]; [reflexivity|].
    exfalso. apply N. lra.
  - pose proof (@IR_forward_spec R Scalar_R Runtime_R ex_ctx 0 1 2 3 ex_state_R
                  _ _ _ _ _ _ _ _ _ [1] 2 1
                  eq_refl eq_refl eq_refl eq_refl eq_refl eq_refl eq_refl eq_refl
                  eq_refl eq_refl) as F.
    apply wp_elim in F. destruct F as (r & s' & E & _). now exists r, s'.
Qed.

Lemma IRLinearFunction_forward_temperature_witness :
  (exists s', IRLinearFunction_forward ex_ctx 0 1 (Some 2) None ex_state_R
              = (Raise TypeError, s')) /\
  (exists r s', IRLinearFunction_forward ex_ctx 0 1 (Some 2) (Some 3) ex_state_R
                = (Ok r, s')).
Proof.
  destruct (@IRLinearFunction_forward_temperature R Scalar_R Runtime_R)
    as (H1 & H2 & _).
  split.
  - eapply H1. reflexivity.
  - exact (H2 ex_ctx 0 1 2 3 ex_state_R _ _ _ _ _ _ _ _ _ [1] 2 1
               eq_refl eq_refl eq_refl eq_refl eq_refl eq_refl eq_refl eq_refl
               eq_refl eq_refl).
Defined.

Lemma biasless_forward_raises_witness :
  (exists a s' p,
     BinarizedLinear_init 2 1 false ex_state_R = (Ok a, s') /\
     lookup s' a = Some (VModule (BinarizedLinear p)) /\ bias p = None) /\
  BinarizedLinear_forward
    {| in_features := 2; out_features := 1; weight := 1; bias := None |} 0 ex_state_R
  = (Raise Exception, ex_state_R) /\
  IRLinear_forward
    {| in_features := 2; out_features := 1; weight := 1; bias := None |} (Some 3) 0
    ex_state_R
  = (Raise Exception, ex_state_R).
Proof.
  destruct (@biasless_forward_raises R Scalar_R Runtime_R) as (H1 & _ & H3 & H4).
  split; [apply H1; discriminate|]. split; [now apply H3|now apply H4].
Defined.

Lemma forward_leaves_parameters_witness :
  let self := {| in_features := 2; out_features := 1; weight := 1; bias := Some 2 |} in
  lookup (snd (BinarizedLinear_forward self 0 ex_state_R)) 1 = lookup ex_state_R 1 /\
  lookup (snd (BinarizedLinear_forward self 0 ex_state_R)) 2 = lookup ex_state_R 2 /\
  lookup (snd (IRLinear_forward self (Some 3) 0 ex_state_R)) 1 = lookup ex_state_R 1 /\
  lookup (snd (IRLinear_forward self (Some 3) 0 ex_state_R)) 2 = lookup ex_state_R 2.
Proof.
  intros self.
  destruct (@forward_leaves_parameters R Scalar_R Runtime_R self (Some 3) 0
              ex_ctx 1 (Some 2) ex_state_R) as (H1 & H2 & _).
  split; [apply H1; reflexivity|]. split; [apply H1; reflexivity|].
  split; [apply H2; reflexivity|apply H2; reflexivity].
Defined.

Lemma model_wf_ex_model : model_wf ex_model.
Proof.
  intros b [<-|[<-|[]]]; (split; (split; [|split];
    [ repeat constructor; simpl; intuition discriminate
    | repeat constructor; simpl; intuition discriminate
    | intros n a H; simpl in H;
      repeat (destruct H as [H|H]; [injection H as <- <-; simpl; lia|]);
      contradiction ])).
Qed.

Lemma widths_positive_ex_model : widths_positive ex_model.
Proof.
  intros b n a p [<-|[<-|[]]] H; simpl in H;
    repeat (destruct H as [H|H];
            [injection H as <- <-; intros E; vm_compute in E;
             first [discriminate E | injection E as <-; discriminate]|]);
    contradiction.
Qed.

Lemma binarizer_replaces_dense_layers_witness :
  exists s', binarizer "ir" false false true ex_model = (Ok tt, s') /\
    length (transformer_h s') = 2.
Proof.
  destruct (@binarizer_replaces_dense_layers R Scalar_R Runtime_R "ir"
              false false true ex_model (or_intror eq_refl)
              model_wf_ex_model widths_positive_ex_model)
    as (s' & E & _ & L & _).
  exists s'. split; [exact E|exact L].
Defined.

(** What the surgery leaves of [ex_model] with [kv_only]: the two layers
    named "c_attn_q" and the wrapper are the same objects, and every other
    name refers to a layer created by the call. *)
Example binarizer_run :
  let r := binarizer "ir" false false true ex_model in
  fst r = Ok tt /\
  transformer_h (snd r) =
    [ {| mlp := [("c_fc", 13); ("act", 10)]%string;
         attn := [("c_attn_q", 3); ("c_attn_k", 16); ("c_attn_v", 19)]%string |};
      {| mlp := [("c_fc", 22); ("act", 10)]%string;
         attn := [("c_attn_q", 7); ("c_attn_k", 25); ("c_attn_v", 28)]%string |} ] /\
  map (fun a => match lookup (snd r) a with
                | Some (VModule (IRLinear p None)) =>
                    Some (in_features p, out_features p, bias p)
                | _ => None
                end) [13; 16; 19; 22; 25; 28]
  = [Some (2, 3, Some 12); Some (2, 3, Some 15); Some (2, 3, Some 18);
     Some (2, 3, Some 21); Some (2, 3, Some 24); Some (2, 3, Some 27)].
Proof. vm_compute. repeat split. Qed.

(** C8 refuted as stated, on two models.  The dense layer "c_fc" of the
    well-formed model [ex_zero_width] has no input feature: the surgery
    raises in the constructor of the replacement, at [1.0 / in_features],
    and the child is still the dense layer.  The group of [ex_shared_child]
    registers one dense layer, with two input features, under the names "a"
    and "b": [named_children] yields the object once, the surgery returns,
    "a" is bound to the new layer and "b" is still bound to the dense layer,
    which is not overwritten there. *)
Lemma binarizer_leaves_dense_layers :
  (model_wf ex_zero_width /\
   linear_at ex_zero_width 2
     = Some {| in_features := 0; out_features := 4; weight := 0; bias := Some 1 |} /\
   skipped false false false "c_fc" = false /\
   fst (binarizer "basic" false false false ex_zero_width) = Raise ZeroDivisionError /\
   transformer_h (snd (binarizer "basic" false false false ex_zero_width))
     = transformer_h ex_zero_width) /\
  (linear_at ex_shared_child 2
     = Some {| in_features := 2; out_features := 3; weight := 0; bias := Some 1 |} /\
   skipped false false false "b" = false /\
   fst (binarizer "basic" false false false ex_shared_child) = Ok tt /\
   transformer_h (snd (binarizer "basic" false false false ex_shared_child))
     = [ {| mlp := [("a", 5); ("b", 2)]%string; attn := [] |} ] /\
   linear_at (snd (binarizer "basic" false false false ex_shared_child)) 2
     = Some {| in_features := 2; out_features := 3; weight := 0; bias := Some 1 |}).
Proof.
  split.
  - split.
    + intros b [<-|[]]; (split; (split; [|split];
        [ repeat constructor; simpl; intuition discriminate
        | repeat constructor; simpl; intuition discriminate
        | intros n a H; simpl in H;
          repeat (destruct H as [H|H]; [injection H as <- <-; simpl; lia|]);
          contradiction ])).
    + split; [reflexivity|]. split; [reflexivity|].
      split; vm_compute; reflexivity.
  - split; [reflexivity|]. split; [reflexivity|].
    split; [vm_compute; reflexivity|]. split; vm_compute; reflexivity.
Qed.

(** C9 refuted as stated: "foo" is neither "basic" nor "ir", and the surgery
    on [ex_no_dense] returns without an error and without a change. *)
Lemma binarizer_unknown_kind_returns :
  binarizer "foo" false false false ex_no_dense = (Ok tt, ex_no_dense).
Proof. vm_compute. reflexivity. Qed.

Lemma binarizer_does_not_validate_witness :
  binarizer "foo" false true false ex_no_dense = (Ok tt, ex_no_dense) /\
  exists s', binarizer "basic" false false true ex_model = (Ok tt, s').
Proof.
  split.
  - apply (@binarizer_does_not_validate R Scalar_R Runtime_R "foo" false true false
             ex_no_dense).
    intros blk [<-|[]]. split; intros n a H; simpl in H.
    + destruct H as [H|[]]. injection H as <- <-. now left.
    + contradiction.
  - apply (@binarizer_does_not_validate R Scalar_R Runtime_R "basic" false false true
             ex_model).
    + now left.
    + exact widths_positive_ex_model.
Defined.

(** With an unknown kind and a dense layer to replace, the local variable
    [b] is read before any assignment. *)
Example binarizer_unknown_kind_unbound :
  binarizer "foo" false false false ex_model = (Raise UnboundLocalError, ex_model).
Proof. vm_compute. reflexivity. Qed.

(** ** Further properties at concrete inputs *)

Lemma BinaryLinearFunction_backward_grad_input_witness :
  exists ctx' output sf grad_input grad_weight grad_bias sb y,
    BinaryLinearFunction_forward ex_ctx 0 1 (Some 2) ex_state
      = (Ok (ctx', output), sf) /\
    BinaryLinearFunction_backward ctx' 3 sf
      = (Ok (Some grad_input, grad_weight, grad_bias), sb) /\
    lookup sb grad_input = Some (VTensor y false) /\ shape y = [2; 3].
Proof.
  edestruct (@BinaryLinearFunction_backward_grad_input Q Scalar_Q
               ex_ctx 0 1 2 3 ex_state)
    as (ctx' & output & sf & gi & gw & gb & sb & y & E1 & E2 & L & S & _);
    [reflexivity|reflexivity|reflexivity|reflexivity|reflexivity|reflexivity
    |reflexivity|reflexivity|reflexivity|reflexivity|].
  exists ctx', output, sf, gi, gw, gb, sb, y. auto.
Defined.

Lemma BinaryLinearFunction_backward_grad_bias_witness :
  exists ctx' output sf grad_input grad_weight grad_bias sb y,
    BinaryLinearFunction_forward ex_ctx 0 1 (Some 2) ex_state
      = (Ok (ctx', output), sf) /\
    BinaryLinearFunction_backward ctx' 3 sf
      = (Ok (grad_input, grad_weight, Some grad_bias), sb) /\
    lookup sb grad_bias = Some (VTensor y false) /\ shape y = [2].
Proof.
  edestruct (@BinaryLinearFunction_backward_grad_bias Q Scalar_Q
               ex_ctx 0 1 2 3 ex_state)
    as (ctx' & output & sf & gi & gw & gb & sb & y & E1 & E2 & L & S & _);
    [reflexivity|reflexivity|reflexivity|reflexivity|reflexivity|reflexivity
    |reflexivity|reflexivity|reflexivity|reflexivity|].
  exists ctx', output, sf, gi, gw, gb, sb, y. auto.
Defined.

Lemma IRLinearFunction_backward_grad_input_witness :
  exists ctx' output sf grad_input grad_weight grad_bias grad_t sb y,
    IRLinearFunction_forward ex_ctx 0 1 (Some 2) (Some 3) ex_state_R
      = (Ok (ctx', output), sf) /\
    IRLinearFunction_backward ctx' 4 sf
      = (Ok (Some grad_input, grad_weight, grad_bias, grad_t), sb) /\
    lookup sb grad_input = Some (VTensor y false) /\ shape y = [1; 2].
Proof.
  edestruct (@IRLinearFunction_backward_grad_input R Scalar_R Runtime_R
               ex_ctx 0 1 2 3 4 ex_state_R)
    as (ctx' & output & sf & gi & gw & gb & gt & sb & y & E1 & E2 & L & S & _);
    [reflexivity|reflexivity|reflexivity|reflexivity|reflexivity|reflexivity
    |reflexivity|reflexivity|reflexivity|reflexivity|reflexivity|reflexivity
    |reflexivity|].
  exists ctx', output, sf, gi, gw, gb, gt, sb, y. auto.
Defined.

Lemma IRLinearFunction_backward_grad_bias_witness :
  exists ctx' output sf grad_input grad_weight grad_bias grad_t sb y,
    IRLinearFunction_forward ex_ctx 0 1 (Some 2) (Some 3) ex_state_R
      = (Ok (ctx', output), sf) /\
    IRLinearFunction_backward ctx' 4 sf
      = (Ok (grad_input, grad_weight, Some grad_bias, grad_t), sb) /\
    lookup sb grad_bias = Some (VTensor y false) /\ shape y = [1].
Proof.
  edestruct (@IRLinearFunction_backward_grad_bias R Scalar_R Runtime_R
               ex_ctx 0 1 2 3 4 ex_state_R)
    as (ctx' & output & sf & gi & gw & gb & gt & sb & y & E1 & E2 & L & S & _);
    [reflexivity|reflexivity|reflexivity|reflexivity|reflexivity|reflexivity
    |reflexivity|reflexivity|reflexivity|reflexivity|reflexivity|reflexivity
    |reflexivity|].
  exists ctx', output, sf, gi, gw, gb, gt, sb, y. auto.
Defined.

Lemma backward_gradient_slots_witness :
  (exists gi gw gb s',
     BinaryLinearFunction_backward ex_saved 4 ex_state_saved = (Ok (gi, gw, gb), s') /\
     gi <> None /\ gw <> None /\ gb <> None) /\
  IRLinearFunction_backward ex_saved_IR 4 ex_state_saved
  = (Ok (None, None, None, None), ex_state_saved).
Proof.
  destruct (@backward_gradient_slots R Scalar_R Runtime_R) as (H1 & _ & _ & H4).
  split.
  - assert (E : exists r s',
              BinaryLinearFunction_backward ex_saved 4 ex_state_saved = (Ok r, s'))
      by (eexists; eexists; reflexivity).
    destruct E as ([[gi gw] gb] & s' & E). exists gi, gw, gb, s'.
    split; [exact E|].
    destruct (H1 _ _ _ _ _ _ _ E) as (G0 & G1 & G2).
    split; [intros N; apply G0 in N; discriminate N|].
    split; [intros N; apply G1 in N; discriminate N|].
    intros N; apply G2 in N; destruct N as [N|N]; discriminate N.
  - eapply H4; reflexivity.
Defined.

Lemma backward_leaves_saved_tensors_witness :
  lookup (snd (BinaryLinearFunction_backward ex_saved 4 ex_state_saved)) 1
  = lookup ex_state_saved 1 /\
  lookup (snd (IRLinearFunction_backward ex_saved_IR 4 ex_state_saved)) 1
  = lookup ex_state_saved 1.
Proof.
  destruct (@backward_leaves_saved_tensors R Scalar_R Runtime_R) as (H1 & H2 & _).
  split; [apply H1; reflexivity|apply H2; reflexivity].
Defined.

Lemma backward_unbatched_raises_witness :
  (exists ctx' output sf,
     BinaryLinearFunction_forward ex_ctx 0 1 (Some 2) ex_state_vector
       = (Ok (ctx', output), sf) /\
     fst (BinaryLinearFunction_backward ctx' 4 sf) = Raise IndexError) /\
  (exists ctx' output sf,
     IRLinearFunction_forward ex_ctx 0 1 (Some 2) (Some 3) ex_state_vector
       = (Ok (ctx', output), sf) /\
     fst (IRLinearFunction_backward ctx' 4 sf) = Raise IndexError).
Proof.
  pose proof (@backward_unbatched_raises R Scalar_R Runtime_R
                ex_ctx 0 1 2 3 4 ex_state_vector) as H.
  specialize (H _ _ _ _ _ _ _ _ _ _ _ 2 1
                eq_refl eq_refl eq_refl eq_refl eq_refl eq_refl eq_refl eq_refl
                eq_refl eq_refl eq_refl eq_refl eq_refl).
  destruct H as ((c1 & o1 & s1 & y1 & E1 & _ & _ & R1)
                 & (c2 & o2 & s2 & y2 & E2 & _ & _ & R2)).
  split; [exists c1, o1, s1|exists c2, o2, s2]; auto.
Defined.

Lemma constructors_initialize_parameters_witness :
  (exists a s', BinarizedLinear_init 2 1 true ex_state_R = (Ok a, s') /\
     gen s' = 2) /\
  (exists a s', IRLinear_init 2 1 true ex_state_R = (Ok a, s') /\ gen s' = 2).
Proof.
  destruct (@constructors_initialize_parameters R Scalar_R Runtime_R 2 1 true
              ex_state_R)
    as ((a1 & s1 & E1 & _ & G1 & _) & (a2 & s2 & E2 & _ & G2 & _));
    [discriminate|].
  split; [exists a1, s1|exists a2, s2]; auto.
Defined.

Lemma constructors_reject_zero_width_witness :
  fst (BinarizedLinear_init 0 4 true ex_state_R) = Raise ZeroDivisionError /\
  fst (IRLinear_init 0 4 true ex_state_R) = Raise ZeroDivisionError /\
  lookup (snd (BinarizedLinear_init 0 4 true ex_state_R)) 1 = lookup ex_state_R 1.
Proof.
  destruct (@constructors_reject_zero_width R Scalar_R Runtime_R 4 true ex_state_R)
    as (H1 & H2 & X1 & _).
  split; [exact H1|]. split; [exact H2|]. apply X1. reflexivity.
Defined.


Lemma IRLinear_constructed_forward_raises_witness :
  exists layer s1 p,
    IRLinear_init 2 1 true ex_state_R = (Ok layer, s1) /\
    lookup s1 layer = Some (VModule (IRLinear p None)) /\
    fst (IRLinear_forward p None 0 s1) = Raise TypeError.
Proof.
  destruct (@IRLinear_constructed_forward_raises R Scalar_R Runtime_R 2 1 ex_state_R)
    as (layer & s1 & p & E1 & L1 & H); [discriminate|].
  exists layer, s1, p. split; [exact E1|]. split; [exact L1|].
  assert (X : extends ex_state_R s1).
  { destruct (@IRLinear_init_initialized R Scalar_R Runtime_R 2 1 true ex_state_R)
      as (a2 & s2 & E2 & X2 & _); [discriminate|].
    rewrite E1 in E2. injection E2 as _ <-. exact X2. }
  eapply (H s1 0); [intros a v L; exact L|]. apply X. reflexivity.
Defined.

Lemma BinaryLinearFunction_forward_signs_only_witness :
  exists ctx1 out1 s1 y1 ctx2 out2 s2 y2,
    BinaryLinearFunction_forward ex_ctx 0 1 (Some 2) ex_state_signs
      = (Ok (ctx1, out1), s1) /\
    BinaryLinearFunction_forward ex_ctx 0 4 (Some 2) ex_state_signs
      = (Ok (ctx2, out2), s2) /\
    lookup s1 out1 = Some (VTensor y1 false) /\
    lookup s2 out2 = Some (VTensor y2 false) /\
    entry2 y1 2 1 0 = entry2 y2 2 1 0.
Proof.
  pose proof (@BinaryLinearFunction_forward_signs_only Q Scalar_Q
                ex_ctx 0 1 4 2 ex_state_signs) as H.
  specialize (H _ _ _ _ _ _ _ _ [2] 3 2
                eq_refl eq_refl eq_refl eq_refl eq_refl eq_refl eq_refl eq_refl
                eq_refl eq_refl).
  destruct H as (c1 & o1 & s1 & y1 & c2 & o2 & s2 & y2 & E1 & E2 & L1 & L2 & _ & H).
  - intros o l Ho Hl.
    destruct o as [|[|o]]; [| |exfalso; lia];
      (destruct l as [|[|[|l]]]; [| | |exfalso; lia]); vm_compute; reflexivity.
  - exists c1, o1, s1, y1, c2, o2, s2, y2.
    split; [exact E1|]. split; [exact E2|]. split; [exact L1|]. split; [exact L2|].
    apply H; simpl; lia.
Defined.

Lemma binarizer_unknown_kind_raises_witness :
  binarizer "foo" false false false ex_model = (Raise UnboundLocalError, ex_model).
Proof.
  apply (@binarizer_unknown_kind_raises R Scalar_R Runtime_R "foo" false false false
           ex_model).
  - discriminate.
  - discriminate.
  - exact model_wf_ex_model.
  - eexists. split; [left; reflexivity|].
    exists "c_fc"%string, 2. eexists.
    split; [left; reflexivity|]. split; reflexivity.
Defined.

Lemma binarizer_second_run_witness :
  exists s',
    binarizer "ir" false false true ex_model = (Ok tt, s') /\
    binarizer "basic" false false true s' = (Ok tt, s').
Proof.
  apply (@binarizer_second_run R Scalar_R Runtime_R "ir" "basic" false false true
           ex_model).
  - now right.
  - exact model_wf_ex_model.
  - exact widths_positive_ex_model.
Defined.


Lemma repr_identifies_layer_witness :
  BinarizedLinear_repr
    {| in_features := 2; out_features := 3; weight := 0; bias := None |}
  = "BinarizedLinear (2 -> 3)"%string /\
  in_features {| in_features := 2; out_features := 3; weight := 0; bias := None |}
  = in_features {| in_features := 2; out_features := 3; weight := 5; bias := Some 6 |}.
Proof.
  split; [reflexivity|].
  apply (proj1 (repr_identifies_layer
                  {| in_features := 2; out_features := 3; weight := 0; bias := None |}
                  {| in_features := 2; out_features := 3; weight := 5;
                     bias := Some 6 |})).
  reflexivity.
Defined.

Lemma IRLinearFunction_forward_bounded_witness :
  exists ctx' output s',
    IRLinearFunction_forward ex_ctx 0 1 (Some 2) (Some 3) ex_state_R
      = (Ok (ctx', output), s') /\
    (1 <= spec_k (-1))%R.
Proof.
  pose proof (@IRLinearFunction_forward_bounded ex_ctx 0 1 2 3 ex_state_R) as H.
  specialize (H _ _ _ _ _ _ _ _ _ [1] 2 1
                eq_refl eq_refl eq_refl eq_refl eq_refl eq_refl eq_refl eq_refl
                eq_refl eq_refl).
  destruct H as (ctx' & output & s' & wb & kk & q & E & _ & _ & _ & _ & K & _).
  - lra.
  - unfold spec_std, spec_mean, ssum.
    cbn [data fold_left map length sadd ssub smul sdiv ssqrt s0 of_nat
         Scalar_R Runtime_R Nat.sub INR].
    apply Rgt_not_eq, Rlt_gt, sqrt_lt_R0.
    apply Rmult_lt_0_compat; [|apply Rinv_0_lt_compat; lra].
    replace ((0 + 1 + 3) / (1 + 1))%R with 2%R by field.
    lra.
  - exists ctx', output, s'. split; [exact E|exact K].
Defined.

Lemma binarizer_leaves_only_skipped_witness :
  exists s',
    binarizer "basic" false false false ex_model = (Ok tt, s') /\
    forall blk' n a,
      In blk' (transformer_h s') -> In (n, a) (mlp blk' ++ attn blk') ->
      linear_at s' a = None.
Proof.
  destruct (@binarizer_leaves_only_skipped R Scalar_R Runtime_R "basic"
              false false false ex_model (or_introl eq_refl)
              model_wf_ex_model widths_positive_ex_model)
    as (s' & E & _ & H).
  exists s'. split; [exact E|]. now apply H.
Defined.


Lemma forward_without_bias_witness :
  (exists ctx' output s',
     BinaryLinearFunction_forward ex_ctx 0 1 None ex_state_R = (Ok (ctx', output), s')) /\
  (exists ctx' output s',
     IRLinearFunction_forward ex_ctx 0 1 None (Some 3) ex_state_R
     = (Ok (ctx', output), s')).
Proof.
  pose proof (@forward_without_bias R Scalar_R Runtime_R ex_ctx 0 1 3 ex_state_R) as H.
  specialize (H _ _ _ _ _ _ _ [1] 2 1
                eq_refl eq_refl eq_refl eq_refl eq_refl eq_refl eq_refl eq_refl).
  destruct H as ((c1 & o1 & s1 & y1 & E1 & _) & (c2 & o2 & s2 & y2 & E2 & _)).
  split; [now exists c1, o1, s1|now exists c2, o2, s2].
Defined.

Lemma forward_rejects_wrong_width_witness :
  fst (BinaryLinearFunction_forward ex_ctx 4 1 (Some 2) ex_state_R) = Raise RuntimeError /\
  fst (IRLinearFunction_forward ex_ctx 4 1 (Some 2) (Some 3) ex_state_R)
  = Raise RuntimeError.
Proof.
  pose proof (@forward_rejects_wrong_width R Scalar_R Runtime_R ex_ctx 4 1 (Some 2) 3
                ex_state_R) as H.
  specialize (H _ _ _ _ _ _ _ [1] 2 1 1
                eq_refl eq_refl eq_refl eq_refl eq_refl eq_refl eq_refl eq_refl).
  apply H. discriminate.
Defined.

Lemma binarizer_succeeds_iff_witness :
  (exists s', binarizer "basic" false false false ex_zero_width
              = (Raise ZeroDivisionError, s')) /\
  (exists s', binarizer "ir" false false true ex_model = (Ok tt, s')).
Proof.
  split.
  - apply (@binarizer_succeeds_iff R Scalar_R Runtime_R "basic" false false false
             ex_zero_width).
    + now left.
    + intros b [<-|[]]; (split; (split; [|split];
        [ repeat constructor; simpl; intuition discriminate
        | repeat constructor; simpl; intuition discriminate
        | intros n a H; simpl in H;
          repeat (destruct H as [H|H]; [injection H as <- <-; simpl; lia|]);
          contradiction ])).
    + eexists. split; [left; reflexivity|].
      exists "c_fc"%string, 2. eexists.
      split; [left; reflexivity|]. split; [reflexivity|]. split; reflexivity.
  - apply (@binarizer_succeeds_iff R Scalar_R Runtime_R "ir" false false true ex_model).
    + now right.
    + exact model_wf_ex_model.
    + intros blk Hb n a p Hc Hl _.
      eapply widths_positive_ex_model; eassumption.
Defined.

Lemma binarizer_keeps_structure_witness :
  lookup (snd (binarizer "ir" false false true ex_model)) 2 = lookup ex_model 2 /\
  length (transformer_h (snd (binarizer "ir" false false true ex_model))) = 2.
Proof.
  destruct (@binarizer_keeps_structure R Scalar_R Runtime_R "ir" false false true
              ex_model model_wf_ex_model) as (X & N).
  split; [apply X; reflexivity|].
  apply Forall2_length in N. now rewrite <- N.
Defined.

Lemma IRLinearFunction_forward_standardizes_witness :
  exists ctx' output s',
    IRLinearFunction_forward ex_ctx 0 1 (Some 2) (Some 3) ex_state_R
      = (Ok (ctx', output), s').
Proof.
  pose proof (@IRLinearFunction_forward_standardizes ex_ctx 0 1 2 3 ex_state_R) as H.
  specialize (H _ _ _ _ _ _ _ _ _ [1] 2 1
                eq_refl eq_refl eq_refl eq_refl eq_refl eq_refl eq_refl eq_refl
                eq_refl eq_refl).
  destruct H as (ctx' & output & s' & wn & nt & E & _).
  - unfold spec_std, spec_mean, ssum.
    cbn [data fold_left map length sadd ssub smul sdiv ssqrt s0 of_nat
         Scalar_R Runtime_R Nat.sub INR].
    apply Rgt_not_eq, Rlt_gt, sqrt_lt_R0.
    apply Rmult_lt_0_compat; [|apply Rinv_0_lt_compat; lra].
    replace ((0 + 1 + 3) / (1 + 1))%R with 2%R by field.
    lra.
  - exists ctx', output, s'. exact E.
Defined.


Lemma binarizer_flags_need_names_witness :
  binarizer "basic" true true true ex_stock
  = binarizer "basic" false false false ex_stock.
Proof.
  apply (@binarizer_flags_need_names R Scalar_R Runtime_R "basic" true true true ex_stock).
  intros blk n a Hb Hc.
  destruct Hb as [<-|[]].
  cbn [mlp attn app In] in Hc.
  destruct Hc as [E|[E|[E|[]]]]; injection E as <- _;
    (split; [|split]); discriminate.
Defined.


Lemma IRLinearFunction_backward_keeps_sign_witness :
  exists ctx' output sf gi grad_weight gb_ gt_ sb y,
    IRLinearFunction_forward ex_ctx 0 1 (Some 2) (Some 3) ex_state_stack_R
      = (Ok (ctx', output), sf) /\
    IRLinearFunction_backward ctx' 4 sf = (Ok (gi, Some grad_weight, gb_, gt_), sb) /\
    lookup sb grad_weight = Some (VTensor y false) /\
    shape y = [2; 1; 2].
Proof.
  pose proof (@IRLinearFunction_backward_keeps_sign ex_ctx 0 1 2 3 4 ex_state_stack_R)
    as H.
  specialize (H _ _ _ _ _ _ _ _ _ _ 2%R [2] 1 2 1
                eq_refl eq_refl eq_refl eq_refl eq_refl eq_refl eq_refl eq_refl
                eq_refl eq_refl eq_refl eq_refl eq_refl).
  destruct H
    as (ctx' & output & sf & gi & a & gb_ & gt_ & sb & y & E1 & E2 & Ly & Sy & _).
  - lra.
  - unfold spec_std, spec_mean, ssum.
    cbn [data fold_left map length sadd ssub smul sdiv ssqrt s0 of_nat
         Scalar_R Runtime_R Nat.sub INR].
    apply Rgt_not_eq, Rlt_gt, sqrt_lt_R0.
    apply Rmult_lt_0_compat; [|apply Rinv_0_lt_compat; lra].
    replace ((0 + 1 + 3) / (1 + 1))%R with 2%R by field.
    lra.
  - exists ctx', output, sf, gi, a, gb_, gt_, sb, y.
    split; [exact E1|]. split; [exact E2|]. split; [exact Ly|exact Sy].
Defined.

Lemma backward_grad_bias_first_dimension_witness :
  exists ctx' output sf gi gw_ grad_bias sb y,
    IRLinearFunction_forward ex_ctx 0 1 (Some 2) (Some 3) ex_state_stack_R
      = (Ok (ctx', output), sf) /\
    IRLinearFunction_backward ctx' 4 sf = (Ok (gi, gw_, Some grad_bias, None), sb) /\
    lookup sb grad_bias = Some (VTensor y false) /\
    shape y = [1; 1].
Proof.
  pose proof (@backward_grad_bias_first_dimension R Scalar_R Runtime_R
                ex_ctx 0 1 2 3 4 ex_state_stack_R) as H.
  specialize (H _ _ _ _ _ _ _ _ 2%R _ _ 2 [] 1 2 1
                eq_refl eq_refl eq_refl eq_refl eq_refl eq_refl eq_refl eq_refl
                eq_refl eq_refl eq_refl eq_refl eq_refl).
  destruct H
    as ((ctx' & output & sf & gi & gw_ & a & sb & y & E1 & E2 & Ly & Sy & _) & _).
  exists ctx', output, sf, gi, gw_, a, sb, y.
  split; [exact E1|]. split; [exact E2|]. split; [exact Ly|exact Sy].
Defined.
